(** * SystemCatalog: the array lock manager, version catalog and boundary
      maintenance of src/system/catalog/SystemCatalog.cpp

    The catalog keeps its state in PostgreSQL tables and reaches them through
    libpqxx prepared statements.  The embedding keeps that shape: a table is a
    list of rows (SQL bag semantics), a prepared statement is a function of
    its positional parameters and of the table, a catalog call returns an
    [Outcome] (a value or the exception it raises) together with the tables
    and, for [_lockArray], the caller's [LockDesc] object it mutates. *)

From Stdlib Require Import ZArith List Ascii String Bool Lia Permutation.
Import ListNotations.
Local Open Scope Z_scope.

Set Implicit Arguments.

(** ** Exceptions and outcomes *)

(** Isolation level a pqxx transaction object is opened with:
    [pqxx::work] is [pqxx::transaction<read_committed>]. *)
Inductive IsolationLevel := read_committed | serializable.

(** The libpqxx exception classes the catch clauses of the catalog tell
    apart ([unique_violation] is a [sql_error], every one is a [failure]). *)
Inductive PqxxException :=
| unique_violation
| broken_connection
| sql_error (what : string)
| failure.

Inductive ShortErrorCode := SCIDB_SE_SYSCAT | SCIDB_SE_INTERNAL | SCIDB_SE_INFER_SCHEMA.

Inductive LongErrorCode :=
| SCIDB_LE_UNKNOWN_ERROR
| SCIDB_LE_PG_QUERY_EXECUTION_FAILED
| SCIDB_LE_INVALID_FUNCTION_ARGUMENT
| SCIDB_LE_DUPLICATE_ATTRIBUTE_NAME
| SCIDB_LE_PLUGIN_FUNCTION_ACCESS.

(** What a catalog call can raise. [AssertException] is what the
    ASSERT_EXCEPTION macro raises when its condition is false; plain
    [assert]s are compiled out (release build). *)
Inductive Exception :=
| BrokenConnection
| TxnIsolationConflict
| LockBusyException
| SystemException (short : ShortErrorCode) (long : LongErrorCode)
| UserException (short : ShortErrorCode) (long : LongErrorCode)
| AssertException (msg : string).

Inductive Outcome (A : Type) :=
| Return (a : A)
| Throw (e : Exception).
Arguments Return {A} a.
Arguments Throw {A} e.

(** The store may fail the statement of one attempt for a reason of its own
    (the connection is lost, the statement is refused with a message such as
    a serialization failure, the driver fails); [None] is a store that
    answers.  A uniqueness violation is not such a fault: it is raised by the
    insert that breaks the unique constraint of the table. *)
Inductive StoreFailure :=
| connection_lost
| statement_failed (what : string)
| driver_failed.

Definition Fault := option StoreFailure.

Definition raised (f : StoreFailure) : PqxxException :=
  match f with
  | connection_lost => broken_connection
  | statement_failed what => sql_error what
  | driver_failed => failure
  end.

(** [SystemCatalog::throwOnSerializationConflict]: the text comparison of the
    first characters of [e.what()] with the constant. *)
Definition SERIALIZATION_CONFLICT : string := "ERROR:  could not serialize access".

Definition isSerializationConflict (what : string) : bool :=
  String.prefix SERIALIZATION_CONFLICT what.

(** The catch clauses shared by the serializable catalog calls:
    broken_connection is rethrown, a sql_error goes through
    [throwOnSerializationConflict] first, anything else is UNKNOWN_ERROR. *)
Definition catchSerializable (e : PqxxException) : Exception :=
  match e with
  | broken_connection => BrokenConnection
  | sql_error what =>
      if isSerializationConflict what then TxnIsolationConflict
      else SystemException SCIDB_SE_SYSCAT SCIDB_LE_PG_QUERY_EXECUTION_FAILED
  | unique_violation => SystemException SCIDB_SE_SYSCAT SCIDB_LE_PG_QUERY_EXECUTION_FAILED
  | failure => SystemException SCIDB_SE_SYSCAT SCIDB_LE_UNKNOWN_ERROR
  end.

(** The catch clauses of the read-committed calls: no conflict
    classification. *)
Definition catchReadCommitted (e : PqxxException) : Exception :=
  match e with
  | broken_connection => BrokenConnection
  | sql_error _ | unique_violation =>
      SystemException SCIDB_SE_SYSCAT SCIDB_LE_PG_QUERY_EXECUTION_FAILED
  | failure => SystemException SCIDB_SE_SYSCAT SCIDB_LE_UNKNOWN_ERROR
  end.

(** ** RestartableExecutor *)

Section Restartable.
Variables (St A : Type).

(** A unit of work runs against the pending fault schedule of the store
    and the state it shares with its caller. *)
Definition Work := list Fault * St -> Outcome A * (list Fault * St).

(** One attempt of a catalog body consumes the next scheduled fault. *)
Definition attempt (body : Fault -> St -> Outcome A * St) : Work :=
  fun '(faults, s) =>
    let '(o, s') := body (hd None faults) s in (o, (tl faults, s')).

(** Modelled from the spec: [Query::runRestartableWork<T,E>(work, tries)]
    is declared in Query.h, which is not among the sources.  Spec 4.1:
    "run(work, isRetryable, maxTries) executes work at most maxTries times,
    retrying only when the failure is classified as belonging to the
    designated retryable category, and re-raising immediately otherwise";
    exhausting the budget surfaces the failure.  A budget of zero tries
    runs nothing and has no value to return. *)
Fixpoint runRestartableWork (isRetryable : Exception -> bool) (maxTries : nat)
         (work : Work) (env : list Fault * St) : Outcome A * (list Fault * St) :=
  match maxTries with
  | O => (Throw (AssertException "runRestartableWork: no tries"), env)
  | S n =>
      match work env with
      | (Throw e, env') =>
          if isRetryable e then
            match n with
            | O => (Throw e, env')
            | S _ => runRestartableWork isRetryable n work env'
            end
          else (Throw e, env')
      | r => r
      end
  end.
End Restartable.

Definition isBrokenConnection (e : Exception) : bool :=
  match e with BrokenConnection => true | _ => false end.

Definition isTxnIsolationConflict (e : Exception) : bool :=
  match e with TxnIsolationConflict => true | _ => false end.

(** ** LockDesc and the array_version_lock table *)

Inductive InstanceRole := INVALID_ROLE | COORD | WORKER.

Inductive LockMode := INVALID_MODE | RD | WR | CRT | XCL | RM | RNF.

(** Modelled from the spec: the numeric values of [LockDesc::InstanceRole]
    ([(int)LockDesc::COORD]); the enum is declared in SystemCatalog.h, which
    is not among the sources.  Spec 3: "instanceRole in {COORD, WORKER}",
    numbered in that order after INVALID_ROLE = 0; the worker statements of
    [getLockInsertSql] spell the coordinator's value out:
    [AVL.instance_role=1]. *)
Definition roleCode (r : InstanceRole) : Z :=
  match r with INVALID_ROLE => 0 | COORD => 1 | WORKER => 2 end.

(** Modelled from the spec: the numeric values of [LockDesc::LockMode]
    ([(int)lockDesc->getLockMode()]); the enum is declared in SystemCatalog.h,
    which is not among the sources.  The modes are numbered in the order the
    spec's data model lists them, "lockMode in {RD, WR, CRT, XCL, RM, RNF}",
    after INVALID_MODE = 0.  The statements of [getLockInsertSql] compare
    stored modes with RD and CRT only, so what matters below is
    RD < WR < CRT < XCL, RM, RNF. *)
Definition modeCode (m : LockMode) : Z :=
  match m with
  | INVALID_MODE => 0 | RD => 1 | WR => 2 | CRT => 3 | XCL => 4 | RM => 5 | RNF => 6
  end.

Definition InstanceRole_eqb (a b : InstanceRole) : bool := roleCode a =? roleCode b.
Definition LockMode_eqb (a b : LockMode) : bool := modeCode a =? modeCode b.

Record LockDesc := mkLockDesc {
  getArrayName : string;
  getArrayId : Z;
  getQueryId : Z;
  getInstanceId : Z;
  getArrayVersionId : Z;
  getArrayCatalogId : Z;
  getArrayVersion : Z;
  getInstanceRole : InstanceRole;
  getLockMode : LockMode;
  isLocked : bool
}.

(** [LockDesc::LockDesc(arrayName, queryId, instanceId, instanceRole, lockMode)] *)
Definition newLockDesc (arrayName : string) (queryId instanceId : Z)
           (instanceRole : InstanceRole) (lockMode : LockMode) : LockDesc :=
  mkLockDesc arrayName 0 queryId instanceId 0 0 0 instanceRole lockMode false.

Definition setArrayVersion (v : Z) (l : LockDesc) : LockDesc :=
  mkLockDesc (getArrayName l) (getArrayId l) (getQueryId l) (getInstanceId l)
             (getArrayVersionId l) (getArrayCatalogId l) v
             (getInstanceRole l) (getLockMode l) (isLocked l).

Definition setArrayId (v : Z) (l : LockDesc) : LockDesc :=
  mkLockDesc (getArrayName l) v (getQueryId l) (getInstanceId l)
             (getArrayVersionId l) (getArrayCatalogId l) (getArrayVersion l)
             (getInstanceRole l) (getLockMode l) (isLocked l).

Definition setArrayVersionId (v : Z) (l : LockDesc) : LockDesc :=
  mkLockDesc (getArrayName l) (getArrayId l) (getQueryId l) (getInstanceId l)
             v (getArrayCatalogId l) (getArrayVersion l)
             (getInstanceRole l) (getLockMode l) (isLocked l).

Definition setLocked (b : bool) (l : LockDesc) : LockDesc :=
  mkLockDesc (getArrayName l) (getArrayId l) (getQueryId l) (getInstanceId l)
             (getArrayVersionId l) (getArrayCatalogId l) (getArrayVersion l)
             (getInstanceRole l) (getLockMode l) b.

(** A row of array_version_lock (array_name, array_id, query_id,
    instance_id, array_version_id, array_version, instance_role, lock_mode). *)
Record LockRow := mkLockRow {
  array_name : string;
  array_id : Z;
  query_id : Z;
  instance_id : Z;
  array_version_id : Z;
  array_version : Z;
  instance_role : Z;
  lock_mode : Z
}.

Definition LockTable := list LockRow.

(** Modelled from the spec: the unique constraint of array_version_lock; the
    table is created by the catalog's schema script, which is not among the
    sources.  Spec 6: "the lock table's natural key is (arrayName, queryId,
    instanceId)"; [_lockArray] catches the [pqxx::unique_violation] the
    store raises for a second row with the same key. *)
Definition sameKey (r1 r2 : LockRow) : bool :=
  String.eqb (array_name r1) (array_name r2)
  && (query_id r1 =? query_id r2)
  && (instance_id r1 =? instance_id r2).

(** INSERT of the selected rows, one after the other; a key that is already
    there fails the statement as a whole. *)
Fixpoint insertRows (rows : list LockRow) (tbl : LockTable) : option LockTable :=
  match rows with
  | [] => Some tbl
  | r :: rest =>
      if existsb (sameKey r) tbl then None else insertRows rest (tbl ++ [r])
  end.

(** Result of executing a statement: the rows it returns, the number of
    rows it affected and the table afterwards, or the exception of the
    store. *)
Inductive PgResult :=
| PgOk (rows : list LockRow) (affected_rows : Z) (tbl : LockTable)
| PgThrow (e : PqxxException).

Inductive SqlValue := VStr (s : string) | VInt (z : Z).

(** The statements [getLockInsertSql] chooses between. *)
Inductive LockInsertSql :=
| COORD_RD_insert     (* ... where not exists (AVL.array_name=$1 and AVL.lock_mode>$9 and AVL.instance_role=$10) *)
| COORD_WR_insert     (* ... where not exists (AVL.array_name=$1 and AVL.query_id<>$3 and AVL.lock_mode>$9) *)
| WORKER_WR_insert    (* select AVL..., $3, ..., $4, AVL.lock_mode where AVL.array_name=$1 and AVL.query_id=$2
                         and AVL.instance_role=1 and (AVL.lock_mode=$5 or AVL.lock_mode=$6) *)
| COORD_XCL_insert    (* ... where not exists (AVL.array_name=$1 and AVL.query_id<>$3) *)
| WORKER_XCL_insert.  (* select AVL..., $3, ..., $4, AVL.lock_mode where AVL.array_name=$1 and AVL.query_id=$2
                         and AVL.instance_role=1 and AVL.lock_mode=$5 and not exists
                         (AVL2.array_name=$1 and AVL2.query_id=$2 and AVL2.instance_id=$3) *)

Definition insertResult (rows : list LockRow) (tbl : LockTable) : PgResult :=
  match insertRows rows tbl with
  | Some tbl' => PgOk [] (Z.of_nat (List.length rows)) tbl'
  | None => PgThrow unique_violation
  end.

(** The worker statements copy a coordinator row, stamped with the worker's
    instance id ($3) and role ($4). *)
Definition stamp (instanceId role : Z) (r : LockRow) : LockRow :=
  mkLockRow (array_name r) (array_id r) (query_id r) instanceId
            (array_version_id r) (array_version r) role (lock_mode r).

(** Execution of a lock insert statement with its positional parameters. *)
Definition execLockInsert (sql : LockInsertSql) (params : list SqlValue)
           (tbl : LockTable) : PgResult :=
  match sql, params with
  | COORD_RD_insert,
    [VStr p1; VInt p2; VInt p3; VInt p4; VInt p5; VInt p6; VInt p7; VInt p8; VInt p9; VInt p10] =>
      if existsb (fun AVL => String.eqb (array_name AVL) p1
                             && (lock_mode AVL >? p9)
                             && (instance_role AVL =? p10)) tbl
      then insertResult [] tbl
      else insertResult [mkLockRow p1 p2 p3 p4 p5 p6 p7 p8] tbl
  | COORD_WR_insert,
    [VStr p1; VInt p2; VInt p3; VInt p4; VInt p5; VInt p6; VInt p7; VInt p8; VInt p9] =>
      if existsb (fun AVL => String.eqb (array_name AVL) p1
                             && negb (query_id AVL =? p3)
                             && (lock_mode AVL >? p9)) tbl
      then insertResult [] tbl
      else insertResult [mkLockRow p1 p2 p3 p4 p5 p6 p7 p8] tbl
  | WORKER_WR_insert, [VStr p1; VInt p2; VInt p3; VInt p4; VInt p5; VInt p6] =>
      insertResult
        (map (stamp p3 p4)
             (filter (fun AVL => String.eqb (array_name AVL) p1
                                 && (query_id AVL =? p2)
                                 && (instance_role AVL =? 1)
                                 && ((lock_mode AVL =? p5) || (lock_mode AVL =? p6))) tbl))
        tbl
  | COORD_XCL_insert,
    [VStr p1; VInt p2; VInt p3; VInt p4; VInt p5; VInt p6; VInt p7; VInt p8] =>
      if existsb (fun AVL => String.eqb (array_name AVL) p1
                             && negb (query_id AVL =? p3)) tbl
      then insertResult [] tbl
      else insertResult [mkLockRow p1 p2 p3 p4 p5 p6 p7 p8] tbl
  | WORKER_XCL_insert, [VStr p1; VInt p2; VInt p3; VInt p4; VInt p5] =>
      insertResult
        (map (stamp p3 p4)
             (filter (fun AVL => String.eqb (array_name AVL) p1
                                 && (query_id AVL =? p2)
                                 && (instance_role AVL =? 1)
                                 && (lock_mode AVL =? p5)
                                 && negb (existsb (fun AVL2 =>
                                            String.eqb (array_name AVL2) p1
                                            && (query_id AVL2 =? p2)
                                            && (instance_id AVL2 =? p3)) tbl)) tbl))
        tbl
  | _, _ => PgThrow (sql_error "bind message supplies the wrong parameters")
  end.

(** "select array_id, array_version_id, array_version from array_version_lock
     where array_name=$1 and query_id=$2 and instance_id=$3" *)
Definition lockReadSql (p1 : string) (p2 p3 : Z) (tbl : LockTable) : list LockRow :=
  filter (fun r => String.eqb (array_name r) p1
                   && (query_id r =? p2)
                   && (instance_id r =? p3)) tbl.

(** What a transaction sends to the store. *)
Inductive PgEvent :=
| TxBegin (level : IsolationLevel)
| ExecLockTable
| ExecLockInsert (sql : LockInsertSql)
| ExecLockRead
| TxCommit
| TxAbort.

(** ** getLockInsertSql *)

Definition invalidLockRequested : Exception :=
  SystemException SCIDB_SE_INTERNAL SCIDB_LE_INVALID_FUNCTION_ARGUMENT.

Definition getLockInsertSql (lockDesc : LockDesc) : Outcome LockInsertSql :=
  match getInstanceRole lockDesc with
  | INVALID_ROLE => Throw (AssertException "Invalid lock role requested: ")
  | role =>
      match getLockMode lockDesc with
      | RD =>
          match role with
          | COORD => Return COORD_RD_insert
          | _ => Throw invalidLockRequested
          end
      | WR | CRT =>
          match role with
          | COORD => Return COORD_WR_insert
          | _ =>
              if LockMode_eqb (getLockMode lockDesc) CRT
              then Throw invalidLockRequested
              else Return WORKER_WR_insert
          end
      | RM | RNF | XCL =>
          match role with
          | COORD => Return COORD_XCL_insert
          | _ =>
              if LockMode_eqb (getLockMode lockDesc) XCL
              then Return WORKER_XCL_insert
              else Throw invalidLockRequested
          end
      | INVALID_MODE => Throw invalidLockRequested
      end
  end.

(** ** lockArray *)

(** [ErrorChecker] is a [boost::function<bool()>]: empty ([None]) or a
    callback with the value it answers. *)
Definition ErrorChecker := option bool.

(** Where the statements of the try block of [_lockArray] leave it: at the
    test of [affectedRows] (line 3497), in a pqxx exception of a statement
    for the catch clauses, in the [pqxx::failure] of a conversion of the row
    read back, with the descriptor as the setters before it left it, or in
    an exception the catch clauses do not name. *)
Inductive StatementsResult :=
| Executed (affectedRows : Z) (lockDesc : LockDesc) (tbl : LockTable) (events : list PgEvent)
| PqxxThrown (e : PqxxException) (events : list PgEvent)
| ConversionFailed (lockDesc : LockDesc) (events : list PgEvent)
| Thrown (e : Exception) (events : list PgEvent).

Definition exec (fault : Fault) (sql : LockInsertSql) (params : list SqlValue)
           (tbl : LockTable) : PgResult :=
  match fault with
  | Some f => PgThrow (raised f)
  | None => execLockInsert sql params tbl
  end.

(** The insert of a coordinator branch: [affectedRows = query_res.affected_rows()]. *)
Definition execInsert (fault : Fault) (sql : LockInsertSql) (params : list SqlValue)
           (lockDesc : LockDesc) (tbl : LockTable) : StatementsResult :=
  match exec fault sql params tbl with
  | PgThrow e => PqxxThrown e [ExecLockInsert sql]
  | PgOk _ affectedRows tbl' => Executed affectedRows lockDesc tbl' [ExecLockInsert sql]
  end.

(** [field.as(uint64_t())] of a bigint column: [ArrayID], [VersionID],
    [QueryID] and [InstanceID] are unsigned 64-bit integers, and the
    conversion of a negative value fails. *)
Definition as_uint64 (v : Z) : option Z := if v <? 0 then None else Some v.

(** The three statements on the row a worker reads back (lines 3345-3347
    and 3414-3416), in their order:
    [setArrayVersion(row.at("array_version").as(VersionID()))],
    [setArrayId(row.at("array_id").as(ArrayID()))] and
    [setArrayVersionId(row.at("array_version_id").as(ArrayID()))].  The
    descriptor is the caller's object: a conversion that fails leaves it
    with what the setters before it wrote. *)
Inductive Stamped :=
| Stamp (lockDesc : LockDesc)
| StampFailed (lockDesc : LockDesc).

Definition stampFromRow (r : LockRow) (lockDesc : LockDesc) : Stamped :=
  match as_uint64 (array_version r) with
  | None => StampFailed lockDesc
  | Some arrayVersion =>
      let lockDesc := setArrayVersion arrayVersion lockDesc in
      match as_uint64 (array_id r) with
      | None => StampFailed lockDesc
      | Some arrayId =>
          let lockDesc := setArrayId arrayId lockDesc in
          match as_uint64 (array_version_id r) with
          | None => StampFailed lockDesc
          | Some arrayVersionId => Stamp (setArrayVersionId arrayVersionId lockDesc)
          end
      end
  end.

(** The worker's statements after the row is read back: the setters, then
    on to the test of [affectedRows]. *)
Definition stampRead (affectedRows : Z) (r : LockRow) (lockDesc : LockDesc)
           (tbl : LockTable) (events : list PgEvent) : StatementsResult :=
  match stampFromRow r lockDesc with
  | Stamp lockDesc' => Executed affectedRows lockDesc' tbl events
  | StampFailed lockDesc' => ConversionFailed lockDesc' events
  end.

(** The branch on (mode, role) of [_lockArray], lines 3251-3496. *)
Definition lockArrayStatements (fault : Fault) (lockInsertSql : LockInsertSql)
           (lockDesc : LockDesc) (tbl : LockTable) : StatementsResult :=
  let name := getArrayName lockDesc in
  let queryId := getQueryId lockDesc in
  let instanceId := getInstanceId lockDesc in
  let coordParams :=
    [VStr name; VInt (getArrayId lockDesc); VInt queryId; VInt instanceId;
     VInt (getArrayVersionId lockDesc); VInt (getArrayVersion lockDesc);
     VInt (roleCode (getInstanceRole lockDesc));
     VInt (modeCode (getLockMode lockDesc))] in
  match getLockMode lockDesc, getInstanceRole lockDesc with
  | RD, COORD =>
      execInsert fault lockInsertSql
                 (coordParams ++ [VInt (modeCode CRT); VInt (roleCode COORD)])
                 lockDesc tbl
  | (WR | CRT), COORD =>
      execInsert fault lockInsertSql (coordParams ++ [VInt (modeCode RD)]) lockDesc tbl
  | (WR | CRT), WORKER =>
      match exec fault lockInsertSql
                 [VStr name; VInt queryId; VInt instanceId;
                  VInt (roleCode WORKER); VInt (modeCode WR); VInt (modeCode CRT)] tbl with
      | PgThrow e => PqxxThrown e [ExecLockInsert lockInsertSql]
      | PgOk _ affectedRows tbl' =>
          if affectedRows =? 1 then
            match lockReadSql name queryId instanceId tbl' with
            | r :: _ =>
                stampRead affectedRows r lockDesc tbl'
                        [ExecLockInsert lockInsertSql; ExecLockRead]
            | [] => (* the row just inserted is read back: not reached *)
                Executed affectedRows lockDesc tbl'
                         [ExecLockInsert lockInsertSql; ExecLockRead]
            end
          else Executed affectedRows lockDesc tbl' [ExecLockInsert lockInsertSql]
      end
  | XCL, COORD => execInsert fault lockInsertSql coordParams lockDesc tbl
  | XCL, WORKER =>
      match exec fault lockInsertSql
                 [VStr name; VInt queryId; VInt instanceId;
                  VInt (roleCode WORKER); VInt (modeCode XCL)] tbl with
      | PgThrow e => PqxxThrown e [ExecLockInsert lockInsertSql]
      | PgOk _ affectedRows tbl' =>
          if (affectedRows =? 1) || (affectedRows =? 0) then
            let query_res_read := lockReadSql name queryId instanceId tbl' in
            let affectedRows := Z.of_nat (List.length query_res_read) in
            match query_res_read with
            | [r] =>
                stampRead affectedRows r lockDesc tbl'
                        [ExecLockInsert lockInsertSql; ExecLockRead]
            | [] =>
                Executed affectedRows lockDesc tbl'
                         [ExecLockInsert lockInsertSql; ExecLockRead]
            | _ =>
                Thrown (AssertException "Array lock entry not unique on worker")
                       [ExecLockInsert lockInsertSql; ExecLockRead]
            end
          else Thrown (AssertException "Array lock entry not unique on worker")
                      [ExecLockInsert lockInsertSql]
      end
  | RM, _ => execInsert fault lockInsertSql coordParams lockDesc tbl
  | RNF, COORD => execInsert fault lockInsertSql coordParams lockDesc tbl
  | RNF, WORKER =>
      execInsert fault lockInsertSql
                 [VStr name; VInt queryId; VInt instanceId;
                  VInt (roleCode WORKER); VInt (roleCode COORD); VInt (modeCode RNF)]
                 lockDesc tbl
  | _, _ => (* assert(false) *) Executed 0 lockDesc tbl []
  end.

Record LockArrayResult := mkLockArrayResult {
  la_outcome : Outcome bool;
  la_lockDesc : LockDesc;
  la_table : LockTable;
  la_events : list PgEvent
}.

(** [SystemCatalog::_lockArray]: one attempt, in one [pqxx::work]
    transaction that first takes LOCK TABLE array_version_lock. *)
Definition _lockArray (fault : Fault) (lockDesc : LockDesc)
           (errorChecker : ErrorChecker) (tbl : LockTable) : LockArrayResult :=
  match getLockInsertSql lockDesc with
  | Throw e => mkLockArrayResult (Throw e) lockDesc tbl []
  | Return lockInsertSql =>
      let opened := [TxBegin read_committed; ExecLockTable] in
      match lockArrayStatements fault lockInsertSql lockDesc tbl with
      | Executed affectedRows lockDesc' tbl' events =>
          if affectedRows =? 1 then
            mkLockArrayResult (Return true) (setLocked true lockDesc') tbl'
                              (opened ++ events ++ [TxCommit])
          else if InstanceRole_eqb (getInstanceRole lockDesc') WORKER then
            (* workers must error out immediately *)
            mkLockArrayResult (Return false) lockDesc' tbl'
                              (opened ++ events ++ [TxCommit])
          else
            mkLockArrayResult
              (match errorChecker with
               | Some false => Return false
               | _ => Throw LockBusyException
               end)
              lockDesc' tbl' (opened ++ events ++ [TxCommit])
      | PqxxThrown unique_violation events =>
          mkLockArrayResult
            (if negb (isLocked lockDesc) then
               Throw (SystemException SCIDB_SE_SYSCAT SCIDB_LE_UNKNOWN_ERROR)
             else if InstanceRole_eqb (getInstanceRole lockDesc) COORD then
               (* the coordinator may acquire the same lock several times *)
               Return true
             else
               Throw (AssertException
                        "On a worker instance the array lock cannot be acquired more than once"))
            lockDesc tbl (opened ++ events ++ [TxAbort])
      | PqxxThrown e events =>
          mkLockArrayResult (Throw (catchReadCommitted e)) lockDesc tbl
                            (opened ++ events ++ [TxAbort])
      | ConversionFailed lockDesc' events =>
          mkLockArrayResult (Throw (catchReadCommitted failure)) lockDesc' tbl
                            (opened ++ events ++ [TxAbort])
      | Thrown e events =>
          mkLockArrayResult (Throw e) lockDesc tbl (opened ++ events ++ [TxAbort])
      end
  end.

(** The state [lockArray] shares with its caller across attempts: the
    caller's lock descriptor, the lock table and what was sent to the store. *)
Definition LockSession : Type := LockDesc * LockTable * list PgEvent.

Definition lockArrayWork (errorChecker : ErrorChecker) : Work LockSession bool :=
  attempt (fun fault '(lockDesc, tbl, log) =>
             let r := _lockArray fault lockDesc errorChecker tbl in
             (la_outcome r, (la_lockDesc r, la_table r, log ++ la_events r))).

(** [SystemCatalog::lockArray]:
    [Query::runRestartableWork<bool, broken_connection>(work, _reconnectTries)]. *)
Definition lockArray (_reconnectTries : nat) (errorChecker : ErrorChecker)
           (env : list Fault * LockSession) : Outcome bool * (list Fault * LockSession) :=
  runRestartableWork isBrokenConnection _reconnectTries (lockArrayWork errorChecker) env.

(** ** unlockArray, updateArrayLock, deleteArrayLocks *)

Definition keyOf (lockDesc : LockDesc) (r : LockRow) : bool :=
  String.eqb (array_name r) (getArrayName lockDesc)
  && (query_id r =? getQueryId lockDesc)
  && (instance_id r =? getInstanceId lockDesc).

(** [SystemCatalog::_unlockArray]: "delete from array_version_lock where
    array_name=$1 and query_id=$2 and instance_id=$3";
    [rc = (query_res.affected_rows() == 1)]. *)
Definition _unlockArray (fault : Fault) (lockDesc : LockDesc) (tbl : LockTable)
  : Outcome bool * LockTable :=
  match fault with
  | Some f => (Throw (catchReadCommitted (raised f)), tbl)
  | None =>
      let affected_rows := Z.of_nat (List.length (filter (keyOf lockDesc) tbl)) in
      (Return (affected_rows =? 1), filter (fun r => negb (keyOf lockDesc r)) tbl)
  end.

(** [SystemCatalog::_updateArrayLock]: "update array_version_lock set
    array_id=$4, array_version_id=$5, array_version=$6, lock_mode=$7 where
    array_name=$1 and query_id=$2 and instance_id=$3". *)
Definition updateRow (lockDesc : LockDesc) (r : LockRow) : LockRow :=
  if keyOf lockDesc r then
    mkLockRow (array_name r) (getArrayId lockDesc) (query_id r) (instance_id r)
              (getArrayVersionId lockDesc) (getArrayVersion lockDesc)
              (instance_role r) (modeCode (getLockMode lockDesc))
  else r.

Definition _updateArrayLock (fault : Fault) (lockDesc : LockDesc) (tbl : LockTable)
  : Outcome bool * LockTable :=
  match fault with
  | Some f => (Throw (catchReadCommitted (raised f)), tbl)
  | None =>
      let affected_rows := Z.of_nat (List.length (filter (keyOf lockDesc) tbl)) in
      (Return (affected_rows =? 1), map (updateRow lockDesc) tbl)
  end.

Definition tableWork (A : Type) (body : Fault -> LockTable -> Outcome A * LockTable)
  : Work LockTable A := attempt body.

Definition unlockArray (_reconnectTries : nat) (lockDesc : LockDesc) :=
  runRestartableWork isBrokenConnection _reconnectTries
                     (tableWork (fun fault => _unlockArray fault lockDesc)).

Definition updateArrayLock (_reconnectTries : nat) (lockDesc : LockDesc) :=
  runRestartableWork isBrokenConnection _reconnectTries
                     (tableWork (fun fault => _updateArrayLock fault lockDesc)).

Section DeleteArrayLocks.
(** [INVALID_QUERY_ID] is declared in a header that is not among the
    sources: the code below is read for any value of it. *)
Variable INVALID_QUERY_ID : Z.

(** The WHERE clause [_deleteArrayLocks] assembles: "instance_id=$1", then
    " and query_id=$n" and " and instance_role=$n" when specified. *)
Definition deleteFilter (instanceId queryId : Z) (role : InstanceRole)
           (r : LockRow) : bool :=
  let isQuerySpecified := negb (queryId =? INVALID_QUERY_ID) && negb (queryId =? 0) in
  let isRoleSpecified := negb (InstanceRole_eqb role INVALID_ROLE) in
  (instance_id r =? instanceId)
  && (if isQuerySpecified then query_id r =? queryId else true)
  && (if isRoleSpecified then instance_role r =? roleCode role else true).

(** [SystemCatalog::_deleteArrayLocks]; [size_t numLocksDeleted] is
    returned as [uint32_t]. *)
Definition _deleteArrayLocks (fault : Fault) (instanceId queryId : Z)
           (role : InstanceRole) (tbl : LockTable) : Outcome Z * LockTable :=
  match fault with
  | Some f => (Throw (catchReadCommitted (raised f)), tbl)
  | None =>
      let numLocksDeleted :=
        Z.of_nat (List.length (filter (deleteFilter instanceId queryId role) tbl)) in
      (Return (numLocksDeleted mod 2 ^ 32),
       filter (fun r => negb (deleteFilter instanceId queryId role r)) tbl)
  end.

Definition deleteArrayLocks (_reconnectTries : nat) (instanceId queryId : Z)
           (role : InstanceRole) :=
  runRestartableWork isBrokenConnection _reconnectTries
    (tableWork (fun fault => _deleteArrayLocks fault instanceId queryId role)).

Definition deleteCoordArrayLocks (_reconnectTries : nat) (instanceId : Z) :=
  deleteArrayLocks _reconnectTries instanceId INVALID_QUERY_ID COORD.

Definition deleteWorkerArrayLocks (_reconnectTries : nat) (instanceId : Z) :=
  deleteArrayLocks _reconnectTries instanceId INVALID_QUERY_ID WORKER.
End DeleteArrayLocks.

(** ** The lock table as a state machine *)

(** The calls that write array_version_lock, each with its retry budget,
    the faults the store has in stock for its attempts and its arguments. *)
Inductive LockOp :=
| OpLockArray (tries : nat) (faults : list Fault)
              (lockDesc : LockDesc) (errorChecker : ErrorChecker)
| OpUnlockArray (tries : nat) (faults : list Fault) (lockDesc : LockDesc)
| OpUpdateArrayLock (tries : nat) (faults : list Fault) (lockDesc : LockDesc)
| OpDeleteArrayLocks (tries : nat) (faults : list Fault)
                     (instanceId queryId : Z) (role : InstanceRole).

Definition sessionTable (r : Outcome bool * (list Fault * LockSession)) : LockTable :=
  snd (fst (snd (snd r))).

Section LockProtocol.
Variable INVALID_QUERY_ID : Z.

Definition applyOp (op : LockOp) (tbl : LockTable) : LockTable :=
  match op with
  | OpLockArray tries faults lockDesc errorChecker =>
      sessionTable (lockArray tries errorChecker (faults, (lockDesc, tbl, [])))
  | OpUnlockArray tries faults lockDesc =>
      snd (snd (unlockArray tries lockDesc (faults, tbl)))
  | OpUpdateArrayLock tries faults lockDesc =>
      snd (snd (updateArrayLock tries lockDesc (faults, tbl)))
  | OpDeleteArrayLocks tries faults instanceId queryId role =>
      snd (snd (deleteArrayLocks INVALID_QUERY_ID tries instanceId queryId role
                                 (faults, tbl)))
  end.

(** The table after a sequence of calls. *)
Definition run (ops : list LockOp) (tbl : LockTable) : LockTable :=
  fold_left (fun t op => applyOp op t) ops tbl.

(** An [updateArrayLock] call that leaves the strength of the lock alone:
    it writes a mode above RD only over a mode above RD. *)
Definition updateKeepsStrength (lockDesc : LockDesc) (tbl : LockTable) : bool :=
  forallb (fun r => implb (keyOf lockDesc r)
                          (implb (modeCode RD <? modeCode (getLockMode lockDesc))
                                 (modeCode RD <? lock_mode r))) tbl.

(** A sequence of calls all of whose [updateArrayLock] calls keep the
    strength of the lock they update. *)
Fixpoint disciplined (ops : list LockOp) (tbl : LockTable) : bool :=
  match ops with
  | [] => true
  | op :: rest =>
      match op with
      | OpUpdateArrayLock _ _ lockDesc => updateKeepsStrength lockDesc tbl
      | _ => true
      end && disciplined rest (applyOp op tbl)
  end.
End LockProtocol.

(** The modes the protocol keeps to one query per array. *)
Definition exclusiveModes : list Z := map modeCode [WR; CRT; XCL; RM; RNF].

(** No two rows of one array, of distinct queries, both hold a mode above
    RD. *)
Definition conflictFree (tbl : LockTable) : Prop :=
  forall r1 r2, In r1 tbl -> In r2 tbl ->
    array_name r1 = array_name r2 -> query_id r1 <> query_id r2 ->
    modeCode RD < lock_mode r1 -> modeCode RD < lock_mode r2 -> False.

(** The conditional insert of a request is granted on [tbl]: the store
    answers and the statements leave with one affected row. *)
Definition granted (lockDesc : LockDesc) (tbl tbl' : LockTable) : Prop :=
  exists sql lockDesc' events,
    getLockInsertSql lockDesc = Return sql
    /\ lockArrayStatements None sql lockDesc tbl = Executed 1 lockDesc' tbl' events.

(** The row a coordinator's insert selects: its parameters $1..$8. *)
Definition rowOf (lockDesc : LockDesc) : LockRow :=
  mkLockRow (getArrayName lockDesc) (getArrayId lockDesc) (getQueryId lockDesc)
            (getInstanceId lockDesc) (getArrayVersionId lockDesc)
            (getArrayVersion lockDesc) (roleCode (getInstanceRole lockDesc))
            (modeCode (getLockMode lockDesc)).

Definition statementsEvents (r : StatementsResult) : list PgEvent :=
  match r with
  | Executed _ _ _ events | PqxxThrown _ events | ConversionFailed _ events
  | Thrown _ events => events
  end.

(** The store answers the conditional insert of a request with a
    uniqueness violation. *)
Definition hitsUniqueViolation (lockDesc : LockDesc) (tbl : LockTable) : Prop :=
  exists sql events,
    getLockInsertSql lockDesc = Return sql
    /\ lockArrayStatements None sql lockDesc tbl = PqxxThrown unique_violation events.


(** The rows a worker reads back for its key. *)
Definition readBack (lockDesc : LockDesc) (tbl : LockTable) : list LockRow :=
  lockReadSql (getArrayName lockDesc) (getQueryId lockDesc) (getInstanceId lockDesc) tbl.

(** A row whose array id, version id and version the conversions to
    [ArrayID] and [VersionID] accept: a [LockDesc] holds them as unsigned
    integers, and so does every row written from one. *)
Definition unsignedIds (r : LockRow) : bool :=
  (0 <=? array_version r) && (0 <=? array_id r) && (0 <=? array_version_id r).

(** The descriptor with the array version, id and version id of a row. *)
Definition withRowIds (r : LockRow) (lockDesc : LockDesc) : LockDesc :=
  setArrayVersionId (array_version_id r)
    (setArrayId (array_id r) (setArrayVersion (array_version r) lockDesc)).

(** ** The catalog tables of arrays and versions *)

(** Rows of "array" (id, name, partitioning_schema, flags). *)
Module array.
Record row := mk {
  id : Z;
  name : string;
  partitioning_schema : Z;
  flags : Z
}.
End array.

(** Rows of "array_attribute". *)
Module array_attribute.
Record row := mk {
  array_id : Z;
  id : Z;
  name : string;
  type : string;
  flags : Z;
  default_compression_method : Z;
  reserve : Z;
  default_missing_reason : Z;
  default_value : string
}.
End array_attribute.

(** Rows of "array_dimension". *)
Module array_dimension.
Record row := mk {
  array_id : Z;
  id : Z;
  name : string;
  startMin : Z;
  currStart : Z;
  currEnd : Z;
  endMax : Z;
  chunk_interval : Z;
  chunk_overlap : Z
}.
End array_dimension.

(** Rows of "array_version" (array_id, version_array_id, version_id,
    time_stamp). *)
Module array_version.
Record row := mk {
  array_id : Z;
  version_array_id : Z;
  version_id : Z;
  time_stamp : Z
}.
End array_version.

Record Catalog := mkCatalog {
  tbl_array : list array.row;
  tbl_array_attribute : list array_attribute.row;
  tbl_array_dimension : list array_dimension.row;
  tbl_array_version : list array_version.row
}.

(** [SystemCatalog::MAX_VERSIONID = VersionID(std::numeric_limits<int64_t>::max())] *)
Definition MAX_VERSIONID : Z := 2 ^ 63 - 1.

(** ** Descriptors *)

Module AttributeDesc.
Record t := mk {
  getName : string;
  getType : string;
  getFlags : Z;
  getDefaultCompressionMethod : Z;
  getReserve : Z;
  getDefaultMissingReason : Z;   (* getDefaultValue().getMissingReason() *)
  getDefaultValueExpr : string
}.
End AttributeDesc.

Module DimensionDesc.
Record t := mk {
  getBaseName : string;
  getStartMin : Z;
  getCurrStart : Z;
  getCurrEnd : Z;
  getEndMax : Z;
  getChunkInterval : Z;
  getChunkOverlap : Z
}.
End DimensionDesc.

Module ArrayDesc.
Record t := mk {
  getId : Z;
  getUAId : Z;
  getVersionId : Z;
  getName : string;
  getPartitioningSchema : Z;
  getFlags : Z;
  getAttributes : list AttributeDesc.t;
  getDimensions : list DimensionDesc.t
}.
End ArrayDesc.

Module NamespaceDesc.
Record t := mk {
  getId : Z;
  getName : string
}.
End NamespaceDesc.

(** ** Transactions on the catalog *)

(** What leaves the body of a transaction early: a pqxx exception, for the
    catch clauses of the caller, or an exception of the catalog itself. *)
Inductive Raised :=
| RaisedPqxx (e : PqxxException)
| RaisedScidb (e : Exception).

(** The body of a transaction: it runs against the store of the attempt
    (with its fault) and the tables, and either leaves a value and the
    tables it wrote, or raises. *)
Definition Tx (A : Type) : Type := Fault -> Catalog -> (A * Catalog) + Raised.

Definition tx_ret (A : Type) (a : A) : Tx A := fun _ cat => inl (a, cat).

Definition tx_bind (A B : Type) (m : Tx A) (k : A -> Tx B) : Tx B :=
  fun fault cat =>
    match m fault cat with
    | inl (a, cat') => k a fault cat'
    | inr e => inr e
    end.

Definition tx_throw (A : Type) (e : Exception) : Tx A := fun _ _ => inr (RaisedScidb e).

Notation "x <- m ;; k" := (tx_bind m (fun x => k))
  (at level 61, m at next level, right associativity).
Notation "m ;;; k" := (tx_bind m (fun _ => k))
  (at level 61, right associativity).

(** ASSERT_EXCEPTION(cond, msg) *)
Definition ASSERT_EXCEPTION (cond : bool) (msg : string) : Tx unit :=
  if cond then tx_ret tt else tx_throw unit (AssertException msg).

(** [tr->prepared(sql)(...).exec()]: the statement reads and writes the
    tables, unless the store fails it. *)
Definition execSql (A : Type) (statement : Catalog -> A * Catalog) : Tx A :=
  fun fault cat =>
    match fault with
    | Some f => inr (RaisedPqxx (raised f))
    | None => inl (statement cat)
    end.

(** A statement the unique constraint of its table may refuse
    ([statement] answers [None]): the store raises
    [pqxx::unique_violation]. *)
Definition execUnique (statement : Catalog -> option Catalog) : Tx unit :=
  fun fault cat =>
    match fault with
    | Some f => inr (RaisedPqxx (raised f))
    | None =>
        match statement cat with
        | Some cat' => inl (tt, cat')
        | None => inr (RaisedPqxx unique_violation)
        end
    end.

(** A conversion [field.as(T())] of libpqxx that fails raises a
    [pqxx::failure]. *)
Definition tx_convert (A : Type) (v : option A) : Tx A :=
  fun _ cat =>
    match v with
    | Some a => inl (a, cat)
    | None => inr (RaisedPqxx failure)
    end.

Fixpoint forEach (A : Type) (body : A -> Tx unit) (l : list A) : Tx unit :=
  match l with
  | [] => tx_ret tt
  | x :: rest => body x ;;; forEach body rest
  end.

(** A transaction object around a body: [tr.commit()] after the body, the
    catch clauses on a pqxx exception; a transaction that is left by an
    exception is rolled back. *)
Definition transaction (A : Type) (catchClauses : PqxxException -> Exception)
           (body : Tx A) (fault : Fault) (cat : Catalog) : Outcome A * Catalog :=
  match body fault cat with
  | inl (a, cat') => (Return a, cat')
  | inr (RaisedPqxx e) => (Throw (catchClauses e), cat)
  | inr (RaisedScidb e) => (Throw e, cat)
  end.

(** The elements of a vector with their index ([for (int i = 0; ...)]). *)
Definition indexed (A : Type) (l : list A) : list (Z * A) :=
  combine (map Z.of_nat (seq 0 (List.length l))) l.

(** SQL max(): NULL on no rows. *)
Definition sqlMax (l : list Z) : option Z :=
  match l with
  | [] => None
  | x :: rest => Some (fold_left Z.max rest x)
  end.

Definition COALESCE (v : option Z) (d : Z) : Z :=
  match v with Some x => x | None => d end.

(** ** Version catalog *)

(** [SystemCatalog::_createNewVersion(array_id, version_array_id, tr)];
    [timestamp] is what [time(NULL)] answers. *)
Definition _createNewVersion (timestamp : Z) (array_id version_array_id : Z) : Tx Z :=
  vid <- execSql (fun cat =>
           (COALESCE (sqlMax (map array_version.version_id
                                  (filter (fun r => array_version.array_id r =? array_id)
                                          (tbl_array_version cat)))) 0,
            cat)) ;;
  version_id <- tx_convert (as_uint64 vid) ;;
  let version_id := (version_id + 1) mod 2 ^ 64 in
  execSql (fun cat =>
     (tt, mkCatalog (tbl_array cat) (tbl_array_attribute cat) (tbl_array_dimension cat)
                    (tbl_array_version cat
                     ++ [array_version.mk array_id version_array_id version_id timestamp]))) ;;;
  tx_ret version_id.

(** [SystemCatalog::_getLastVersion(array_id, catalogVersion)]: one
    read-committed transaction around "select COALESCE(max(version_id),0) as
    vid from array_version where array_id=$1 and version_array_id<=$2". *)
Definition _getLastVersion (fault : Fault) (array_id catalogVersion : Z)
           (cat : Catalog) : Outcome Z * Catalog :=
  transaction catchReadCommitted
    (vid <- execSql (fun cat =>
              (COALESCE (sqlMax (map array_version.version_id
                                     (filter (fun r =>
                                                (array_version.array_id r =? array_id)
                                                && (array_version.version_array_id r
                                                    <=? catalogVersion))
                                             (tbl_array_version cat)))) 0,
               cat)) ;;
     tx_convert (as_uint64 vid))
    fault cat.

Definition getLastVersion (_reconnectTries : nat) (array_id catalogVersion : Z)
  : Work Catalog Z :=
  runRestartableWork isBrokenConnection _reconnectTries
    (attempt (fun fault => _getLastVersion fault array_id catalogVersion)).

Section AddArray.
(** Declared in headers that are not among the sources; the code below is
    read for any value of them: the [psUndefined] partitioning schema,
    [ArrayDesc::isNameUnversioned], [ArrayDesc::getVersionFromName] and
    the answer of the namespace plugin to [findNamespaceTr]. *)
Variable psUndefined : Z.
Variable isNameUnversioned : string -> bool.
Variable getVersionFromName : string -> Z.
Variable findNamespaceTr : NamespaceDesc.t -> bool.

(** Modelled from the spec: the unique constraint of the "array" table on
    the array name; the table is created by the catalog's schema script,
    which is not among the sources.  Spec 7: a uniqueness violation is
    "normally fatal (e.g., duplicate namespace/user/array name)";
    [_renameArray] catches the [pqxx::unique_violation] the store raises
    for a name that is taken (lines 3934-3938). *)
Definition nameTaken (name : string) (cat : Catalog) : bool :=
  existsb (fun r => String.eqb (array.name r) name) (tbl_array cat).

(** "insert into "array"(id, name, partitioning_schema, flags) values ($1,
    $2, $3, $4)": refused when the name is taken. *)
Definition insertArray (r : array.row) (cat : Catalog) : option Catalog :=
  if nameTaken (array.name r) cat then None
  else Some (mkCatalog (tbl_array cat ++ [r]) (tbl_array_attribute cat)
                       (tbl_array_dimension cat) (tbl_array_version cat)).

Definition insertAttribute (r : array_attribute.row) (cat : Catalog) : unit * Catalog :=
  (tt, mkCatalog (tbl_array cat) (tbl_array_attribute cat ++ [r])
                 (tbl_array_dimension cat) (tbl_array_version cat)).

Definition insertDimension (r : array_dimension.row) (cat : Catalog) : unit * Catalog :=
  (tt, mkCatalog (tbl_array cat) (tbl_array_attribute cat)
                 (tbl_array_dimension cat ++ [r]) (tbl_array_version cat)).

(** [SystemCatalog::_addArray(namespaceDesc, array_desc, tr)] *)
Definition _addArray (namespaceDesc : NamespaceDesc.t) (array_desc : ArrayDesc.t)
  : Tx unit :=
  let arrId := ArrayDesc.getId array_desc in
  let arrayName := ArrayDesc.getName array_desc in
  let uaid := ArrayDesc.getUAId array_desc in
  let vid := ArrayDesc.getVersionId array_desc in
  let attributes := ArrayDesc.getAttributes array_desc in
  let dims := ArrayDesc.getDimensions array_desc in
  ASSERT_EXCEPTION (negb (ArrayDesc.getPartitioningSchema array_desc =? psUndefined))
                   "Invalid array descriptor: " ;;;
  ASSERT_EXCEPTION (0 <? arrId) "Invalid array descriptor: " ;;;
  ASSERT_EXCEPTION ((isNameUnversioned arrayName && (uaid =? arrId))
                    || ((vid =? getVersionFromName arrayName)
                        && (0 <? uaid) && (uaid <? arrId)))
                   "Invalid array version descriptor: " ;;;
  (* attribute names and dimension names do not collide *)
  (if existsb (fun a =>
         existsb (fun d => String.eqb (AttributeDesc.getName a)
                                      (DimensionDesc.getBaseName d)) dims) attributes
   then tx_throw unit (UserException SCIDB_SE_INFER_SCHEMA
                                     SCIDB_LE_DUPLICATE_ATTRIBUTE_NAME)
   else tx_ret tt) ;;;
  execUnique (insertArray
                (array.mk arrId arrayName (ArrayDesc.getPartitioningSchema array_desc)
                          (ArrayDesc.getFlags array_desc))) ;;;
  forEach (fun '(i, attr) =>
             execSql (insertAttribute
                        (array_attribute.mk arrId i
                           (AttributeDesc.getName attr) (AttributeDesc.getType attr)
                           (AttributeDesc.getFlags attr)
                           (AttributeDesc.getDefaultCompressionMethod attr)
                           (AttributeDesc.getReserve attr)
                           (AttributeDesc.getDefaultMissingReason attr)
                           (AttributeDesc.getDefaultValueExpr attr))))
          (indexed attributes) ;;;
  forEach (fun '(i, dim) =>
             execSql (insertDimension
                        (array_dimension.mk arrId i
                           (DimensionDesc.getBaseName dim) (DimensionDesc.getStartMin dim)
                           (DimensionDesc.getCurrStart dim) (DimensionDesc.getCurrEnd dim)
                           (DimensionDesc.getEndMax dim)
                           (DimensionDesc.getChunkInterval dim)
                           (DimensionDesc.getChunkOverlap dim))))
          (indexed dims) ;;;
  (* the current namespace id *)
  (if NamespaceDesc.getId namespaceDesc =? -1 then
     found <- execSql (fun cat => (findNamespaceTr namespaceDesc, cat)) ;;
     if found then tx_ret tt
     else if String.eqb (NamespaceDesc.getName namespaceDesc) "public" then tx_ret tt
     else tx_throw unit (SystemException SCIDB_SE_SYSCAT SCIDB_LE_PLUGIN_FUNCTION_ACCESS)
   else tx_ret tt) ;;;
  (* addArrayToNamespaceTr writes the tables of the namespace plugin; its
     answer is ignored *)
  tx_ret tt.

(** [SystemCatalog::_addArrayVersion]: one
    [pqxx::transaction<pqxx::serializable>] around the descriptor rows and
    the version row. *)
Definition _addArrayVersion (timestamp : Z) (namespaceDesc : NamespaceDesc.t)
           (unversionedDesc : option ArrayDesc.t) (versionedDesc : ArrayDesc.t)
           (fault : Fault) (cat : Catalog) : Outcome unit * Catalog :=
  transaction catchSerializable
    (match unversionedDesc with
     | Some desc => _addArray namespaceDesc desc
     | None => tx_ret tt
     end ;;;
     _addArray namespaceDesc versionedDesc ;;;
     _createNewVersion timestamp (ArrayDesc.getUAId versionedDesc)
                       (ArrayDesc.getId versionedDesc) ;;;
     tx_ret tt)
    fault cat.

(** [SystemCatalog::addArrayVersion]: the serialization-conflict policy
    inside the connection-loss policy. *)
Definition addArrayVersion (_reconnectTries _serializedTxnTries : nat)
           (timestamp : Z) (namespaceDesc : NamespaceDesc.t)
           (unversionedDesc : option ArrayDesc.t) (versionedDesc : ArrayDesc.t)
  : Work Catalog unit :=
  runRestartableWork isBrokenConnection _reconnectTries
    (runRestartableWork isTxnIsolationConflict _serializedTxnTries
       (attempt (_addArrayVersion timestamp namespaceDesc unversionedDesc
                                  versionedDesc))).
End AddArray.

(** ** Boundaries *)

Definition Coordinates := list Z.

Module PhysicalBoundaries.
Record t := mk {
  getStartCoords : Coordinates;
  getEndCoords : Coordinates
}.
End PhysicalBoundaries.

Section UpdateArrayBoundaries.
(** [PhysicalBoundaries::trimToDims] is defined in a file that is not
    among the sources; the code below is read for any such function. *)
Variable trimToDims : PhysicalBoundaries.t -> list DimensionDesc.t -> PhysicalBoundaries.t.

(** "update array_dimension set currStart=$1 where array_id=$2 and id=$3
     and currStart>$1" *)
Definition updateLowBoundary (p1 p2 p3 : Z) (r : array_dimension.row)
  : array_dimension.row :=
  if (array_dimension.array_id r =? p2) && (array_dimension.id r =? p3)
     && (array_dimension.currStart r >? p1)
  then array_dimension.mk (array_dimension.array_id r) (array_dimension.id r)
                          (array_dimension.name r) (array_dimension.startMin r)
                          p1 (array_dimension.currEnd r)
                          (array_dimension.endMax r) (array_dimension.chunk_interval r)
                          (array_dimension.chunk_overlap r)
  else r.

(** "update array_dimension set currEnd=$1 where array_id=$2 and id=$3 and
     currEnd<$1" *)
Definition updateHighBoundary (p1 p2 p3 : Z) (r : array_dimension.row)
  : array_dimension.row :=
  if (array_dimension.array_id r =? p2) && (array_dimension.id r =? p3)
     && (array_dimension.currEnd r <? p1)
  then array_dimension.mk (array_dimension.array_id r) (array_dimension.id r)
                          (array_dimension.name r) (array_dimension.startMin r)
                          (array_dimension.currStart r) p1
                          (array_dimension.endMax r) (array_dimension.chunk_interval r)
                          (array_dimension.chunk_overlap r)
  else r.

Definition updateDimensions (f : array_dimension.row -> array_dimension.row)
           (cat : Catalog) : unit * Catalog :=
  (tt, mkCatalog (tbl_array cat) (tbl_array_attribute cat)
                 (map f (tbl_array_dimension cat)) (tbl_array_version cat)).

(** [SystemCatalog::_updateArrayBoundaries(desc, bounds)]: one
    read-committed transaction; [high[i]] is read for every index of
    [low] (both vectors have one entry per dimension). *)
Definition _updateArrayBoundaries (desc : ArrayDesc.t) (bounds : PhysicalBoundaries.t)
           (fault : Fault) (cat : Catalog) : Outcome unit * Catalog :=
  let trimmed := trimToDims bounds (ArrayDesc.getDimensions desc) in
  let low := PhysicalBoundaries.getStartCoords trimmed in
  let high := PhysicalBoundaries.getEndCoords trimmed in
  let array_id := ArrayDesc.getId desc in
  transaction catchReadCommitted
    (forEach (fun '(i, low_i) =>
                execSql (updateDimensions (updateLowBoundary low_i array_id i)) ;;;
                execSql (updateDimensions
                           (updateHighBoundary (nth (Z.to_nat i) high 0) array_id i)))
             (indexed low))
    fault cat.

Definition updateArrayBoundaries (_reconnectTries : nat) (desc : ArrayDesc.t)
           (bounds : PhysicalBoundaries.t) : Work Catalog unit :=
  runRestartableWork isBrokenConnection _reconnectTries
    (attempt (_updateArrayBoundaries desc bounds)).
End UpdateArrayBoundaries.

(** ** Vocabulary of the statements about versions *)

(** A version row is visible for a base array as of a catalog horizon. *)
Definition visibleb (array_id catalogVersion : Z) (r : array_version.row) : bool :=
  (array_version.array_id r =? array_id)
  && (array_version.version_array_id r <=? catalogVersion).

(** The version rows of a base array. *)
Definition versionsOf (array_id : Z) (cat : Catalog) : list array_version.row :=
  filter (fun r => array_version.array_id r =? array_id) (tbl_array_version cat).

(** The greatest version id of a base array, 0 when it has no version. *)
Definition lastVersionOf (array_id : Z) (cat : Catalog) : Z :=
  COALESCE (sqlMax (map array_version.version_id (versionsOf array_id cat))) 0.

(** The version ids of a base array are what [_createNewVersion] can have
    issued so far, short of the last one. *)
Definition versionsInRange (array_id : Z) (cat : Catalog) : Prop :=
  forall r, In r (versionsOf array_id cat) ->
            0 <= array_version.version_id r < MAX_VERSIONID.

Definition withVersion (r : array_version.row) (cat : Catalog) : Catalog :=
  mkCatalog (tbl_array cat) (tbl_array_attribute cat) (tbl_array_dimension cat)
            (tbl_array_version cat ++ [r]).

(** The rows [_addArray] writes for a descriptor. *)
Definition arrayRowOf (desc : ArrayDesc.t) : array.row :=
  array.mk (ArrayDesc.getId desc) (ArrayDesc.getName desc)
           (ArrayDesc.getPartitioningSchema desc) (ArrayDesc.getFlags desc).

Definition attributeRow (arrId : Z) (p : Z * AttributeDesc.t) : array_attribute.row :=
  array_attribute.mk arrId (fst p)
    (AttributeDesc.getName (snd p)) (AttributeDesc.getType (snd p))
    (AttributeDesc.getFlags (snd p)) (AttributeDesc.getDefaultCompressionMethod (snd p))
    (AttributeDesc.getReserve (snd p)) (AttributeDesc.getDefaultMissingReason (snd p))
    (AttributeDesc.getDefaultValueExpr (snd p)).

Definition dimensionRow (arrId : Z) (p : Z * DimensionDesc.t) : array_dimension.row :=
  array_dimension.mk arrId (fst p)
    (DimensionDesc.getBaseName (snd p)) (DimensionDesc.getStartMin (snd p))
    (DimensionDesc.getCurrStart (snd p)) (DimensionDesc.getCurrEnd (snd p))
    (DimensionDesc.getEndMax (snd p)) (DimensionDesc.getChunkInterval (snd p))
    (DimensionDesc.getChunkOverlap (snd p)).

Definition withArray (desc : ArrayDesc.t) (cat : Catalog) : Catalog :=
  mkCatalog
    (tbl_array cat ++ [arrayRowOf desc])
    (tbl_array_attribute cat
     ++ map (attributeRow (ArrayDesc.getId desc)) (indexed (ArrayDesc.getAttributes desc)))
    (tbl_array_dimension cat
     ++ map (dimensionRow (ArrayDesc.getId desc)) (indexed (ArrayDesc.getDimensions desc)))
    (tbl_array_version cat).

(** Versions created one after the other for one base array, each with the
    id of its new array row: the version ids issued and the catalog after. *)
Fixpoint createVersions (timestamp array_id : Z) (version_array_ids : list Z)
         (cat : Catalog) : option (list Z * Catalog) :=
  match version_array_ids with
  | [] => Some ([], cat)
  | va :: rest =>
      match _createNewVersion timestamp array_id va None cat with
      | inl (version_id, cat') =>
          match createVersions timestamp array_id rest cat' with
          | Some (ids, cat'') => Some (version_id :: ids, cat'')
          | None => None
          end
      | inr _ => None
      end
  end.

(** [SystemCatalog::ANY_VERSION = ArrayID(std::numeric_limits<int64_t>::max())] *)
Definition ANY_VERSION : Z := 2 ^ 63 - 1.

(** ** Vocabulary of the statements about boundaries *)

(** What the loop of [_updateArrayBoundaries] does to one row: the two
    updates of every index, in turn. *)
Definition boundaryLoop (array_id : Z) (high : Coordinates) (low : list (Z * Z))
           (r : array_dimension.row) : array_dimension.row :=
  fold_left (fun r '(i, low_i) =>
               updateHighBoundary (nth (Z.to_nat i) high 0) array_id i
                                  (updateLowBoundary low_i array_id i r))
            low r.

(** Two rows that differ at most in their current bounds. *)
Definition sameDimension (r r' : array_dimension.row) : Prop :=
  array_dimension.array_id r' = array_dimension.array_id r
  /\ array_dimension.id r' = array_dimension.id r
  /\ array_dimension.name r' = array_dimension.name r
  /\ array_dimension.startMin r' = array_dimension.startMin r
  /\ array_dimension.endMax r' = array_dimension.endMax r
  /\ array_dimension.chunk_interval r' = array_dimension.chunk_interval r
  /\ array_dimension.chunk_overlap r' = array_dimension.chunk_overlap r.

(** ** Scenarios *)

Module Scenario.
Definition A : string := "A".

(** An example value for the constant of the absent header. *)
Definition INVALID_QUERY_ID : Z := 18446744073709551615.

Definition coord (queryId instanceId : Z) (mode : LockMode) : LockDesc :=
  newLockDesc A queryId instanceId COORD mode.

Definition worker (queryId instanceId : Z) (mode : LockMode) : LockDesc :=
  newLockDesc A queryId instanceId WORKER mode.

(** Query 1 creates A, query 2 asks to write it and is busy until query 1
    has released; then a worker of query 2 mirrors the lock and is cleaned
    up. *)
Definition createThenWrite : list LockOp :=
  [ OpLockArray 1 [] (coord 1 0 CRT) None;
    OpLockArray 1 [] (coord 2 1 WR) (Some false);
    OpUpdateArrayLock 1 [] (setArrayId 10 (coord 1 0 CRT));
    OpUnlockArray 1 [] (coord 1 0 CRT);
    OpLockArray 2 [Some connection_lost] (coord 2 1 WR) None;
    OpLockArray 1 [] (worker 2 2 WR) None;
    OpDeleteArrayLocks 1 [] 2 0 WORKER ].

(** Two readers of A whose locks are then rewritten to WR in place. *)
Definition readersTurnedWriters : list LockOp :=
  [ OpLockArray 1 [] (coord 1 0 RD) None;
    OpLockArray 1 [] (coord 2 1 RD) None;
    OpUpdateArrayLock 1 [] (coord 1 0 WR);
    OpUpdateArrayLock 1 [] (coord 2 1 WR) ].
End Scenario.

Module Reacquire.
Import Scenario.

(** The coordinator of query 1 holds WR on A and a worker (instance 2)
    has copied the lock. *)
Definition held : LockTable :=
  [ mkLockRow A 10 1 0 11 1 (roleCode COORD) (modeCode WR);
    mkLockRow A 10 1 2 11 1 (roleCode WORKER) (modeCode WR) ].

Definition coordAgain : LockDesc := setLocked true (coord 1 0 WR).
Definition workerAgain : LockDesc := setLocked true (worker 1 2 WR).
Definition workerFresh : LockDesc := worker 1 2 WR.
End Reacquire.

Module Readers.
Import Scenario.

(** The coordinator of query 1 holds CRT on A. *)
Definition creating : LockTable :=
  [ mkLockRow A 0 1 0 0 0 (roleCode COORD) (modeCode CRT) ].

(** The coordinator of query 2 (instance 1) already holds RD on A. *)
Definition reading : LockTable :=
  [ mkLockRow A 0 2 1 0 0 (roleCode COORD) (modeCode RD) ].

(** The coordinator of query 1 holds RNF on A. *)
Definition renaming : LockTable :=
  [ mkLockRow A 10 1 0 11 1 (roleCode COORD) (modeCode RNF) ].
End Readers.

Module Exclusive.
Import Scenario.

(** The coordinator of query 1 holds XCL on the temporary array A, with
    the array ids it was updated to. *)
Definition coordHolds : LockTable :=
  [ mkLockRow A 10 1 0 11 1 (roleCode COORD) (modeCode XCL) ].

(** ... and the worker on instance 2 has already copied it (store and scan
    of the same array in one query). *)
Definition workerHolds : LockTable :=
  coordHolds ++ [ mkLockRow A 10 1 2 11 1 (roleCode WORKER) (modeCode XCL) ].
End Exclusive.

Module Cleanup.
Import Scenario.

(** Instance 2 coordinates query 7 and works for queries 1 and 8; instance
    0 coordinates query 1. *)
Definition locks : LockTable :=
  [ mkLockRow A 10 1 0 11 1 (roleCode COORD) (modeCode WR);
    mkLockRow A 10 1 2 11 1 (roleCode WORKER) (modeCode WR);
    mkLockRow "B" 20 7 2 0 0 (roleCode COORD) (modeCode RD);
    mkLockRow "C" 30 8 2 0 0 (roleCode WORKER) (modeCode XCL) ].
End Cleanup.

Module Versions.
(** Base array 100 has three versions, whose array rows are 101, 105 and
    110; base array 200 has one, whose array row is 201. *)
Definition catalog : Catalog :=
  mkCatalog [] [] []
    [ array_version.mk 100 101 1 1000;
      array_version.mk 100 105 2 1010;
      array_version.mk 200 201 1 1020;
      array_version.mk 100 110 3 1030 ].
End Versions.

Module NewVersion.
(** Stand-ins, for the examples, of what the absent headers define: a name
    is unversioned when it has no '@', the version of a name is the
    number after it (here: one digit), no partitioning schema is numbered
    0, and there is no namespace plugin to find a namespace. *)
Definition psUndefined : Z := 0.

Fixpoint afterAt (s : string) : option string :=
  match s with
  | EmptyString => None
  | String c rest => if Ascii.eqb c "@"%char then Some rest else afterAt rest
  end.

Definition isNameUnversioned (name : string) : bool :=
  match afterAt name with None => true | Some _ => false end.

Definition getVersionFromName (name : string) : Z :=
  match afterAt name with
  | Some (String c _) => Z.of_nat (Ascii.nat_of_ascii c) - 48
  | _ => 0
  end.

Definition findNamespaceTr (ns : NamespaceDesc.t) : bool := false.

Definition public : NamespaceDesc.t := NamespaceDesc.mk (-1) "public".
Definition private : NamespaceDesc.t := NamespaceDesc.mk (-1) "private".

Definition val : AttributeDesc.t := AttributeDesc.mk "val" "double" 0 0 0 0 "".
Definition i : DimensionDesc.t := DimensionDesc.mk "i" 0 0 9 99 10 0.

(** The base array A (id 100) and its first version A@1 (id 101). *)
Definition A : ArrayDesc.t := ArrayDesc.mk 100 100 0 "A" 1 0 [val] [i].
Definition A_1 : ArrayDesc.t := ArrayDesc.mk 101 100 1 "A@1" 1 0 [val] [i].

Definition empty : Catalog := mkCatalog [] [] [] [].

Definition _addArrayVersion :=
  _addArrayVersion psUndefined isNameUnversioned getVersionFromName findNamespaceTr.

Definition addArrayVersion :=
  addArrayVersion psUndefined isNameUnversioned getVersionFromName findNamespaceTr.

Definition conflict : Fault :=
  Some (statement_failed "ERROR:  could not serialize access due to concurrent update").
End NewVersion.

Module Bounds.
(** A stand-in, for the examples, of the absent [trimToDims]: the bounds
    clipped to [startMin, endMax] of each dimension. *)
Fixpoint clip (f : Z -> Z -> Z) (get : DimensionDesc.t -> Z)
         (coords : Coordinates) (dims : list DimensionDesc.t) : Coordinates :=
  match coords, dims with
  | c :: coords', d :: dims' => f (get d) c :: clip f get coords' dims'
  | _, _ => []
  end.

Definition trimToDims (bounds : PhysicalBoundaries.t) (dims : list DimensionDesc.t)
  : PhysicalBoundaries.t :=
  PhysicalBoundaries.mk
    (clip Z.max DimensionDesc.getStartMin (PhysicalBoundaries.getStartCoords bounds) dims)
    (clip Z.min DimensionDesc.getEndMax (PhysicalBoundaries.getEndCoords bounds) dims).

Definition x : DimensionDesc.t := DimensionDesc.mk "x" 0 5 9 99 10 0.
Definition y : DimensionDesc.t := DimensionDesc.mk "y" 0 0 20 99 10 0.

(** Array 101 with two dimensions, whose stored bounds are x in [5, 9]
    and y in [0, 20]; array 102 has a row of its own. *)
Definition M : ArrayDesc.t := ArrayDesc.mk 101 100 1 "M@1" 1 0 [] [x; y].

Definition catalog : Catalog :=
  mkCatalog [] []
    [ array_dimension.mk 101 0 "x" 0 5 9 99 10 0;
      array_dimension.mk 101 1 "y" 0 0 20 99 10 0;
      array_dimension.mk 102 0 "x" 0 5 9 99 10 0 ]
    [].

(** New chunks cover x in [3, 7] and y in [2, 30]. *)
Definition bounds : PhysicalBoundaries.t := PhysicalBoundaries.mk [3; 2] [7; 30].
End Bounds.

(** * Further catalog calls *)

(** ** readArrayLocks, checkForCoordinatorLock *)

(** [static_cast<LockDesc::InstanceRole>(int)] of a stored instance_role.
    A code that names no enumerator has no counterpart in [InstanceRole]; it
    is read as [INVALID_ROLE], and the properties of the readers are stated
    for tables whose codes name enumerators. *)
Definition static_cast_InstanceRole (code : Z) : InstanceRole :=
  if code =? roleCode COORD then COORD
  else if code =? roleCode WORKER then WORKER
  else INVALID_ROLE.

(** [static_cast<LockDesc::LockMode>(int)] of a stored lock_mode, with the
    same convention. *)
Definition static_cast_LockMode (code : Z) : LockMode :=
  if code =? modeCode RD then RD
  else if code =? modeCode WR then WR
  else if code =? modeCode CRT then CRT
  else if code =? modeCode XCL then XCL
  else if code =? modeCode RM then RM
  else if code =? modeCode RNF then RNF
  else INVALID_MODE.

(** The [LockDesc] the loop of [_readArrayLocks] builds from a row of its
    result: the constructor, then [setArrayVersion], [setArrayId] and
    [setArrayVersionId]; [None] when one of the [as(uint64_t())]
    conversions fails. *)
Definition readLock (instanceId : Z) (row : LockRow) : option LockDesc :=
  match as_uint64 (query_id row), as_uint64 (array_version row),
        as_uint64 (array_id row), as_uint64 (array_version_id row) with
  | Some queryId, Some arrayVersion, Some arrayId, Some arrayVersionId =>
      Some (setArrayVersionId arrayVersionId
              (setArrayId arrayId
                 (setArrayVersion arrayVersion
                    (newLockDesc (array_name row) queryId instanceId
                                 (static_cast_InstanceRole (instance_role row))
                                 (static_cast_LockMode (lock_mode row))))))
  | _, _, _, _ => None
  end.

(** [for (size_t i=0; i < size; ++i)]: each lock is pushed to the back of
    the caller's [coordLocks] or [workerLocks]; a conversion that fails
    leaves the loop with the locks pushed so far. *)
Fixpoint readLocksLoop (instanceId : Z) (query_res : list LockRow)
         (coordLocks workerLocks : list LockDesc)
  : Outcome unit * (list LockDesc * list LockDesc) :=
  match query_res with
  | [] => (Return tt, (coordLocks, workerLocks))
  | row :: rest =>
      match readLock instanceId row with
      | None => (Throw (catchReadCommitted failure), (coordLocks, workerLocks))
      | Some lock =>
          if InstanceRole_eqb (getInstanceRole lock) COORD
          then readLocksLoop instanceId rest (coordLocks ++ [lock]) workerLocks
          else readLocksLoop instanceId rest coordLocks (workerLocks ++ [lock])
      end
  end.

(** [SystemCatalog::_readArrayLocks]: "select array_name, array_id,
    query_id, array_version_id, array_version, instance_role, lock_mode from
    array_version_lock where instance_id=$1". *)
Definition _readArrayLocks (fault : Fault) (instanceId : Z)
           (coordLocks workerLocks : list LockDesc) (tbl : LockTable)
  : Outcome unit * (list LockDesc * list LockDesc) :=
  match fault with
  | Some f => (Throw (catchReadCommitted (raised f)), (coordLocks, workerLocks))
  | None =>
      readLocksLoop instanceId (filter (fun r => instance_id r =? instanceId) tbl)
                    coordLocks workerLocks
  end.

(** [SystemCatalog::_checkForCoordinatorLock]: "select array_id,
    instance_id, array_version_id, array_version, lock_mode from
    array_version_lock where array_name=$1::VARCHAR and query_id=$2 and
    instance_role=$3" with [(int)LockDesc::COORD] for $3; the first row of
    the result makes the descriptor ([assert(size < 2)] is compiled out), no
    row leaves the null pointer. *)
Definition _checkForCoordinatorLock (fault : Fault) (arrayName : string) (queryId : Z)
           (tbl : LockTable) : Outcome (option LockDesc) :=
  match fault with
  | Some f => Throw (catchReadCommitted (raised f))
  | None =>
      let query_res :=
        filter (fun r => String.eqb (array_name r) arrayName
                         && (query_id r =? queryId)
                         && (instance_role r =? roleCode COORD)) tbl in
      match query_res with
      | [] => Return None
      | row :: _ =>
          match as_uint64 (instance_id row), as_uint64 (array_version row),
                as_uint64 (array_id row), as_uint64 (array_version_id row) with
          | Some instanceId, Some arrayVersion, Some arrayId, Some arrayVersionId =>
              Return (Some (setArrayVersionId arrayVersionId
                              (setArrayId arrayId
                                 (setArrayVersion arrayVersion
                                    (newLockDesc arrayName queryId instanceId COORD
                                       (static_cast_LockMode (lock_mode row)))))))
          | _, _, _, _ => Throw (catchReadCommitted failure)
          end
      end
  end.

(** A row the readers convert without loss: its ids are unsigned, its role
    is one [_lockArray] stores and its mode names an enumerator. *)
Definition readable (r : LockRow) : bool :=
  (0 <=? array_id r) && (0 <=? query_id r) && (0 <=? instance_id r)
  && (0 <=? array_version_id r) && (0 <=? array_version r)
  && (roleCode COORD <=? instance_role r) && (instance_role r <=? roleCode WORKER)
  && (modeCode INVALID_MODE <=? lock_mode r) && (lock_mode r <=? modeCode RNF).

(** The descriptor the readers make of a readable row. *)
Definition lockOfRow (r : LockRow) : LockDesc :=
  mkLockDesc (array_name r) (array_id r) (query_id r) (instance_id r)
             (array_version_id r) 0 (array_version r)
             (static_cast_InstanceRole (instance_role r))
             (static_cast_LockMode (lock_mode r)) false.

(** The rows [_checkForCoordinatorLock] selects: the coordinator's locks of a
    query on an array. *)
Definition coordinatorRows (arrayName : string) (queryId : Z) (tbl : LockTable)
  : list LockRow :=
  filter (fun r => String.eqb (array_name r) arrayName
                   && (query_id r =? queryId)
                   && (instance_role r =? roleCode COORD)) tbl.

(** No two rows of the table share the key (array_name, query_id,
    instance_id). *)
Fixpoint uniqueKeys (tbl : LockTable) : Prop :=
  match tbl with
  | [] => True
  | r :: rest => existsb (sameKey r) rest = false /\ uniqueKeys rest
  end.

(** The (mode, role) pairs [getLockInsertSql] has a statement for. *)
Definition validRequest (lockDesc : LockDesc) : bool :=
  match getInstanceRole lockDesc, getLockMode lockDesc with
  | COORD, (RD | WR | CRT | XCL | RM | RNF) => true
  | WORKER, (WR | XCL) => true
  | _, _ => false
  end.

(** The rows that stand in the way of a coordinator's request: the rows the
    subquery of its conditional insert selects with the parameters
    [_lockArray] binds. *)
Definition blocking (lockDesc : LockDesc) (AVL : LockRow) : bool :=
  match getLockMode lockDesc with
  | RD =>
      String.eqb (array_name AVL) (getArrayName lockDesc)
      && (lock_mode AVL >? modeCode CRT)
      && (instance_role AVL =? roleCode COORD)
  | WR | CRT =>
      String.eqb (array_name AVL) (getArrayName lockDesc)
      && negb (query_id AVL =? getQueryId lockDesc)
      && (lock_mode AVL >? modeCode RD)
  | _ =>
      String.eqb (array_name AVL) (getArrayName lockDesc)
      && negb (query_id AVL =? getQueryId lockDesc)
  end.

(** What [_lockArray] answers a coordinator whose insert affected no row:
    [if (errorChecker && !errorChecker()) return false; throw
    LockBusyException]. *)
Definition busy (errorChecker : ErrorChecker) : Outcome bool :=
  match errorChecker with
  | Some false => Return false
  | _ => Throw LockBusyException
  end.

(** What a committed attempt sends to the store. *)
Definition committed (sql : LockInsertSql) : list PgEvent :=
  [TxBegin read_committed; ExecLockTable; ExecLockInsert sql; TxCommit].

(** Whether a lock of mode [held], held by the coordinator of one query,
    lets the coordinator of another query take [requested] on the same
    array: the guards of the three coordinator statements read together. *)
Definition compatible (held requested : LockMode) : bool :=
  match requested with
  | RD => modeCode held <=? modeCode CRT
  | WR | CRT => modeCode held <=? modeCode RD
  | _ => false
  end.

Module Locks.
Import Scenario.

(** Instance 1 coordinates query 1 on A and B and works for query 2 on C,
    which instance 0 coordinates. *)
Definition held : LockTable :=
  [ mkLockRow A 100 1 1 101 1 (roleCode COORD) (modeCode WR);
    mkLockRow "B" 200 1 1 0 0 (roleCode COORD) (modeCode RD);
    mkLockRow "C" 300 2 0 301 1 (roleCode COORD) (modeCode WR);
    mkLockRow "C" 300 2 1 301 1 (roleCode WORKER) (modeCode WR) ].

(** The coordinator of query 1 on A after it created version 2 as array
    102. *)
Definition newVersion : LockDesc := mkLockDesc A 100 1 1 102 0 2 COORD WR true.

(** The worker of query 1 on instance 3 asks for the coordinator's lock
    on A. *)
Definition joining : LockDesc := newLockDesc A 1 3 WORKER WR.
End Locks.

(** ** Readers and writers of the version catalog *)

(** SQL min(): NULL on no rows. *)
Definition sqlMin (l : list Z) : option Z :=
  match l with
  | [] => None
  | x :: rest => Some (fold_left Z.min rest x)
  end.

(** ORDER BY an integer column: the rows in ascending order of the key.
    SQL leaves the order of rows with equal keys open; here they stay in
    table order. *)
Fixpoint insertBy (A : Type) (key : A -> Z) (x : A) (l : list A) : list A :=
  match l with
  | [] => [x]
  | y :: rest => if key x <=? key y then x :: l else y :: insertBy key x rest
  end.

Fixpoint orderBy (A : Type) (key : A -> Z) (l : list A) : list A :=
  match l with
  | [] => []
  | x :: rest => insertBy key x (orderBy key rest)
  end.

(** A loop that fills a vector with one converted element per row. *)
Fixpoint collect (A B : Type) (body : A -> Tx B) (l : list A) : Tx (list B) :=
  match l with
  | [] => tx_ret []
  | x :: rest => b <- body x ;; bs <- collect body rest ;; tx_ret (b :: bs)
  end.

(** [SystemCatalog::_deleteVersion(array_id, version_id)]: "delete from
    array_version where array_id=$1 and version_id = $2" in one
    read-committed transaction. *)
Definition _deleteVersion (fault : Fault) (array_id version_id : Z) (cat : Catalog)
  : Outcome unit * Catalog :=
  transaction catchReadCommitted
    (execSql (fun cat =>
       (tt, mkCatalog (tbl_array cat) (tbl_array_attribute cat) (tbl_array_dimension cat)
                      (filter (fun r => negb ((array_version.array_id r =? array_id)
                                              && (array_version.version_id r =? version_id)))
                              (tbl_array_version cat)))))
    fault cat.

Definition deleteVersion (_reconnectTries : nat) (array_id version_id : Z)
  : Work Catalog unit :=
  runRestartableWork isBrokenConnection _reconnectTries
    (attempt (fun fault => _deleteVersion fault array_id version_id)).

(** [SystemCatalog::_getOldestArrayVersion(id)]: "select
    COALESCE(min(version_array_id),0) as vid from array_version where
    array_id=$1". *)
Definition _getOldestArrayVersion (fault : Fault) (id : Z) (cat : Catalog)
  : Outcome Z * Catalog :=
  transaction catchReadCommitted
    (vid <- execSql (fun cat =>
              (COALESCE (sqlMin (map array_version.version_array_id
                                     (filter (fun r => array_version.array_id r =? id)
                                             (tbl_array_version cat)))) 0,
               cat)) ;;
     tx_convert (as_uint64 vid))
    fault cat.

Definition getOldestArrayVersion (_reconnectTries : nat) (id : Z) : Work Catalog Z :=
  runRestartableWork isBrokenConnection _reconnectTries
    (attempt (fun fault => _getOldestArrayVersion fault id)).

(** [SystemCatalog::_lookupVersionByTimestamp(array_id, timestamp)]: "select
    COALESCE(max(version_id),0) as vid from array_version where array_id=$1
    and time_stamp <= $2". *)
Definition _lookupVersionByTimestamp (fault : Fault) (array_id timestamp : Z)
           (cat : Catalog) : Outcome Z * Catalog :=
  transaction catchReadCommitted
    (vid <- execSql (fun cat =>
              (COALESCE (sqlMax (map array_version.version_id
                                     (filter (fun r =>
                                                (array_version.array_id r =? array_id)
                                                && (array_version.time_stamp r <=? timestamp))
                                             (tbl_array_version cat)))) 0,
               cat)) ;;
     tx_convert (as_uint64 vid))
    fault cat.

Definition lookupVersionByTimestamp (_reconnectTries : nat) (array_id timestamp : Z)
  : Work Catalog Z :=
  runRestartableWork isBrokenConnection _reconnectTries
    (attempt (fun fault => _lookupVersionByTimestamp fault array_id timestamp)).

(** [VersionDesc(array_id, version_id, timestamp)] *)
Module VersionDesc.
Record t := mk {
  getArrayID : Z;
  getVersionID : Z;
  getTimeStamp : Z
}.
End VersionDesc.

(** [SystemCatalog::_getArrayVersions(array_id)]: "select version_array_id,
    version_id, time_stamp from array_version where array_id=$1 order by
    version_id", one [VersionDesc] per row. *)
Definition _getArrayVersions (fault : Fault) (array_id : Z) (cat : Catalog)
  : Outcome (list VersionDesc.t) * Catalog :=
  transaction catchReadCommitted
    (query_res <- execSql (fun cat =>
                    (orderBy array_version.version_id
                             (filter (fun r => array_version.array_id r =? array_id)
                                     (tbl_array_version cat)),
                     cat)) ;;
     collect (fun i =>
                version_array_id <- tx_convert (as_uint64 (array_version.version_array_id i)) ;;
                version_id <- tx_convert (as_uint64 (array_version.version_id i)) ;;
                tx_ret (VersionDesc.mk version_array_id version_id
                                       (array_version.time_stamp i)))
             query_res)
    fault cat.

Definition getArrayVersions (_reconnectTries : nat) (array_id : Z)
  : Work Catalog (list VersionDesc.t) :=
  runRestartableWork isBrokenConnection _reconnectTries
    (attempt (fun fault => _getArrayVersions fault array_id)).

(** ** Readers of the boundaries *)

(** What [_getLowBoundary] and [_getHighBoundary] leave with: the
    coordinates, [throw USER_EXCEPTION(SCIDB_SE_SYSCAT,
    SCIDB_LE_ARRAYID_DOESNT_EXIST) << array_id], which no catch clause of
    theirs handles, or what their catch clauses raise. *)
Inductive BoundaryOutcome :=
| Boundary (coords : Coordinates)
| ArrayIdDoesntExist (array_id : Z)
| BoundaryThrow (e : Exception).

(** The statement and the loop the two readers share, for the column they
    select. *)
Definition readBoundary (column : array_dimension.row -> Z) (fault : Fault)
           (array_id : Z) (cat : Catalog) : BoundaryOutcome :=
  match fault with
  | Some f => BoundaryThrow (catchReadCommitted (raised f))
  | None =>
      let query_res :=
        orderBy array_dimension.id
                (filter (fun r => array_dimension.array_id r =? array_id)
                        (tbl_array_dimension cat)) in
      let boundary := map column query_res in
      let j := List.length query_res in
      if (j =? 0)%nat then ArrayIdDoesntExist array_id else Boundary boundary
  end.

(** [SystemCatalog::_getLowBoundary(array_id)]: "select currStart from
    array_dimension where array_id=$1 order by id". *)
Definition _getLowBoundary : Fault -> Z -> Catalog -> BoundaryOutcome :=
  readBoundary array_dimension.currStart.

(** [SystemCatalog::_getHighBoundary(array_id)]: "select currEnd from
    array_dimension where array_id=$1 order by id". *)
Definition _getHighBoundary : Fault -> Z -> Catalog -> BoundaryOutcome :=
  readBoundary array_dimension.currEnd.

(** ** Arrays by name *)

Section ArraysByName.
(** Declared in headers that are not among the sources; the code below is
    read for any value of them. *)
Variable INVALID_ARRAY_ID : Z.
Variable psUndefined : Z.
Variable isNameUnversioned : string -> bool.
Variable getVersionFromName : string -> Z.
Variable findNamespaceTr : NamespaceDesc.t -> bool.

(** [SystemCatalog::_findArrayByName(array_name)]: "select id from array
    where name = $1"; the [int64_t] of the first row is returned as an
    [ArrayID] (unsigned), no row gives [INVALID_ARRAY_ID]. *)
Definition _findArrayByName (fault : Fault) (array_name : string) (cat : Catalog)
  : Outcome Z * Catalog :=
  match fault with
  | Some f => (Throw (catchReadCommitted (raised f)), cat)
  | None =>
      match filter (fun r => String.eqb (array.name r) array_name) (tbl_array cat) with
      | query_res1_0 :: _ => (Return (array.id query_res1_0 mod 2 ^ 64), cat)
      | [] => (Return INVALID_ARRAY_ID, cat)
      end
  end.

(** [SystemCatalog::containsArray(array_name)] *)
Definition containsArray (_reconnectTries : nat) (array_name : string)
           (env : list Fault * Catalog) : Outcome bool * (list Fault * Catalog) :=
  match runRestartableWork isBrokenConnection _reconnectTries
          (attempt (fun fault => _findArrayByName fault array_name)) env with
  | (Return arrayId, env') => (Return (negb (arrayId =? INVALID_ARRAY_ID)), env')
  | (Throw e, env') => (Throw e, env')
  end.

(** [SystemCatalog::_addArray(namespaceDesc, arrayDesc)], the overload
    without a transaction of the caller: one read-committed transaction
    around [_addArray(namespaceDesc, arrayDesc, &tr)]. *)
Definition _addArray_work (namespaceDesc : NamespaceDesc.t) (arrayDesc : ArrayDesc.t)
           (fault : Fault) (cat : Catalog) : Outcome unit * Catalog :=
  transaction catchReadCommitted
    (_addArray psUndefined isNameUnversioned getVersionFromName findNamespaceTr
               namespaceDesc arrayDesc)
    fault cat.

(** [SystemCatalog::addArray(namespaceDesc, arrayDesc)] *)
Definition addArray (_reconnectTries : nat) (namespaceDesc : NamespaceDesc.t)
           (arrayDesc : ArrayDesc.t) : Work Catalog unit :=
  runRestartableWork isBrokenConnection _reconnectTries
    (attempt (_addArray_work namespaceDesc arrayDesc)).

(** The checks of [_addArray] on the descriptor, read together. *)
Definition accepted (desc : ArrayDesc.t) : bool :=
  negb (ArrayDesc.getPartitioningSchema desc =? psUndefined)
  && (0 <? ArrayDesc.getId desc)
  && ((isNameUnversioned (ArrayDesc.getName desc)
       && (ArrayDesc.getUAId desc =? ArrayDesc.getId desc))
      || ((ArrayDesc.getVersionId desc =? getVersionFromName (ArrayDesc.getName desc))
          && (0 <? ArrayDesc.getUAId desc)
          && (ArrayDesc.getUAId desc <? ArrayDesc.getId desc)))
  && negb (existsb (fun a =>
             existsb (fun d => String.eqb (AttributeDesc.getName a)
                                          (DimensionDesc.getBaseName d))
                     (ArrayDesc.getDimensions desc))
             (ArrayDesc.getAttributes desc)).

(** The namespace is known, or it is the public one. *)
Definition namespaceFound (ns : NamespaceDesc.t) : bool :=
  negb (NamespaceDesc.getId ns =? -1)
  || findNamespaceTr ns
  || String.eqb (NamespaceDesc.getName ns) "public".
End ArraysByName.

(** ** Transient arrays *)

Section InvalidateTempArray.
(** [ArrayDesc::INVALID] and [ArrayDesc::TRANSIENT], the flag bits of a
    header that is not among the sources: the code below is read for any
    value of them. *)
Variables INVALID TRANSIENT : Z.

(** "update array set flags = (flags | $1) where (flags & $2)!=0", with
    " and name=$3" when [arrayName] is not empty. *)
Definition invalidate (arrayName : string) (r : array.row) : array.row :=
  if negb (Z.land (array.flags r) TRANSIENT =? 0)
     && (if String.eqb arrayName EmptyString then true else String.eqb (array.name r) arrayName)
  then array.mk (array.id r) (array.name r) (array.partitioning_schema r)
                (Z.lor (array.flags r) INVALID)
  else r.

(** [SystemCatalog::_invalidateTempArray(arrayName)]: one serializable
    transaction. *)
Definition _invalidateTempArray (arrayName : string) (fault : Fault) (cat : Catalog)
  : Outcome unit * Catalog :=
  transaction catchSerializable
    (execSql (fun cat =>
       (tt, mkCatalog (map (invalidate arrayName) (tbl_array cat))
                      (tbl_array_attribute cat) (tbl_array_dimension cat)
                      (tbl_array_version cat))))
    fault cat.

(** [SystemCatalog::invalidateTempArrays()]: all arrays, the
    serialization-conflict policy inside the connection-loss policy. *)
Definition invalidateTempArrays (_reconnectTries _serializedTxnTries : nat)
  : Work Catalog unit :=
  runRestartableWork isBrokenConnection _reconnectTries
    (runRestartableWork isTxnIsolationConflict _serializedTxnTries
       (attempt (_invalidateTempArray EmptyString))).
End InvalidateTempArray.

(** ** Vocabulary of the statements about the readers *)

(** A list of integers in ascending order. *)
Fixpoint ascending (l : list Z) : Prop :=
  match l with
  | [] => True
  | x :: rest => (forall y, In y rest -> x <= y) /\ ascending rest
  end.

(** The descriptor [_getArrayVersions] makes of a version row. *)
Definition versionDescOf (r : array_version.row) : VersionDesc.t :=
  VersionDesc.mk (array_version.version_array_id r) (array_version.version_id r)
                 (array_version.time_stamp r).

(** The dimension rows of an array. *)
Definition dimensionsOf (array_id : Z) (cat : Catalog) : list array_dimension.row :=
  filter (fun r => array_dimension.array_id r =? array_id) (tbl_array_dimension cat).

(** The array rows with a name. *)
Definition arraysNamed (array_name : string) (cat : Catalog) : list array.row :=
  filter (fun r => String.eqb (array.name r) array_name) (tbl_array cat).

(** ** The connection string *)

(** [s.find(c)] and [s.find_first_of(chars)]: the index of the first
    character of [s] that is one of [chars], [None] for [npos]. *)
Fixpoint find_first_of (chars : list ascii) (s : string) : option nat :=
  match s with
  | EmptyString => None
  | String c rest =>
      if existsb (Ascii.eqb c) chars then Some O
      else option_map S (find_first_of chars rest)
  end.

(** [s.substr(pos)], for [pos] up to the size of [s]. *)
Fixpoint substr (pos : nat) (s : string) : string :=
  match pos, s with
  | O, _ => s
  | S n, String _ rest => substr n rest
  | S _, EmptyString => EmptyString
  end.

(** [SystemCatalog::_findCredParam(creds, key)]; the assertion on the last
    character of [key] is compiled out, and [rest.find('=') + 1] is 0 when
    [find] answers [npos]. *)
Definition _findCredParam (creds key : string) : string :=
  match String.index 0 key creds with
  | None => EmptyString
  | Some pos =>
      let rest := substr pos creds in
      let rest := match find_first_of ["="%char] rest with
                  | Some eq => substr (eq + 1) rest
                  | None => rest
                  end in
      if String.eqb rest EmptyString then "''"%string
      else match find_first_of [" "%char; "009"%char] rest with
           | Some pos => String.substring 0 pos rest
           | None => rest
           end
  end.

Module Credentials.
Definition creds : string := "host=localhost port=5432 dbname=mydb".
End Credentials.

Module Published.
(** The catalog holds array A (id 100); version 1 of it is then added as
    array A@1 (id 101) at time 1000. *)
Definition catalog : Catalog := withArray NewVersion.A NewVersion.empty.

Definition added : Outcome unit * Catalog :=
  NewVersion._addArrayVersion 1000 NewVersion.public None NewVersion.A_1 None catalog.
End Published.

(** * Properties *)

Unset Implicit Arguments.

(** ** Tables and inserts *)

Lemma insertRows_app rows : forall tbl tbl',
  insertRows rows tbl = Some tbl' -> tbl' = tbl ++ rows.
Proof.
  induction rows as [|r rest IH]; simpl; intros tbl tbl' H.
  - injection H as <-. now rewrite app_nil_r.
  - destruct (existsb (sameKey r) tbl); [discriminate|].
    apply IH in H. subst tbl'. now rewrite <- app_assoc.
Qed.

Lemma insertResult_ok rows tbl out n tbl' :
  insertResult rows tbl = PgOk out n tbl' ->
  tbl' = tbl ++ rows /\ n = Z.of_nat (List.length rows) /\ out = [].
Proof.
  unfold insertResult. destruct (insertRows rows tbl) eqn:E; [|discriminate].
  intros H. injection H as <- <- <-. apply insertRows_app in E. auto.
Qed.

Lemma insertResult_throw rows tbl e :
  insertResult rows tbl = PgThrow e -> e = unique_violation.
Proof.
  unfold insertResult. destruct (insertRows rows tbl); [discriminate|].
  now intros [= <-].
Qed.

Lemma insertRows_fresh r tbl :
  existsb (sameKey r) tbl = false -> insertRows [r] tbl = Some (tbl ++ [r]).
Proof. simpl. now intros ->. Qed.

Lemma existsb_false_forall (A : Type) (p : A -> bool) l :
  existsb p l = false -> forall x, In x l -> p x = false.
Proof.
  intros H x Hx. destruct (p x) eqn:E; [|reflexivity].
  assert (existsb p l = true) by (apply existsb_exists; eauto). congruence.
Qed.

(** ** The invariant of the lock table *)

Lemma conflictFree_nil : conflictFree [].
Proof. intros r1 r2 []. Qed.

Lemma conflictFree_incl tbl tbl' :
  (forall r, In r tbl' -> In r tbl) -> conflictFree tbl -> conflictFree tbl'.
Proof. intros Hincl H r1 r2 H1 H2. apply H; auto. Qed.

(** Rows that agree with a row already there on array, query and mode add no
    conflict. *)
Lemma conflictFree_copies tbl rows :
  conflictFree tbl ->
  (forall c, In c rows -> exists c0, In c0 tbl /\ array_name c0 = array_name c
     /\ query_id c0 = query_id c /\ lock_mode c0 = lock_mode c) ->
  conflictFree (tbl ++ rows).
Proof.
  intros Hcf Hrows.
  assert (Hrep : forall r, In r (tbl ++ rows) ->
            exists r0, In r0 tbl /\ array_name r0 = array_name r
                       /\ query_id r0 = query_id r /\ lock_mode r0 = lock_mode r).
  { intros r Hr. apply in_app_or in Hr as [Hr|Hr]; [exists r; auto | auto]. }
  intros r1 r2 H1 H2 Hn Hq Hm1 Hm2.
  destruct (Hrep _ H1) as (a & Ha & Han & Haq & Ham).
  destruct (Hrep _ H2) as (b & Hb & Hbn & Hbq & Hbm).
  apply (Hcf a b Ha Hb); congruence.
Qed.

(** A row whose mode is above RD only when no other query holds such a mode
    on its array adds no conflict. *)
Lemma conflictFree_guarded tbl r :
  conflictFree tbl ->
  (forall r0, In r0 tbl -> array_name r0 = array_name r ->
     query_id r0 <> query_id r -> modeCode RD < lock_mode r0 ->
     modeCode RD < lock_mode r -> False) ->
  conflictFree (tbl ++ [r]).
Proof.
  intros Hcf Hg r1 r2 H1 H2 Hn Hq Hm1 Hm2.
  apply in_app_or in H1 as [H1|[<-|[]]]; apply in_app_or in H2 as [H2|[<-|[]]].
  - exact (Hcf r1 r2 H1 H2 Hn Hq Hm1 Hm2).
  - exact (Hg r1 H1 Hn Hq Hm1 Hm2).
  - apply (Hg r2 H2); auto.
  - now apply Hq.
Qed.

Lemma stamp_fields i role r :
  array_name (stamp i role r) = array_name r
  /\ query_id (stamp i role r) = query_id r
  /\ lock_mode (stamp i role r) = lock_mode r.
Proof. now destruct r. Qed.

Lemma conflictFree_stamped tbl i role p :
  conflictFree tbl -> conflictFree (tbl ++ map (stamp i role) (filter p tbl)).
Proof.
  intros Hcf. apply conflictFree_copies; [assumption|].
  intros c Hc. apply in_map_iff in Hc as (c0 & <- & Hc0).
  apply filter_In in Hc0 as [Hc0 _]. exists c0.
  destruct (stamp_fields i role c0) as (-> & -> & ->). auto.
Qed.

Ltac insert_cases Hst :=
  match type of Hst with
  | context [if ?g then _ else _] => destruct g eqn:?G
  | _ => idtac
  end;
  match type of Hst with
  | context [insertResult ?rows ?t] =>
      let IR := fresh "IR" in
      destruct (insertResult rows t) as [? ? ?|?] eqn:IR; try discriminate;
      apply insertResult_ok in IR as (? & ? & ?)
  end.

Ltac executed Hst :=
  unfold stampRead in Hst;
  repeat match type of Hst with
         | (if ?c then _ else _) = _ => destruct c
         | match ?l with _ => _ end = _ => destruct l
         end;
  try discriminate; injection Hst; intros; subst.

Lemma statements_conflictFree f sql ld tbl n ld' tbl' ev :
  getLockInsertSql ld = Return sql ->
  lockArrayStatements f sql ld tbl = Executed n ld' tbl' ev ->
  conflictFree tbl -> conflictFree tbl'.
Proof.
  destruct ld as [name aid q i avid acid av role mode locked].
  unfold getLockInsertSql, lockArrayStatements, execInsert, exec; simpl.
  intros Hsql Hst Hcf.
  destruct f as [f|].
  { destruct mode, role; simpl in *; try discriminate; congruence. }
  destruct mode, role; simpl in *; try discriminate;
    injection Hsql as <-; simpl in Hst; insert_cases Hst; executed Hst; subst;
    rewrite ?app_nil_r; try assumption; try (now apply conflictFree_stamped);
    apply conflictFree_guarded; try assumption; simpl; intros r0 Hr0 Hn Hq Hm0 Hm;
    try lia;
    apply (existsb_false_forall _ _ _ G) in Hr0;
    apply String.eqb_eq in Hn; apply Z.eqb_neq in Hq; apply Z.gtb_lt in Hm0;
    rewrite Hn, ?Hq, ?Hm0 in Hr0; discriminate.
Qed.

Lemma lockArray_table f ld ec tbl :
  la_table (_lockArray f ld ec tbl) = tbl
  \/ exists sql n ld' ev,
       getLockInsertSql ld = Return sql
       /\ lockArrayStatements f sql ld tbl
          = Executed n ld' (la_table (_lockArray f ld ec tbl)) ev.
Proof.
  unfold _lockArray. destruct (getLockInsertSql ld) as [sql|e] eqn:Hsql; [|now left].
  destruct (lockArrayStatements f sql ld tbl) as [n ld' tbl' ev|e ev|ld' ev|e ev] eqn:Hst.
  - right. exists sql, n, ld', ev. split; [reflexivity|]. rewrite Hst.
    destruct (n =? 1); [reflexivity|].
    destruct (InstanceRole_eqb (getInstanceRole ld') WORKER); reflexivity.
  - left. now destruct e.
  - now left.
  - now left.
Qed.

Lemma lockArray_conflictFree f ld ec tbl :
  conflictFree tbl -> conflictFree (la_table (_lockArray f ld ec tbl)).
Proof.
  intros Hcf. destruct (lockArray_table f ld ec tbl) as [->|(sql & n & ld' & ev & Hsql & Hst)].
  - assumption.
  - eapply statements_conflictFree; eassumption.
Qed.

(** What every attempt of a unit of work keeps, the retry loop keeps. *)
Lemma runRestartableWork_invariant (St A : Type) (P : St -> Prop)
      (isRetryable : Exception -> bool) (work : Work St A) :
  (forall env, P (snd env) -> P (snd (snd (work env)))) ->
  forall tries env, P (snd env) ->
    P (snd (snd (runRestartableWork isRetryable tries work env))).
Proof.
  intros Hw. induction tries as [|n IH]; intros env HP; simpl; [assumption|].
  specialize (Hw env HP). destruct (work env) as [[a|e] env']; simpl in *; [assumption|].
  destruct (isRetryable e); [|assumption].
  destruct n; [assumption|]. now apply IH.
Qed.

Lemma unlock_conflictFree f ld tbl :
  conflictFree tbl -> conflictFree (snd (_unlockArray f ld tbl)).
Proof.
  unfold _unlockArray. destruct f; simpl; [auto|].
  apply conflictFree_incl. intros r Hr. now apply filter_In in Hr.
Qed.

Lemma delete_conflictFree iq f i q role tbl :
  conflictFree tbl -> conflictFree (snd (_deleteArrayLocks iq f i q role tbl)).
Proof.
  unfold _deleteArrayLocks. destruct f; simpl; [auto|].
  apply conflictFree_incl. intros r Hr. now apply filter_In in Hr.
Qed.

Lemma updateRow_fields ld r :
  array_name (updateRow ld r) = array_name r
  /\ query_id (updateRow ld r) = query_id r
  /\ instance_id (updateRow ld r) = instance_id r
  /\ instance_role (updateRow ld r) = instance_role r.
Proof. unfold updateRow. destruct (keyOf ld r); auto. Qed.

Lemma update_conflictFree f ld tbl :
  updateKeepsStrength ld tbl = true ->
  conflictFree tbl -> conflictFree (snd (_updateArrayLock f ld tbl)).
Proof.
  unfold _updateArrayLock. destruct f; simpl; [auto|].
  intros Hk Hcf.
  assert (Hold : forall r', In r' (map (updateRow ld) tbl) ->
            exists r, In r tbl /\ array_name r = array_name r'
                      /\ query_id r = query_id r'
                      /\ (modeCode RD < lock_mode r' -> modeCode RD < lock_mode r)).
  { intros r' Hr'. apply in_map_iff in Hr' as (r & <- & Hr). exists r.
    destruct (updateRow_fields ld r) as (-> & -> & _ & _).
    repeat split; auto.
    unfold updateKeepsStrength in Hk. rewrite forallb_forall in Hk.
    specialize (Hk r Hr). unfold updateRow.
    destruct (keyOf ld r); simpl in *; [|auto].
    intros Hm. apply Z.ltb_lt in Hm. rewrite Hm in Hk. now apply Z.ltb_lt. }
  intros r1 r2 H1 H2 Hn Hq Hm1 Hm2.
  destruct (Hold _ H1) as (a & Ha & Han & Haq & Ham).
  destruct (Hold _ H2) as (b & Hb & Hbn & Hbq & Hbm).
  apply (Hcf a b Ha Hb); try congruence; auto.
Qed.

Lemma update_keepsStrength f ld tbl :
  updateKeepsStrength ld tbl = true ->
  updateKeepsStrength ld (snd (_updateArrayLock f ld tbl)) = true.
Proof.
  unfold _updateArrayLock. destruct f; simpl; [auto|].
  unfold updateKeepsStrength. rewrite !forallb_forall. intros H r' Hr'.
  apply in_map_iff in Hr' as (r & <- & Hr). specialize (H r Hr).
  destruct (updateRow_fields ld r) as (Hn & Hq & Hi & _).
  assert (Hk : keyOf ld (updateRow ld r) = keyOf ld r)
    by (unfold keyOf; now rewrite Hn, Hq, Hi).
  rewrite Hk. unfold updateRow. destruct (keyOf ld r); simpl in *; [|reflexivity].
  now destruct (_ <? modeCode (getLockMode ld)).
Qed.

Lemma attempt_snd (St A : Type) (body : Fault -> St -> Outcome A * St) env :
  snd (snd (attempt body env)) = snd (body (hd None (fst env)) (snd env)).
Proof. destruct env as [fs s]. simpl. now destruct (body (hd None fs) s). Qed.

Lemma applyOp_conflictFree iq op tbl :
  disciplined iq [op] tbl = true ->
  conflictFree tbl -> conflictFree (applyOp iq op tbl).
Proof.
  intros Hd Hcf. destruct op as [tries fs ld ec|tries fs ld|tries fs ld|tries fs i q role];
    simpl in *.
  - unfold sessionTable, lockArray.
    apply (runRestartableWork_invariant _ _
             (fun s : LockSession => conflictFree (snd (fst s)))); [|assumption].
    intros [fs' [[ld' tbl'] log]] H. simpl in *.
    now apply lockArray_conflictFree.
  - unfold unlockArray, tableWork.
    apply (runRestartableWork_invariant _ _ conflictFree); [|assumption].
    intros env H. rewrite attempt_snd. now apply unlock_conflictFree.
  - unfold updateArrayLock, tableWork.
    rewrite andb_true_r in Hd.
    apply (runRestartableWork_invariant _ _
             (fun t => conflictFree t /\ updateKeepsStrength ld t = true)); [|auto].
    intros env [H1 H2]. rewrite attempt_snd. split.
    + now apply update_conflictFree.
    + now apply update_keepsStrength.
  - unfold deleteArrayLocks, tableWork.
    apply (runRestartableWork_invariant _ _ conflictFree); [|assumption].
    intros env H. rewrite attempt_snd. now apply delete_conflictFree.
Qed.

Lemma run_conflictFree iq ops : forall tbl,
  disciplined iq ops tbl = true -> conflictFree tbl -> conflictFree (run iq ops tbl).
Proof.
  induction ops as [|op rest IH]; simpl; intros tbl Hd Hcf; [assumption|].
  apply andb_prop in Hd as [Hop Hrest].
  apply IH; [assumption|]. apply applyOp_conflictFree; [|assumption].
  simpl. now rewrite Hop.
Qed.

(** ** Coordinator grants *)

Lemma exclusiveModes_above_RD m : In m exclusiveModes -> modeCode RD < m.
Proof. simpl. intros [<-|[<-|[<-|[<-|[<-|[]]]]]]; lia. Qed.

Lemma granted_write ld tbl tbl' :
  getInstanceRole ld = COORD ->
  getLockMode ld = WR \/ getLockMode ld = CRT ->
  granted ld tbl tbl' ->
  tbl' = tbl ++ [rowOf ld]
  /\ existsb (fun AVL => String.eqb (array_name AVL) (getArrayName ld)
                         && negb (query_id AVL =? getQueryId ld)
                         && (lock_mode AVL >? modeCode RD)) tbl = false.
Proof.
  intros Hrole Hmode (sql & ld' & ev & Hsql & Hst).
  destruct ld as [name aid q i avid acid av role mode locked]; simpl in *. subst role.
  unfold getLockInsertSql, lockArrayStatements, execInsert, exec in *; simpl in *.
  destruct Hmode; subst mode; simpl in *; injection Hsql as <-; simpl in Hst;
    insert_cases Hst; executed Hst; subst; simpl in *; try discriminate; auto.
Qed.

Lemma granted_exclusive ld tbl tbl' :
  getInstanceRole ld = COORD ->
  getLockMode ld = XCL \/ getLockMode ld = RM \/ getLockMode ld = RNF ->
  granted ld tbl tbl' ->
  tbl' = tbl ++ [rowOf ld]
  /\ existsb (fun AVL => String.eqb (array_name AVL) (getArrayName ld)
                         && negb (query_id AVL =? getQueryId ld)) tbl = false.
Proof.
  intros Hrole Hmode (sql & ld' & ev & Hsql & Hst).
  destruct ld as [name aid q i avid acid av role mode locked]; simpl in *. subst role.
  unfold getLockInsertSql, lockArrayStatements, execInsert, exec in *; simpl in *.
  destruct Hmode as [|[|]]; subst mode; simpl in *; injection Hsql as <-; simpl in Hst;
    insert_cases Hst; executed Hst; subst; simpl in *; try discriminate; auto.
Qed.

(** A coordinator that finds a row of another query above RD on its array
    is not granted WR, CRT, XCL, RM or RNF, whatever the store does. *)
Lemma blocked_not_granted f ld ec tbl r :
  getInstanceRole ld = COORD ->
  In (modeCode (getLockMode ld)) exclusiveModes ->
  In r tbl -> array_name r = getArrayName ld -> query_id r <> getQueryId ld ->
  modeCode RD < lock_mode r ->
  la_outcome (_lockArray f ld ec tbl) <> Return true.
Proof.
  intros Hrole Hmode Hr Hn Hq Hm.
  assert (G1 : existsb (fun AVL => String.eqb (array_name AVL) (getArrayName ld)
                                   && negb (query_id AVL =? getQueryId ld)
                                   && (lock_mode AVL >? 1)) tbl = true).
  { apply existsb_exists. exists r. split; [assumption|].
    apply String.eqb_eq in Hn. apply Z.eqb_neq in Hq. rewrite Hn, Hq. simpl.
    now apply Z.gtb_lt. }
  assert (G2 : existsb (fun AVL => String.eqb (array_name AVL) (getArrayName ld)
                                   && negb (query_id AVL =? getQueryId ld)) tbl = true).
  { apply existsb_exists. exists r. split; [assumption|].
    apply String.eqb_eq in Hn. apply Z.eqb_neq in Hq. now rewrite Hn, Hq. }
  destruct ld as [name aid q i avid acid av role mode locked]; simpl in *. subst role.
  unfold _lockArray, getLockInsertSql, lockArrayStatements, execInsert, exec; simpl.
  destruct mode; simpl in Hmode; try (exfalso; clear - Hmode; intuition discriminate);
    simpl; destruct f as [[]|]; simpl; try discriminate;
    rewrite ?G1, ?G2; simpl; destruct ec as [[]|]; discriminate.
Qed.

Lemma conflicting_not_both_granted l1 l2 tbl tbl1 :
  getInstanceRole l1 = COORD -> getInstanceRole l2 = COORD ->
  getArrayName l1 = getArrayName l2 -> getQueryId l1 <> getQueryId l2 ->
  In (modeCode (getLockMode l1)) exclusiveModes ->
  In (modeCode (getLockMode l2)) exclusiveModes ->
  granted l1 tbl tbl1 ->
  forall f ec, la_outcome (_lockArray f l2 ec tbl1) <> Return true.
Proof.
  intros R1 R2 Hn Hq M1 M2 Hg f ec.
  assert (Ht : tbl1 = tbl ++ [rowOf l1]).
  { destruct (getLockMode l1) eqn:E; simpl in M1;
      try (exfalso; clear - M1; intuition discriminate).
    - apply (granted_write l1 tbl tbl1 R1 (or_introl E) Hg).
    - apply (granted_write l1 tbl tbl1 R1 (or_intror E) Hg).
    - apply (granted_exclusive l1 tbl tbl1 R1 (or_introl E) Hg).
    - apply (granted_exclusive l1 tbl tbl1 R1 (or_intror (or_introl E)) Hg).
    - apply (granted_exclusive l1 tbl tbl1 R1 (or_intror (or_intror E)) Hg). }
  subst tbl1.
  apply (blocked_not_granted f l2 ec (tbl ++ [rowOf l1]) (rowOf l1)); auto.
  - apply in_or_app. right. now left.
  - now apply exclusiveModes_above_RD.
Qed.

(** C1, amended: in every state reached from the empty lock table by
    lockArray, unlockArray, deleteArrayLocks calls and by updateArrayLock
    calls that write a mode above RD only over a mode above RD, no array has
    WR, CRT, XCL, RM or RNF rows of two distinct queries; there a
    coordinator's insert for WR or CRT is granted only if no row of the array
    held by another query has a mode above RD, its insert for XCL, RM or RNF
    only if the array has no row of another query at all, and after one
    grant a conflicting request of another query's coordinator is not
    granted. *)
Theorem lock_mutual_exclusion (INVALID_QUERY_ID : Z) (ops : list LockOp) :
  disciplined INVALID_QUERY_ID ops [] = true ->
  let tbl := run INVALID_QUERY_ID ops [] in
  (forall r1 r2, In r1 tbl -> In r2 tbl ->
     array_name r1 = array_name r2 -> query_id r1 <> query_id r2 ->
     In (lock_mode r1) exclusiveModes -> In (lock_mode r2) exclusiveModes -> False)
  /\ (forall lockDesc tbl',
        getInstanceRole lockDesc = COORD ->
        getLockMode lockDesc = WR \/ getLockMode lockDesc = CRT ->
        granted lockDesc tbl tbl' ->
        forall r, In r tbl -> array_name r = getArrayName lockDesc ->
                  query_id r <> getQueryId lockDesc -> lock_mode r <= modeCode RD)
  /\ (forall lockDesc tbl',
        getInstanceRole lockDesc = COORD ->
        getLockMode lockDesc = XCL \/ getLockMode lockDesc = RM
        \/ getLockMode lockDesc = RNF ->
        granted lockDesc tbl tbl' ->
        forall r, In r tbl -> array_name r = getArrayName lockDesc ->
                  query_id r = getQueryId lockDesc)
  /\ (forall l1 l2 tbl1,
        getInstanceRole l1 = COORD -> getInstanceRole l2 = COORD ->
        getArrayName l1 = getArrayName l2 -> getQueryId l1 <> getQueryId l2 ->
        In (modeCode (getLockMode l1)) exclusiveModes ->
        In (modeCode (getLockMode l2)) exclusiveModes ->
        granted l1 tbl tbl1 ->
        forall fault errorChecker,
          la_outcome (_lockArray fault l2 errorChecker tbl1) <> Return true).
Proof.
  intros Hd tbl. repeat split.
  - intros r1 r2 H1 H2 Hn Hq M1 M2.
    apply (run_conflictFree INVALID_QUERY_ID ops [] Hd conflictFree_nil r1 r2);
      auto using exclusiveModes_above_RD.
  - intros ld tbl' Hrole Hmode Hg r Hr Hn Hq.
    destruct (granted_write ld tbl tbl' Hrole Hmode Hg) as [_ G].
    apply (existsb_false_forall _ _ _ G) in Hr.
    apply String.eqb_eq in Hn. apply Z.eqb_neq in Hq. rewrite Hn, Hq in Hr.
    simpl in Hr.
    simpl. rewrite Z.gtb_ltb in Hr. apply Z.ltb_ge in Hr. exact Hr.
  - intros ld tbl' Hrole Hmode Hg r Hr Hn.
    destruct (granted_exclusive ld tbl tbl' Hrole Hmode Hg) as [_ G].
    apply (existsb_false_forall _ _ _ G) in Hr.
    apply String.eqb_eq in Hn. rewrite Hn in Hr. simpl in Hr.
    apply negb_false_iff in Hr. now apply Z.eqb_eq.
  - intros l1 l2 tbl1 R1 R2 Hn Hq M1 M2 Hg f ec.
    exact (conflicting_not_both_granted l1 l2 tbl tbl1 R1 R2 Hn Hq M1 M2 Hg f ec).
Qed.

Lemma lock_mutual_exclusion_witness :
  disciplined Scenario.INVALID_QUERY_ID Scenario.createThenWrite [] = true
  /\ forall r1 r2,
       In r1 (run Scenario.INVALID_QUERY_ID Scenario.createThenWrite []) ->
       In r2 (run Scenario.INVALID_QUERY_ID Scenario.createThenWrite []) ->
       array_name r1 = array_name r2 -> query_id r1 <> query_id r2 ->
       In (lock_mode r1) exclusiveModes -> In (lock_mode r2) exclusiveModes -> False.
Proof.
  split; [reflexivity|].
  exact (proj1 (lock_mutual_exclusion Scenario.INVALID_QUERY_ID
                                      Scenario.createThenWrite eq_refl)).
Defined.

(** C1 as stated fails: two coordinators of distinct queries are granted RD
    on A, then each rewrites its row to WR with updateArrayLock; the table
    then holds two WR rows of A from distinct queries. *)
Lemma lock_mutual_exclusion_counterexample :
  exists r1 r2,
    In r1 (run Scenario.INVALID_QUERY_ID Scenario.readersTurnedWriters [])
    /\ In r2 (run Scenario.INVALID_QUERY_ID Scenario.readersTurnedWriters [])
    /\ array_name r1 = array_name r2
    /\ query_id r1 <> query_id r2
    /\ lock_mode r1 = modeCode WR
    /\ lock_mode r2 = modeCode WR.
Proof.
  exists (mkLockRow "A" 0 1 0 0 0 1 2), (mkLockRow "A" 0 2 1 0 0 1 2).
  vm_compute. repeat split; auto; discriminate.
Qed.

(** Query 1 is granted CRT on A; query 2 asking for WR is busy, with or
    without a continuation check, until query 1 has released the lock. *)
Example create_then_write_outcomes :
  let granted1 := _lockArray None (Scenario.coord 1 0 CRT) None [] in
  la_outcome granted1 = Return true
  /\ la_outcome (_lockArray None (Scenario.coord 2 1 WR) None (la_table granted1))
     = Throw LockBusyException
  /\ la_outcome (_lockArray None (Scenario.coord 2 1 WR) (Some false) (la_table granted1))
     = Return false
  /\ _unlockArray None (Scenario.coord 1 0 CRT) (la_table granted1) = (Return true, [])
  /\ la_outcome (_lockArray None (Scenario.coord 2 1 WR) None []) = Return true.
Proof. repeat split. Qed.

(** ** Isolation level and retry policy of lockArray *)

Lemma statements_events f sql ld tbl :
  let ev := statementsEvents (lockArrayStatements f sql ld tbl) in
  ev = [] \/ ev = [ExecLockInsert sql] \/ ev = [ExecLockInsert sql; ExecLockRead].
Proof.
  unfold lockArrayStatements, execInsert, exec, stampRead.
  destruct (getLockMode ld), (getInstanceRole ld), f as [f|]; simpl; auto;
    repeat match goal with
           | |- context [match ?x with _ => _ end] => destruct x; simpl; auto
           end.
Qed.

Lemma lockArray_events f ld ec tbl :
  la_events (_lockArray f ld ec tbl) = []
  \/ exists sql ending,
       getLockInsertSql ld = Return sql
       /\ (ending = TxCommit \/ ending = TxAbort)
       /\ la_events (_lockArray f ld ec tbl)
          = [TxBegin read_committed; ExecLockTable]
              ++ statementsEvents (lockArrayStatements f sql ld tbl) ++ [ending].
Proof.
  unfold _lockArray. destruct (getLockInsertSql ld) as [sql|e]; [|now left].
  right. exists sql.
  destruct (lockArrayStatements f sql ld tbl) as [n ld' tbl' ev|e ev|ld' ev|e ev]; simpl.
  - exists TxCommit. repeat split; auto.
    destruct (n =? 1); [reflexivity|].
    destruct (InstanceRole_eqb (getInstanceRole ld') WORKER); reflexivity.
  - exists TxAbort. repeat split; auto. now destruct e.
  - exists TxAbort. repeat split; auto.
  - exists TxAbort. repeat split; auto.
Qed.

Lemma statements_fault f sql ld tbl :
  getLockInsertSql ld = Return sql ->
  lockArrayStatements (Some f) sql ld tbl
  = PqxxThrown (raised f) [ExecLockInsert sql].
Proof.
  unfold getLockInsertSql, lockArrayStatements, execInsert, exec.
  destruct (getLockMode ld), (getInstanceRole ld); simpl; try discriminate; reflexivity.
Qed.

Lemma lockArray_fault f ld ec tbl sql :
  getLockInsertSql ld = Return sql ->
  _lockArray (Some f) ld ec tbl
  = mkLockArrayResult (Throw (catchReadCommitted (raised f))) ld tbl
      [TxBegin read_committed; ExecLockTable; ExecLockInsert sql; TxAbort].
Proof.
  intros Hsql. unfold _lockArray. rewrite Hsql, (statements_fault f sql ld tbl Hsql).
  now destruct f.
Qed.

(** C2, amended: every lockArray acquisition executes its conditional
    insert in a read-committed transaction (pqxx::work), after LOCK TABLE
    array_version_lock in the same transaction, and never opens a
    serializable one; lockArray is wrapped in the outer connection-loss retry
    policy only: a lost connection is retried within the reconnect budget,
    a serialization conflict reported by the store is surfaced at once as a
    query-execution failure, with no retry. *)
Theorem lockArray_read_committed_single_policy
        (lockDesc : LockDesc) (errorChecker : ErrorChecker) (tbl : LockTable)
        (sql : LockInsertSql) :
  getLockInsertSql lockDesc = Return sql ->
  (forall fault stmt,
     In (ExecLockInsert stmt) (la_events (_lockArray fault lockDesc errorChecker tbl)) ->
     (exists rest, la_events (_lockArray fault lockDesc errorChecker tbl)
                   = TxBegin read_committed :: ExecLockTable
                       :: ExecLockInsert stmt :: rest)
     /\ ~ In (TxBegin serializable)
             (la_events (_lockArray fault lockDesc errorChecker tbl)))
  /\ (forall n faults what log,
        isSerializationConflict what = true ->
        lockArray (S n) errorChecker
                  (Some (statement_failed what) :: faults, (lockDesc, tbl, log))
        = (Throw (SystemException SCIDB_SE_SYSCAT SCIDB_LE_PG_QUERY_EXECUTION_FAILED),
           (faults, (lockDesc, tbl,
                     log ++ [TxBegin read_committed; ExecLockTable;
                             ExecLockInsert sql; TxAbort]))))
  /\ (forall n faults log,
        lockArray (S (S n)) errorChecker
                  (Some connection_lost :: faults, (lockDesc, tbl, log))
        = lockArray (S n) errorChecker
                    (faults, (lockDesc, tbl,
                              log ++ [TxBegin read_committed; ExecLockTable;
                                      ExecLockInsert sql; TxAbort]))).
Proof.
  intros Hsql. repeat split.
  - destruct (lockArray_events fault lockDesc errorChecker tbl)
      as [E|(sql' & ending & Hsql' & Hend & E)]; rewrite E in *; [destruct H|].
    assert (sql' = sql) by congruence. subst sql'.
    destruct (statements_events fault sql lockDesc tbl) as [Ev|[Ev|Ev]];
      rewrite Ev in *; simpl in *.
    + destruct H as [H|[H|[H|[]]]]; try discriminate.
      destruct Hend; subst; discriminate.
    + destruct H as [H|[H|[H|[H|[]]]]]; try discriminate.
      * injection H as <-. eauto.
      * destruct Hend; subst; discriminate.
    + destruct H as [H|[H|[H|[H|[H|[]]]]]]; try discriminate.
      * injection H as <-. eauto.
      * destruct Hend; subst; discriminate.
  - destruct (lockArray_events fault lockDesc errorChecker tbl)
      as [E|(sql' & ending & Hsql' & Hend & E)]; rewrite E; [intros []|].
    destruct (statements_events fault sql' lockDesc tbl) as [Ev|[Ev|Ev]];
      rewrite Ev; simpl; destruct Hend; subst; intuition discriminate.
  - intros n faults what log Hw. unfold lockArray. simpl.
    rewrite (lockArray_fault (statement_failed what) lockDesc errorChecker tbl sql Hsql).
    reflexivity.
  - intros n faults log. unfold lockArray. simpl.
    rewrite (lockArray_fault connection_lost lockDesc errorChecker tbl sql Hsql).
    reflexivity.
Qed.

Lemma lockArray_read_committed_single_policy_witness :
  getLockInsertSql (Scenario.coord 1 0 CRT) = Return COORD_WR_insert
  /\ forall n faults log,
       lockArray (S (S n)) None
                 (Some connection_lost :: faults, (Scenario.coord 1 0 CRT, [], log))
       = lockArray (S n) None
                   (faults, (Scenario.coord 1 0 CRT, [],
                             log ++ [TxBegin read_committed; ExecLockTable;
                                     ExecLockInsert COORD_WR_insert; TxAbort])).
Proof.
  split; [reflexivity|].
  exact (proj2 (proj2 (lockArray_read_committed_single_policy
                         (Scenario.coord 1 0 CRT) None [] COORD_WR_insert eq_refl))).
Defined.

(** C2 as stated fails: the coordinator's CRT acquisition on the empty table
    sends its insert in a read-committed transaction, and a serialization
    conflict is not retried although four more tries are in the budget. *)
Lemma lockArray_serializable_counterexample :
  la_events (_lockArray None (Scenario.coord 1 0 CRT) None [])
  = [TxBegin read_committed; ExecLockTable; ExecLockInsert COORD_WR_insert; TxCommit]
  /\ ~ In (TxBegin serializable)
          (la_events (_lockArray None (Scenario.coord 1 0 CRT) None []))
  /\ fst (lockArray 5 None
            ([Some (statement_failed
                      "ERROR:  could not serialize access due to concurrent update")],
             (Scenario.coord 1 0 CRT, [], [])))
     = Throw (SystemException SCIDB_SE_SYSCAT SCIDB_LE_PG_QUERY_EXECUTION_FAILED).
Proof.
  repeat split.
  vm_compute. intuition discriminate.
Qed.

(** ** The call and its attempt *)

Lemma execLockInsert_throw sql params tbl e :
  execLockInsert sql params tbl = PgThrow e -> e <> broken_connection.
Proof.
  unfold execLockInsert. intros H Hb. subst e.
  repeat match type of H with
         | match ?x with _ => _ end = _ => destruct x; try discriminate
         | (if ?c then _ else _) = _ => destruct c
         | insertResult _ _ = _ => apply insertResult_throw in H; discriminate
         end.
Qed.

Lemma statements_no_broken_connection sql ld tbl :
  match lockArrayStatements None sql ld tbl with
  | PqxxThrown e _ => e <> broken_connection
  | Thrown e _ => isBrokenConnection e = false
  | Executed _ _ _ _ | ConversionFailed _ _ => True
  end.
Proof.
  unfold lockArrayStatements, execInsert, exec, stampRead.
  destruct (getLockMode ld), (getInstanceRole ld); simpl; auto;
    match goal with
    | |- context [execLockInsert ?s ?p ?t] =>
        destruct (execLockInsert s p t) as [out n tbl'|e] eqn:E;
        [|now apply execLockInsert_throw in E]
    end; auto;
    try destruct (n =? 1); try destruct (n =? 0); simpl; auto;
    match goal with
    | |- context [lockReadSql ?a ?b ?c ?t] =>
        destruct (lockReadSql a b c t) as [|? [|? ?]]; simpl; auto
    end;
    match goal with
    | |- context [stampFromRow ?r ?l] => destruct (stampFromRow r l); auto
    end.
Qed.

(** On a store that answers, the connection-loss policy has nothing to retry:
    the call is its first attempt. *)
Lemma lockArray_store_answers n ec faults ld tbl log :
  lockArray (S n) ec (None :: faults, (ld, tbl, log))
  = (la_outcome (_lockArray None ld ec tbl),
     (faults, (la_lockDesc (_lockArray None ld ec tbl),
               la_table (_lockArray None ld ec tbl),
               log ++ la_events (_lockArray None ld ec tbl)))).
Proof.
  unfold lockArray. simpl.
  destruct (la_outcome (_lockArray None ld ec tbl)) as [b|e] eqn:Ho; [reflexivity|].
  assert (Hnb : isBrokenConnection e = false).
  { revert Ho. unfold _lockArray.
    destruct (getLockInsertSql ld) as [sql|e0] eqn:Hsql.
    - pose proof (statements_no_broken_connection sql ld tbl) as Hs.
      destruct (lockArrayStatements None sql ld tbl)
        as [k ld' tbl' ev|e' ev|ld' ev|e' ev]; simpl.
      + destruct (k =? 1); simpl; [discriminate|].
        destruct (InstanceRole_eqb _ _); simpl; [discriminate|].
        destruct ec as [[]|]; intros [= <-]; reflexivity.
      + destruct e'; simpl; try congruence.
        * destruct (isLocked ld); simpl.
          -- destruct (InstanceRole_eqb _ _); intros [= <-]; reflexivity.
          -- intros [= <-]. reflexivity.
        * intros [= <-]. reflexivity.
        * intros [= <-]. reflexivity.
      + intros [= <-]. reflexivity.
      + simpl. now intros [= <-].
    - simpl. intros [= <-]. revert Hsql. unfold getLockInsertSql.
      destruct (getInstanceRole ld), (getLockMode ld); simpl;
        try discriminate; intros [= <-]; reflexivity. }
  now rewrite Hnb.
Qed.

(** ** Re-acquisition *)

(** C3: when lockArray hits a uniqueness violation of the store, a
    coordinator whose LockDesc records itself as locked gets true, a LockDesc
    that does not record itself as locked gets a fatal error, and a worker
    whose LockDesc records itself as locked gets an error, never the
    re-acquisition grant; the lock table and the LockDesc are left as they
    were, and that is what lockArray answers on its first try. *)
Theorem lockArray_unique_violation
        (lockDesc : LockDesc) (errorChecker : ErrorChecker) (tbl : LockTable) :
  hitsUniqueViolation lockDesc tbl ->
  let r := _lockArray None lockDesc errorChecker tbl in
  (isLocked lockDesc = true -> getInstanceRole lockDesc = COORD ->
   la_outcome r = Return true)
  /\ (isLocked lockDesc = false ->
      la_outcome r = Throw (SystemException SCIDB_SE_SYSCAT SCIDB_LE_UNKNOWN_ERROR))
  /\ (isLocked lockDesc = true -> getInstanceRole lockDesc = WORKER ->
      exists msg, la_outcome r = Throw (AssertException msg))
  /\ la_table r = tbl
  /\ la_lockDesc r = lockDesc
  /\ (forall n faults log,
        lockArray (S n) errorChecker (None :: faults, (lockDesc, tbl, log))
        = (la_outcome r, (faults, (lockDesc, tbl, log ++ la_events r)))).
Proof.
  intros (sql & ev & Hsql & Hst) r.
  assert (Hr : la_table r = tbl /\ la_lockDesc r = lockDesc)
    by (subst r; unfold _lockArray; rewrite Hsql, Hst; split; reflexivity).
  destruct Hr as [Ht Hd].
  split; [|split; [|split; [|split; [exact Ht|split; [exact Hd|]]]]].
  - subst r. unfold _lockArray. rewrite Hsql, Hst. simpl. intros -> ->. reflexivity.
  - subst r. unfold _lockArray. rewrite Hsql, Hst. simpl. intros ->. reflexivity.
  - subst r. unfold _lockArray. rewrite Hsql, Hst. simpl. intros -> ->. simpl. eauto.
  - intros n faults log. rewrite lockArray_store_answers. fold r. now rewrite Ht, Hd.
Qed.

Lemma lockArray_unique_violation_witness :
  hitsUniqueViolation Reacquire.coordAgain Reacquire.held
  /\ la_outcome (_lockArray None Reacquire.coordAgain None Reacquire.held) = Return true.
Proof.
  assert (H : hitsUniqueViolation Reacquire.coordAgain Reacquire.held).
  { exists COORD_WR_insert, [ExecLockInsert COORD_WR_insert]. split; reflexivity. }
  split; [exact H|].
  exact (proj1 (lockArray_unique_violation Reacquire.coordAgain None Reacquire.held H)
               eq_refl eq_refl).
Defined.

(** A worker that asks for the WR lock it already holds runs into the
    uniqueness violation and gets an error, locked or not. *)
Example worker_WR_twice :
  hitsUniqueViolation Reacquire.workerAgain Reacquire.held
  /\ la_outcome (_lockArray None Reacquire.workerAgain None Reacquire.held)
     = Throw (AssertException
                "On a worker instance the array lock cannot be acquired more than once")
  /\ la_outcome (_lockArray None Reacquire.workerFresh None Reacquire.held)
     = Throw (SystemException SCIDB_SE_SYSCAT SCIDB_LE_UNKNOWN_ERROR).
Proof.
  split; [|split; reflexivity].
  exists WORKER_WR_insert, [ExecLockInsert WORKER_WR_insert]. split; reflexivity.
Qed.

(** ** Requests of workers and readers *)

(** C4 fails on the code: a worker's RNF request is rejected by
    getLockInsertSql as an invalid lock request before any statement is sent,
    whatever the lock table holds; the WORKER-RNF branch of _lockArray is
    never reached and no row is copied. *)
Theorem worker_RNF_rejected
        (fault : Fault) (arrayName : string)
        (arrayId queryId instanceId arrayVersionId arrayCatalogId arrayVersion : Z)
        (locked : bool) (errorChecker : ErrorChecker) (tbl : LockTable) :
  let lockDesc := mkLockDesc arrayName arrayId queryId instanceId arrayVersionId
                             arrayCatalogId arrayVersion WORKER RNF locked in
  _lockArray fault lockDesc errorChecker tbl
  = mkLockArrayResult (Throw invalidLockRequested) lockDesc tbl [].
Proof. reflexivity. Qed.

Example worker_RNF_with_coordinator_row :
  la_outcome (_lockArray None (Scenario.worker 1 2 RNF) None Readers.renaming)
  = Throw (SystemException SCIDB_SE_INTERNAL SCIDB_LE_INVALID_FUNCTION_ARGUMENT)
  /\ la_table (_lockArray None (Scenario.worker 1 2 RNF) None Readers.renaming)
     = Readers.renaming.
Proof. split; reflexivity. Qed.

Lemma sameKey_rowOf ld r : sameKey (rowOf ld) r = keyOf ld r.
Proof.
  unfold sameKey, keyOf, rowOf. simpl.
  now rewrite String.eqb_sym, (Z.eqb_sym (getQueryId ld)), (Z.eqb_sym (getInstanceId ld)).
Qed.

Lemma fresh_key ld tbl :
  (forall r, In r tbl -> keyOf ld r = false) ->
  existsb (sameKey (rowOf ld)) tbl = false.
Proof.
  intros H. destruct (existsb (sameKey (rowOf ld)) tbl) eqn:E; [|reflexivity].
  apply existsb_exists in E as (r & Hr & Hk). rewrite sameKey_rowOf, (H r Hr) in Hk.
  discriminate.
Qed.

(** C5, amended: a coordinator's RD acquisition whose key (arrayName,
    queryId, instanceId) is not yet in the lock table succeeds (its
    conditional insert affects one row and lockArray returns true) if and
    only if no existing row for the same array name has a lock mode greater
    than CRT and is held by a coordinator; RD is not valid for a worker to
    originate. *)
Theorem coordinator_RD_predicate
        (lockDesc : LockDesc) (errorChecker : ErrorChecker) (tbl : LockTable) :
  getInstanceRole lockDesc = COORD ->
  getLockMode lockDesc = RD ->
  (forall r, In r tbl -> keyOf lockDesc r = false) ->
  let unblocked :=
    forall r, In r tbl -> array_name r = getArrayName lockDesc ->
              instance_role r = roleCode COORD -> lock_mode r <= modeCode CRT in
  (granted lockDesc tbl (tbl ++ [rowOf lockDesc]) <-> unblocked)
  /\ (_lockArray None lockDesc errorChecker tbl
      = mkLockArrayResult (Return true) (setLocked true lockDesc)
          (tbl ++ [rowOf lockDesc])
          [TxBegin read_committed; ExecLockTable; ExecLockInsert COORD_RD_insert; TxCommit]
      <-> unblocked)
  /\ (la_outcome (_lockArray None lockDesc errorChecker tbl) = Return true <-> unblocked)
  /\ (forall n faults log,
        fst (lockArray (S n) errorChecker (None :: faults, (lockDesc, tbl, log)))
        = Return true <-> unblocked)
  /\ (forall fault worker errorChecker' tbl',
        getInstanceRole worker = WORKER -> getLockMode worker = RD ->
        _lockArray fault worker errorChecker' tbl'
        = mkLockArrayResult (Throw invalidLockRequested) worker tbl' []).
Proof.
  intros Hrole Hmode Hfresh unblocked.
  set (guard := existsb (fun AVL => String.eqb (array_name AVL) (getArrayName lockDesc)
                                    && (lock_mode AVL >? 3)
                                    && (instance_role AVL =? 1)) tbl).
  assert (Hguard : guard = false <-> unblocked).
  { unfold unblocked, guard. split.
    - intros G r Hr Hn Hc. apply (existsb_false_forall _ _ _ G) in Hr.
      apply String.eqb_eq in Hn. apply Z.eqb_eq in Hc. simpl in Hc.
      rewrite Hn, Hc, andb_true_r in Hr. simpl in *.
      rewrite Z.gtb_ltb in Hr. now apply Z.ltb_ge in Hr.
    - intros U. destruct (existsb _ tbl) eqn:E; [|reflexivity].
      apply existsb_exists in E as (r & Hr & Hp).
      apply andb_prop in Hp as [Hp Hc]. apply andb_prop in Hp as [Hn Hm].
      apply String.eqb_eq in Hn. apply Z.eqb_eq in Hc.
      specialize (U r Hr Hn Hc). simpl in U. rewrite Z.gtb_ltb in Hm.
      apply Z.ltb_lt in Hm. lia. }
  pose proof (fresh_key lockDesc tbl Hfresh) as Hk.
  assert (Hst : lockArrayStatements None COORD_RD_insert lockDesc tbl
                = if guard then Executed 0 lockDesc tbl [ExecLockInsert COORD_RD_insert]
                  else Executed 1 lockDesc (tbl ++ [rowOf lockDesc])
                                [ExecLockInsert COORD_RD_insert]).
  { unfold lockArrayStatements, execInsert, exec. rewrite Hmode, Hrole. simpl.
    fold guard. destruct guard; [reflexivity|].
    assert (Hrow : rowOf lockDesc
                   = mkLockRow (getArrayName lockDesc) (getArrayId lockDesc)
                               (getQueryId lockDesc) (getInstanceId lockDesc)
                               (getArrayVersionId lockDesc) (getArrayVersion lockDesc) 1 1)
      by (unfold rowOf; now rewrite Hrole, Hmode).
    unfold insertResult. rewrite <- Hrow, insertRows_fresh by exact Hk. reflexivity. }
  assert (Hsql : getLockInsertSql lockDesc = Return COORD_RD_insert)
    by (unfold getLockInsertSql; now rewrite Hrole, Hmode).
  assert (Hrun : _lockArray None lockDesc errorChecker tbl
                 = if guard
                   then mkLockArrayResult
                          (match errorChecker with
                           | Some false => Return false
                           | _ => Throw LockBusyException
                           end) lockDesc tbl
                          [TxBegin read_committed; ExecLockTable;
                           ExecLockInsert COORD_RD_insert; TxCommit]
                   else mkLockArrayResult (Return true) (setLocked true lockDesc)
                          (tbl ++ [rowOf lockDesc])
                          [TxBegin read_committed; ExecLockTable;
                           ExecLockInsert COORD_RD_insert; TxCommit]).
  { unfold _lockArray. rewrite Hsql, Hst. destruct guard; simpl; [|reflexivity].
    now rewrite Hrole. }
  repeat split.
  - intros (sql & ld' & ev & Hsql' & Hst'). apply Hguard.
    rewrite Hsql in Hsql'. injection Hsql' as <-. rewrite Hst in Hst'.
    destruct guard; [discriminate|reflexivity].
  - intros U. apply Hguard in U. exists COORD_RD_insert, lockDesc,
      [ExecLockInsert COORD_RD_insert]. split; [assumption|]. now rewrite Hst, U.
  - intros H. apply Hguard. rewrite Hrun in H. destruct guard; [|reflexivity].
    destruct errorChecker as [[]|]; discriminate.
  - intros U. apply Hguard in U. now rewrite Hrun, U.
  - intros H. apply Hguard. rewrite Hrun in H. destruct guard; [|reflexivity].
    destruct errorChecker as [[]|]; discriminate.
  - intros U. apply Hguard in U. now rewrite Hrun, U.
  - rewrite lockArray_store_answers. simpl.
    intros H. apply Hguard. rewrite Hrun in H. destruct guard; [|reflexivity].
    destruct errorChecker as [[]|]; discriminate.
  - rewrite lockArray_store_answers. simpl.
    intros U. apply Hguard in U. now rewrite Hrun, U.
  - intros fault worker ec' tbl' Hr Hm. unfold _lockArray, getLockInsertSql.
    now rewrite Hr, Hm.
Qed.

Lemma coordinator_RD_predicate_witness :
  getInstanceRole (Scenario.coord 2 1 RD) = COORD
  /\ getLockMode (Scenario.coord 2 1 RD) = RD
  /\ (forall r, In r Readers.creating -> keyOf (Scenario.coord 2 1 RD) r = false)
  /\ (la_outcome (_lockArray None (Scenario.coord 2 1 RD) None Readers.creating)
      = Return true
      <-> forall r, In r Readers.creating ->
                    array_name r = getArrayName (Scenario.coord 2 1 RD) ->
                    instance_role r = roleCode COORD -> lock_mode r <= modeCode CRT).
Proof.
  assert (Hfresh : forall r, In r Readers.creating ->
                             keyOf (Scenario.coord 2 1 RD) r = false)
    by (intros r [<-|[]]; reflexivity).
  repeat split; try exact Hfresh;
    apply (coordinator_RD_predicate (Scenario.coord 2 1 RD) None Readers.creating
                                    eq_refl eq_refl Hfresh).
Defined.

(** C5 as stated fails: while the coordinator of query 1 holds CRT on A (a
    mode greater than RD, held by a coordinator), the coordinator of query 2
    is granted RD on A; and where no row of A has a mode greater than RD,
    the request of a coordinator whose key is already in the table affects
    no row: the store answers with a uniqueness violation. *)
Lemma coordinator_RD_counterexample :
  (_lockArray None (Scenario.coord 2 1 RD) None Readers.creating
   = mkLockArrayResult (Return true) (setLocked true (Scenario.coord 2 1 RD))
       (Readers.creating ++ [rowOf (Scenario.coord 2 1 RD)])
       [TxBegin read_committed; ExecLockTable; ExecLockInsert COORD_RD_insert; TxCommit]
   /\ exists r, In r Readers.creating
                /\ array_name r = getArrayName (Scenario.coord 2 1 RD)
                /\ instance_role r = roleCode COORD
                /\ modeCode RD < lock_mode r)
  /\ (_lockArray None (Scenario.coord 2 1 RD) None Readers.reading
      = mkLockArrayResult (Throw (SystemException SCIDB_SE_SYSCAT SCIDB_LE_UNKNOWN_ERROR))
          (Scenario.coord 2 1 RD) Readers.reading
          [TxBegin read_committed; ExecLockTable; ExecLockInsert COORD_RD_insert; TxAbort]
      /\ forall r, In r Readers.reading -> lock_mode r <= modeCode RD).
Proof.
  split; split; try reflexivity.
  - exists (mkLockRow Scenario.A 0 1 0 0 0 (roleCode COORD) (modeCode CRT)).
    repeat split; simpl; auto.
  - intros r [<-|[]]. simpl. lia.
Qed.

Lemma as_uint64_unsigned v : 0 <= v -> as_uint64 v = Some v.
Proof. unfold as_uint64. intros H. destruct (Z.ltb_spec v 0); [lia|reflexivity]. Qed.

Lemma as_uint64_negative v : v < 0 -> as_uint64 v = None.
Proof. unfold as_uint64. intros H. destruct (Z.ltb_spec v 0); [reflexivity|lia]. Qed.

Lemma unsignedIds_spec r :
  unsignedIds r = true
  <-> 0 <= array_version r /\ 0 <= array_id r /\ 0 <= array_version_id r.
Proof. unfold unsignedIds. rewrite !andb_true_iff, !Z.leb_le. tauto. Qed.

(** The three conversions succeed exactly on a row with unsigned ids, and
    the setters then leave the descriptor with the row's values. *)
Lemma stampFromRow_unsigned r ld :
  unsignedIds r = true -> stampFromRow r ld = Stamp (withRowIds r ld).
Proof.
  intros H. apply unsignedIds_spec in H as (Hv & Ha & Hi).
  unfold stampFromRow. now rewrite !as_uint64_unsigned by assumption.
Qed.

Lemma stampFromRow_signed r ld :
  unsignedIds r = false -> exists ld', stampFromRow r ld = StampFailed ld'.
Proof.
  intros H. unfold stampFromRow.
  destruct (Z.ltb_spec (array_version r) 0) as [Hv|Hv].
  { rewrite as_uint64_negative by assumption. eauto. }
  rewrite as_uint64_unsigned by assumption.
  destruct (Z.ltb_spec (array_id r) 0) as [Ha|Ha].
  { rewrite as_uint64_negative by assumption. eauto. }
  rewrite as_uint64_unsigned by assumption.
  destruct (Z.ltb_spec (array_version_id r) 0) as [Hi|Hi].
  { rewrite as_uint64_negative by assumption. eauto. }
  exfalso. assert (Ht : unsignedIds r = true) by (apply unsignedIds_spec; auto).
  congruence.
Qed.

Lemma stampFromRow_Stamp r ld ld' :
  stampFromRow r ld = Stamp ld' -> unsignedIds r = true /\ ld' = withRowIds r ld.
Proof.
  intros H. destruct (unsignedIds r) eqn:E.
  - rewrite (stampFromRow_unsigned r ld E) in H. now injection H as <-.
  - destruct (stampFromRow_signed r ld E) as [x Hx]. congruence.
Qed.



Lemma readBack_In ld tbl r :
  In r (readBack ld tbl) <-> In r tbl /\ keyOf ld r = true.
Proof. unfold readBack, lockReadSql, keyOf. now rewrite filter_In. Qed.

Lemma readBack_app ld t1 t2 :
  readBack ld (t1 ++ t2) = readBack ld t1 ++ readBack ld t2.
Proof. unfold readBack, lockReadSql. apply filter_app. Qed.

Lemma readBack_none ld tbl :
  (forall x, In x tbl -> keyOf ld x = false) -> readBack ld tbl = [].
Proof.
  intros H. induction tbl as [|x tbl IH]; [reflexivity|].
  unfold readBack, lockReadSql in *. simpl.
  change (String.eqb (array_name x) (getArrayName ld) && (query_id x =? getQueryId ld)
          && (instance_id x =? getInstanceId ld)) with (keyOf ld x).
  rewrite (H x) by (now left). apply IH. intros y Hy. apply H. now right.
Qed.

(** One row copied for a worker goes in when no row has its key, and is
    then the row the worker reads back. *)
Lemma copy_read_back ld c tbl out n tbl' :
  keyOf ld c = true ->
  insertResult [c] tbl = PgOk out n tbl' ->
  tbl' = tbl ++ [c] /\ n = 1 /\ readBack ld tbl' = [c].
Proof.
  intros Hk IR. unfold insertResult in IR. simpl in IR.
  destruct (existsb (sameKey c) tbl) eqn:E; [discriminate|].
  injection IR as _ <- <-. split; [reflexivity|]. split; [reflexivity|].
  rewrite readBack_app, readBack_none.
  - unfold readBack, lockReadSql. simpl.
    change (String.eqb (array_name c) (getArrayName ld) && (query_id c =? getQueryId ld)
            && (instance_id c =? getInstanceId ld)) with (keyOf ld c).
    now rewrite Hk.
  - intros x Hx. pose proof (existsb_false_forall _ _ _ E x Hx) as Hs.
    unfold sameKey in Hs. unfold keyOf in *.
    apply andb_prop in Hk as [Hk Hi]. apply andb_prop in Hk as [Hn Hq].
    apply String.eqb_eq in Hn. apply Z.eqb_eq in Hq, Hi.
    rewrite Hn, Hq, Hi in Hs.
    now rewrite String.eqb_sym, (Z.eqb_sym (query_id x)), (Z.eqb_sym (instance_id x)).
Qed.

(** The coordinator rows a worker statement selects carry the array name and
    query id of the request, and their copy the worker's key. *)
Lemma copy_of_coordinator ld (sel : LockRow -> bool) tbl c' :
  (forall c, sel c = true ->
     String.eqb (array_name c) (getArrayName ld) = true
     /\ (query_id c =? getQueryId ld) = true
     /\ (instance_role c =? 1) = true) ->
  In c' (map (stamp (getInstanceId ld) (roleCode WORKER)) (filter sel tbl)) ->
  keyOf ld c' = true
  /\ exists c, In c tbl
               /\ array_name c = getArrayName ld
               /\ query_id c = getQueryId ld
               /\ instance_role c = roleCode COORD
               /\ c' = stamp (getInstanceId ld) (roleCode WORKER) c.
Proof.
  intros Hsel Hin. apply in_map_iff in Hin as (c & <- & Hc).
  apply filter_In in Hc as [Hc Hs]. destruct (Hsel c Hs) as (Hn & Hq & Hr).
  split.
  - unfold keyOf, stamp. simpl. now rewrite Hn, Hq, Z.eqb_refl.
  - exists c. apply String.eqb_eq in Hn. apply Z.eqb_eq in Hq, Hr. auto.
Qed.

(** A worker is granted only at the test of [affectedRows]. *)
Lemma worker_granted_statements f ld ec tbl sql :
  getLockInsertSql ld = Return sql ->
  getInstanceRole ld = WORKER ->
  la_outcome (_lockArray f ld ec tbl) = Return true ->
  exists ld' tbl' ev,
    lockArrayStatements f sql ld tbl = Executed 1 ld' tbl' ev
    /\ la_lockDesc (_lockArray f ld ec tbl) = setLocked true ld'
    /\ la_table (_lockArray f ld ec tbl) = tbl'.
Proof.
  intros Hsql Hrole. unfold _lockArray. rewrite Hsql.
  destruct (lockArrayStatements f sql ld tbl) as [n ld' tbl' ev|e ev|ld' ev|e ev].
  - destruct (Z.eqb_spec n 1) as [->|Hne]; simpl.
    + intros _. exists ld', tbl', ev. auto.
    + destruct (InstanceRole_eqb (getInstanceRole ld') WORKER); simpl; [discriminate|].
      destruct ec as [[]|]; discriminate.
  - destruct e; simpl; try discriminate.
    rewrite Hrole. destruct (isLocked ld); discriminate.
  - discriminate.
  - discriminate.
Qed.

Lemma stampRead_Executed n row ld tbl ev k ld' tbl' ev' :
  stampRead n row ld tbl ev = Executed k ld' tbl' ev' ->
  unsignedIds row = true /\ k = n /\ ld' = withRowIds row ld /\ tbl' = tbl /\ ev' = ev.
Proof.
  unfold stampRead. destruct (stampFromRow row ld) as [x|x] eqn:E; [|discriminate].
  intros H. injection H as <- <- <- <-. apply stampFromRow_Stamp in E as [Hu ->]. auto.
Qed.

Lemma stampRead_unsigned n row ld tbl ev :
  unsignedIds row = true ->
  stampRead n row ld tbl ev = Executed n (withRowIds row ld) tbl ev.
Proof. intros Hu. unfold stampRead. now rewrite (stampFromRow_unsigned row ld Hu). Qed.

(** The descriptor of the same request with other array ids. *)
Lemma withRowIds_own row ld a b c :
  withRowIds row (setArrayVersionId b (setArrayId a (setArrayVersion c ld)))
  = withRowIds row ld.
Proof. now destruct ld. Qed.

(** The statements of a worker that is granted: the row whose ids it takes
    is the copy of the coordinator's row this call wrote or, for XCL, the row
    that was already there; and the statements do the same for a descriptor
    of the same request with other array ids. *)
Lemma worker_statements_granted f sql ld tbl ld' tbl' ev :
  getInstanceRole ld = WORKER ->
  getLockInsertSql ld = Return sql ->
  lockArrayStatements f sql ld tbl = Executed 1 ld' tbl' ev ->
  exists row,
    keyOf ld row = true
    /\ unsignedIds row = true
    /\ ld' = withRowIds row ld
    /\ ((exists c, In c tbl
                   /\ array_name c = getArrayName ld
                   /\ query_id c = getQueryId ld
                   /\ instance_role c = roleCode COORD
                   /\ row = stamp (getInstanceId ld) (roleCode WORKER) c
                   /\ tbl' = tbl ++ [row])
        \/ (getLockMode ld = XCL /\ In row tbl /\ tbl' = tbl))
    /\ forall a b c,
         lockArrayStatements f sql
           (setArrayVersionId b (setArrayId a (setArrayVersion c ld))) tbl
         = Executed 1 (withRowIds row ld) tbl' ev.
Proof.
  intros Hrole Hsql Hst.
  assert (Hown : forall a b c row n t e,
            unsignedIds row = true ->
            stampRead n row (setArrayVersionId b (setArrayId a (setArrayVersion c ld))) t e
            = Executed n (withRowIds row ld) t e).
  { intros a b c row n t e Hu. rewrite stampRead_unsigned by assumption.
    now rewrite withRowIds_own. }
  unfold getLockInsertSql in Hsql. rewrite Hrole in Hsql.
  unfold lockArrayStatements, exec, execInsert in *.
  assert (Hg : forall a b c,
            getLockMode (setArrayVersionId b (setArrayId a (setArrayVersion c ld)))
            = getLockMode ld
            /\ getInstanceRole (setArrayVersionId b (setArrayId a (setArrayVersion c ld)))
               = getInstanceRole ld
            /\ getArrayName (setArrayVersionId b (setArrayId a (setArrayVersion c ld)))
               = getArrayName ld
            /\ getQueryId (setArrayVersionId b (setArrayId a (setArrayVersion c ld)))
               = getQueryId ld
            /\ getInstanceId (setArrayVersionId b (setArrayId a (setArrayVersion c ld)))
               = getInstanceId ld) by (intros; now destruct ld).
  rewrite Hrole in Hst.
  destruct f as [f|].
  { destruct (getLockMode ld); simpl in Hsql; try discriminate;
      injection Hsql as <-; discriminate. }
  destruct (getLockMode ld) eqn:Hmode; simpl in Hsql; try discriminate;
    injection Hsql as <-; simpl execLockInsert in Hst.
  - (* WR *)
    match type of Hst with context [insertResult (map ?st (filter ?sel tbl)) tbl] =>
      assert (Hcopy : forall c', In c' (map st (filter sel tbl)) ->
                keyOf ld c' = true
                /\ exists c, In c tbl /\ array_name c = getArrayName ld
                             /\ query_id c = getQueryId ld
                             /\ instance_role c = roleCode COORD
                             /\ c' = stamp (getInstanceId ld) (roleCode WORKER) c);
      [ intros c'; apply (copy_of_coordinator ld sel tbl c'); intros c Hc;
        apply andb_prop in Hc as [Hc _]; apply andb_prop in Hc as [Hc Hr];
        apply andb_prop in Hc as [Hn Hq]; auto
      | remember (map st (filter sel tbl)) as copies eqn:Hcopies;
        destruct (insertResult copies tbl) as [out n t|e] eqn:IR; [|discriminate] ]
    end.
    destruct (Z.eqb_spec n 1) as [Hone|Hne].
    2:{ injection Hst as Hn _ _ _. contradiction. }
    pose proof (insertResult_ok _ _ _ _ _ IR) as (_ & Hlen & _).
    destruct copies as [|c' [|c'' rest]]; simpl in Hlen; try lia.
    destruct (Hcopy c' (or_introl eq_refl)) as (Hk & c & Hin & Hn & Hq & Hr & Hc').
    destruct (copy_read_back ld c' tbl out n t Hk IR) as (-> & _ & Hread).
    unfold readBack in Hread. rewrite Hread in Hst.
    apply stampRead_Executed in Hst as (Hu & _ & -> & -> & ->).
    exists c'. split; [assumption|]. split; [assumption|]. split; [reflexivity|].
    split; [left; exists c; auto 7|].
    intros a b c0. destruct (Hg a b c0) as (-> & -> & -> & -> & ->).
    rewrite ?Hmode, Hrole. simpl execLockInsert. rewrite <- Hcopies, IR.
    rewrite Hone. simpl. rewrite Hread. now apply Hown.
  - (* XCL *)
    match type of Hst with context [insertResult (map ?st (filter ?sel tbl)) tbl] =>
      assert (Hcopy : forall c', In c' (map st (filter sel tbl)) ->
                keyOf ld c' = true
                /\ exists c, In c tbl /\ array_name c = getArrayName ld
                             /\ query_id c = getQueryId ld
                             /\ instance_role c = roleCode COORD
                             /\ c' = stamp (getInstanceId ld) (roleCode WORKER) c);
      [ intros c'; apply (copy_of_coordinator ld sel tbl c'); intros c Hc;
        apply andb_prop in Hc as [Hc _]; apply andb_prop in Hc as [Hc _];
        apply andb_prop in Hc as [Hc Hr];
        apply andb_prop in Hc as [Hn Hq]; auto
      | remember (map st (filter sel tbl)) as copies eqn:Hcopies;
        destruct (insertResult copies tbl) as [out n t|e] eqn:IR; [|discriminate] ]
    end.
    pose proof (insertResult_ok _ _ _ _ _ IR) as (Ht & Hlen & _).
    destruct ((n =? 1) || (n =? 0)) eqn:Hn01; [|discriminate].
    fold (readBack ld t) in Hst.
    destruct copies as [|c' [|c'' rest]]; simpl in Hlen.
    + (* nothing copied: the row read back was there *)
      rewrite app_nil_r in Ht. subst t.
      destruct (readBack ld tbl) as [|row [|row' more]] eqn:Hread; try discriminate.
      apply stampRead_Executed in Hst as (Hu & _ & -> & -> & ->).
      assert (Hin : In row (readBack ld tbl)) by (rewrite Hread; now left).
      apply readBack_In in Hin as [Hin Hk].
      exists row. split; [assumption|]. split; [assumption|]. split; [reflexivity|].
      split; [right; auto|].
      intros a b c0. destruct (Hg a b c0) as (-> & -> & -> & -> & ->).
      rewrite ?Hmode, Hrole. simpl execLockInsert. rewrite <- Hcopies, IR, Hn01.
      fold (readBack ld tbl). rewrite Hread. now apply Hown.
    + (* the coordinator's row copied *)
      destruct (Hcopy c' (or_introl eq_refl)) as (Hk & c & Hin & Hn & Hq & Hr & Hc').
      destruct (copy_read_back ld c' tbl out n t Hk IR) as (-> & _ & Hread).
      rewrite Hread in Hst.
      apply stampRead_Executed in Hst as (Hu & _ & -> & -> & ->).
      exists c'. split; [assumption|]. split; [assumption|]. split; [reflexivity|].
      split; [left; exists c; auto 7|].
      intros a b c0. destruct (Hg a b c0) as (-> & -> & -> & -> & ->).
      rewrite ?Hmode, Hrole. simpl execLockInsert. rewrite <- Hcopies, IR, Hn01.
      fold (readBack ld (tbl ++ [c'])). rewrite Hread. now apply Hown.
    + exfalso. assert (n = 0 \/ n = 1) by
        (apply orb_prop in Hn01 as [H|H]; apply Z.eqb_eq in H; auto).
      lia.
Qed.

(** Whatever a worker is granted, its LockDesc carries the array ids of a
    row with its key: the copy of the coordinator's row this call wrote, or,
    for XCL, the row that was already there. *)
Lemma worker_grant_from_table fault ld ec tbl :
  getInstanceRole ld = WORKER ->
  la_outcome (_lockArray fault ld ec tbl) = Return true ->
  exists row,
    keyOf ld row = true
    /\ unsignedIds row = true
    /\ la_lockDesc (_lockArray fault ld ec tbl) = setLocked true (withRowIds row ld)
    /\ ((exists c, In c tbl
                   /\ array_name c = getArrayName ld
                   /\ query_id c = getQueryId ld
                   /\ instance_role c = roleCode COORD
                   /\ row = stamp (getInstanceId ld) (roleCode WORKER) c
                   /\ la_table (_lockArray fault ld ec tbl) = tbl ++ [row])
        \/ (getLockMode ld = XCL /\ In row tbl
            /\ la_table (_lockArray fault ld ec tbl) = tbl)).
Proof.
  intros Hrole Ho.
  destruct (getLockInsertSql ld) as [sql|e] eqn:Hsql.
  2:{ unfold _lockArray in Ho. rewrite Hsql in Ho. discriminate. }
  destruct (worker_granted_statements fault ld ec tbl sql Hsql Hrole Ho)
    as (ld' & t & ev & Hst & -> & ->).
  destruct (worker_statements_granted fault sql ld tbl ld' t ev Hrole Hsql Hst)
    as (row & Hk & Hu & -> & Hfrom & _).
  exists row. auto.
Qed.




(** A row with a negative array id under the worker's key: the conversion
    fails, the call raises and nothing is written. *)
Example worker_XCL_negative_id :
  let tbl := [mkLockRow Scenario.A (-1) 1 2 11 1 (roleCode WORKER) (modeCode XCL)] in
  la_outcome (_lockArray None (Scenario.worker 1 2 XCL) None tbl)
  = Throw (SystemException SCIDB_SE_SYSCAT SCIDB_LE_UNKNOWN_ERROR)
  /\ la_table (_lockArray None (Scenario.worker 1 2 XCL) None tbl) = tbl
  /\ getArrayVersion (la_lockDesc (_lockArray None (Scenario.worker 1 2 XCL) None tbl)) = 1
  /\ getArrayId (la_lockDesc (_lockArray None (Scenario.worker 1 2 XCL) None tbl)) = 0.
Proof. repeat split. Qed.

(** The first acquisition copies the coordinator's row, stamped with the
    worker's instance id, and takes its array ids. *)
Example worker_XCL_first :
  _lockArray None (Scenario.worker 1 2 XCL) None Exclusive.coordHolds
  = mkLockArrayResult (Return true)
      (mkLockDesc Scenario.A 10 1 2 11 0 1 WORKER XCL true)
      Exclusive.workerHolds
      [TxBegin read_committed; ExecLockTable; ExecLockInsert WORKER_XCL_insert;
       ExecLockRead; TxCommit].
Proof. reflexivity. Qed.

(** Without the coordinator's row the worker gets false. *)
Example worker_XCL_no_coordinator :
  la_outcome (_lockArray None (Scenario.worker 1 2 XCL) None []) = Return false.
Proof. reflexivity. Qed.

(** ** deleteArrayLocks *)

Lemma filter_partition_perm (A : Type) (p : A -> bool) (l : list A) :
  Permutation l (filter p l ++ filter (fun x => negb (p x)) l).
Proof.
  induction l as [|x l IH]; simpl; [constructor|].
  destruct (p x); simpl.
  - now constructor.
  - now apply Permutation_cons_app.
Qed.

Lemma roleCode_inj a b : roleCode a = roleCode b -> a = b.
Proof. destruct a, b; simpl; intros H; congruence || discriminate. Qed.

Lemma deleteFilter_spec iq instanceId queryId role r :
  deleteFilter iq instanceId queryId role r = true
  <-> instance_id r = instanceId
      /\ (queryId <> iq /\ queryId <> 0 -> query_id r = queryId)
      /\ (role <> INVALID_ROLE -> instance_role r = roleCode role).
Proof.
  unfold deleteFilter, InstanceRole_eqb.
  destruct (Z.eqb_spec queryId iq) as [Hq|Hq], (Z.eqb_spec queryId 0) as [H0|H0],
           (Z.eqb_spec (roleCode role) (roleCode INVALID_ROLE)) as [Hr|Hr]; simpl;
    try apply roleCode_inj in Hr;
    rewrite ?andb_true_r, ?andb_true_iff, !Z.eqb_eq;
    intuition (try congruence).
Qed.

(** C10: deleteArrayLocks(instanceId, queryId, role) deletes exactly the
    lock rows of the instance that match the enabled filters and returns
    their number; the query filter applies only when queryId is neither
    INVALID_QUERY_ID nor 0, the role filter only when role is not
    INVALID_ROLE: with queryId 0 or INVALID_QUERY_ID the locks of all queries
    of the instance go, with INVALID_ROLE the locks of both roles. *)
Theorem deleteArrayLocks_filter
        (INVALID_QUERY_ID instanceId queryId : Z) (role : InstanceRole)
        (tbl : LockTable) :
  Z.of_nat (List.length tbl) < 2 ^ 32 ->
  let matches := fun r =>
    instance_id r = instanceId
    /\ (queryId <> INVALID_QUERY_ID /\ queryId <> 0 -> query_id r = queryId)
    /\ (role <> INVALID_ROLE -> instance_role r = roleCode role) in
  let res := _deleteArrayLocks INVALID_QUERY_ID None instanceId queryId role tbl in
  (exists deleted,
     fst res = Return (Z.of_nat (List.length deleted))
     /\ Permutation tbl (deleted ++ snd res)
     /\ Forall matches deleted
     /\ Forall (fun r => ~ matches r) (snd res))
  /\ (forall r, In r (snd res) <-> In r tbl /\ ~ matches r)
  /\ (queryId = 0 \/ queryId = INVALID_QUERY_ID -> role <> INVALID_ROLE ->
      forall r, In r (snd res) <->
                In r tbl /\ ~ (instance_id r = instanceId
                               /\ instance_role r = roleCode role))
  /\ (queryId = 0 \/ queryId = INVALID_QUERY_ID -> role = INVALID_ROLE ->
      forall r, In r (snd res) <-> In r tbl /\ instance_id r <> instanceId)
  /\ (forall n,
        deleteCoordArrayLocks INVALID_QUERY_ID (S n) instanceId ([], tbl)
        = (fst (_deleteArrayLocks INVALID_QUERY_ID None instanceId INVALID_QUERY_ID
                                  COORD tbl),
           ([], filter (fun r => negb ((instance_id r =? instanceId)
                                        && (instance_role r =? roleCode COORD))) tbl))).
Proof.
  intros Hlen matches res.
  set (p := deleteFilter INVALID_QUERY_ID instanceId queryId role).
  assert (Hp : forall r, p r = true <-> matches r)
    by (intros r; apply deleteFilter_spec).
  assert (Hrem : forall r, In r (snd res) <-> In r tbl /\ ~ matches r).
  { intros r. subst res. simpl. rewrite filter_In, negb_true_iff, <- Hp.
    fold p. destruct (p r); intuition congruence. }
  split; [|split; [exact Hrem|split; [|split]]].
  - exists (filter p tbl). subst res. simpl. fold p. repeat split.
    + f_equal. apply Z.mod_small. split; [lia|].
      pose proof (filter_length_le p tbl). lia.
    + apply filter_partition_perm.
    + apply Forall_forall. intros r Hr. apply filter_In in Hr as [_ Hr]. now apply Hp.
    + apply Forall_forall. intros r Hr. now apply Hrem in Hr.
  - intros Hq Hr r. rewrite Hrem. unfold matches. intuition (try congruence).
  - intros Hq Hr r. rewrite Hrem. unfold matches. intuition (try congruence).
  - intros n. unfold deleteCoordArrayLocks, deleteArrayLocks, tableWork. simpl.
    f_equal. f_equal. apply filter_ext. intros r. unfold deleteFilter.
    rewrite Z.eqb_refl. simpl. now rewrite andb_true_r.
Qed.

Lemma deleteArrayLocks_filter_witness :
  Z.of_nat (List.length Cleanup.locks) < 2 ^ 32
  /\ forall r,
       In r (snd (_deleteArrayLocks Scenario.INVALID_QUERY_ID None 2 0 INVALID_ROLE
                                    Cleanup.locks))
       <-> In r Cleanup.locks /\ instance_id r <> 2.
Proof.
  assert (H : Z.of_nat (List.length Cleanup.locks) < 2 ^ 32) by (vm_compute; reflexivity).
  split; [exact H|].
  exact (proj1 (proj2 (proj2 (proj2
           (deleteArrayLocks_filter Scenario.INVALID_QUERY_ID 2 0 INVALID_ROLE
                                    Cleanup.locks H))))
               (or_introl eq_refl) eq_refl).
Defined.

Example deleteArrayLocks_all_of_instance :
  _deleteArrayLocks Scenario.INVALID_QUERY_ID None 2 0 INVALID_ROLE Cleanup.locks
  = (Return 3, [mkLockRow Scenario.A 10 1 0 11 1 (roleCode COORD) (modeCode WR)]).
Proof. reflexivity. Qed.

Example deleteArrayLocks_query_and_role :
  _deleteArrayLocks Scenario.INVALID_QUERY_ID None 2 8 WORKER Cleanup.locks
  = (Return 1, firstn 3 Cleanup.locks).
Proof. reflexivity. Qed.

(** ** Version catalog *)

Lemma fold_left_max_spec rest : forall x,
  let m := fold_left Z.max rest x in
  (m = x \/ In m rest) /\ x <= m /\ (forall y, In y rest -> y <= m).
Proof.
  induction rest as [|a rest IH]; simpl; intros x.
  - split; [now left|]. split; [lia|]. intros y [].
  - destruct (IH (Z.max x a)) as (Hm & Hle & Hall).
    split; [|split; [lia|]].
    + destruct Hm as [Hm|Hm]; [|now right; right].
      rewrite Hm. destruct (Z.max_spec x a) as [[_ ->]|[_ ->]]; auto.
    + intros y [<-|Hy]; [lia|auto].
Qed.

Lemma sqlMax_spec l m :
  sqlMax l = Some m -> In m l /\ (forall y, In y l -> y <= m).
Proof.
  destruct l as [|x rest]; simpl; [discriminate|]. intros [= <-].
  destruct (fold_left_max_spec rest x) as (Hin & Hle & Hall). split.
  - destruct Hin as [->|Hin]; auto.
  - intros y [<-|Hy]; auto.
Qed.

Lemma sqlMax_none l : sqlMax l = None <-> l = [].
Proof. destruct l; simpl; split; congruence. Qed.

Lemma visibleb_spec array_id catalogVersion r :
  visibleb array_id catalogVersion r = true
  <-> array_version.array_id r = array_id
      /\ array_version.version_array_id r <= catalogVersion.
Proof. unfold visibleb. now rewrite andb_true_iff, Z.eqb_eq, Z.leb_le. Qed.

(** C8: getLastVersion(baseArrayId, catalogHorizon) returns the greatest
    versionId among the base array's version rows whose versionArrayId is at
    most the horizon, and 0 when there is no such row; rows beyond the
    horizon are not reflected in the result. *)
Theorem getLastVersion_snapshot (array_id catalogVersion : Z) (cat : Catalog) :
  (forall r, In r (tbl_array_version cat) -> 0 <= array_version.version_id r) ->
  let visible := fun r =>
    array_version.array_id r = array_id
    /\ array_version.version_array_id r <= catalogVersion in
  exists v,
    _getLastVersion None array_id catalogVersion cat = (Return v, cat)
    /\ ((forall r, In r (tbl_array_version cat) -> ~ visible r) -> v = 0)
    /\ (forall r, In r (tbl_array_version cat) -> visible r ->
                  array_version.version_id r <= v)
    /\ ((exists r, In r (tbl_array_version cat) /\ visible r) ->
        exists r, In r (tbl_array_version cat) /\ visible r
                  /\ array_version.version_id r = v)
    /\ (forall cat',
          filter (visibleb array_id catalogVersion) (tbl_array_version cat')
          = filter (visibleb array_id catalogVersion) (tbl_array_version cat) ->
          fst (_getLastVersion None array_id catalogVersion cat') = Return v)
    /\ (forall n, getLastVersion (S n) array_id catalogVersion ([], cat)
                  = (Return v, ([], cat))).
Proof.
  intros Hwf visible.
  set (rows := filter (visibleb array_id catalogVersion) (tbl_array_version cat)).
  assert (Hrows : forall r, In r rows <-> In r (tbl_array_version cat) /\ visible r).
  { intros r. unfold rows. rewrite filter_In, visibleb_spec. reflexivity. }
  set (v := COALESCE (sqlMax (map array_version.version_id rows)) 0).
  assert (Hv : 0 <= v).
  { unfold v. destruct (sqlMax _) as [m|] eqn:E; simpl; [|lia].
    apply sqlMax_spec in E as [Hin _]. apply in_map_iff in Hin as (r & <- & Hr).
    apply Hrows in Hr as [Hr _]. auto. }
  assert (Hrun : forall cat',
            filter (visibleb array_id catalogVersion) (tbl_array_version cat') = rows ->
            _getLastVersion None array_id catalogVersion cat' = (Return v, cat')).
  { intros cat' E. unfold _getLastVersion, transaction, tx_bind, execSql, tx_convert.
    fold (visibleb array_id catalogVersion). unfold visibleb at 1. cbv beta.
    change (filter (fun r => (array_version.array_id r =? array_id)
                             && (array_version.version_array_id r <=? catalogVersion))
                   (tbl_array_version cat'))
      with (filter (visibleb array_id catalogVersion) (tbl_array_version cat')).
    rewrite E. fold v. unfold as_uint64.
    destruct (Z.ltb_spec v 0); [lia|reflexivity]. }
  exists v. split; [now apply Hrun|]. split; [|split; [|split; [|split]]].
  - intros Hnone. unfold v. destruct rows as [|r rest] eqn:E; [reflexivity|].
    exfalso. apply (Hnone r); apply (Hrows r); now left.
  - intros r Hr Hvis. unfold v.
    assert (Hin : In (array_version.version_id r) (map array_version.version_id rows))
      by (apply in_map, Hrows; auto).
    destruct (sqlMax _) as [m|] eqn:E; simpl.
    + apply sqlMax_spec in E as [_ Hall]. auto.
    + apply sqlMax_none in E. rewrite E in Hin. destruct Hin.
  - intros (r & Hr & Hvis). unfold v.
    assert (Hin : In (array_version.version_id r) (map array_version.version_id rows))
      by (apply in_map, Hrows; auto).
    destruct (sqlMax _) as [m|] eqn:E; simpl.
    + apply sqlMax_spec in E as [Hm _]. apply in_map_iff in Hm as (r' & <- & Hr').
      apply Hrows in Hr' as [Hr' Hvis']. eauto.
    + apply sqlMax_none in E. rewrite E in Hin. destruct Hin.
  - intros cat' E. now rewrite (Hrun cat' E).
  - intros n. unfold getLastVersion. simpl. now rewrite (Hrun cat eq_refl).
Qed.

Lemma getLastVersion_snapshot_witness :
  (forall r, In r (tbl_array_version Versions.catalog) ->
             0 <= array_version.version_id r)
  /\ exists v,
       _getLastVersion None 100 107 Versions.catalog = (Return v, Versions.catalog)
       /\ v = 2.
Proof.
  assert (H : forall r, In r (tbl_array_version Versions.catalog) ->
                        0 <= array_version.version_id r).
  { intros r Hr. simpl in Hr.
    repeat (destruct Hr as [<-|Hr]; [simpl; lia|]). destruct Hr. }
  split; [exact H|].
  destruct (getLastVersion_snapshot 100 107 Versions.catalog H) as (v & Hrun & _).
  exists v. split; [exact Hrun|].
  vm_compute in Hrun. now injection Hrun as <-.
Defined.

Example getLastVersion_examples :
  fst (_getLastVersion None 100 107 Versions.catalog) = Return 2
  /\ fst (_getLastVersion None 100 ANY_VERSION Versions.catalog) = Return 3
  /\ fst (_getLastVersion None 100 100 Versions.catalog) = Return 0
  /\ fst (_getLastVersion None 200 107 Versions.catalog) = Return 0.
Proof. repeat split. Qed.

(** ** Creating versions *)

Lemma tx_bind_inl (A B : Type) (m : Tx A) (k : A -> Tx B) fault cat b cat'' :
  tx_bind m k fault cat = inl (b, cat'') ->
  exists a cat', m fault cat = inl (a, cat') /\ k a fault cat' = inl (b, cat'').
Proof.
  unfold tx_bind. destruct (m fault cat) as [[a cat']|e]; [|discriminate]. eauto.
Qed.

Lemma ASSERT_EXCEPTION_inl cond msg fault cat u cat' :
  ASSERT_EXCEPTION cond msg fault cat = inl (u, cat') -> cond = true /\ cat' = cat.
Proof.
  unfold ASSERT_EXCEPTION. destruct cond; [|discriminate].
  unfold tx_ret. now intros [= _ <-].
Qed.

Lemma execSql_inl (A : Type) (stmt : Catalog -> A * Catalog) fault cat a cat' :
  execSql stmt fault cat = inl (a, cat') -> fault = None /\ stmt cat = (a, cat').
Proof. unfold execSql. destruct fault; [discriminate|]. now intros [= ->]. Qed.

Lemma execUnique_inl (stmt : Catalog -> option Catalog) fault cat u cat' :
  execUnique stmt fault cat = inl (u, cat') -> fault = None /\ stmt cat = Some cat'.
Proof.
  unfold execUnique. destruct fault; [discriminate|].
  destruct (stmt cat); [|discriminate]. now intros [= _ ->].
Qed.

Lemma versionsOf_withVersion array_id r cat :
  versionsOf array_id (withVersion r cat)
  = versionsOf array_id cat
    ++ (if array_version.array_id r =? array_id then [r] else []).
Proof. unfold versionsOf, withVersion. simpl. now rewrite filter_app. Qed.

Lemma lastVersionOf_range array_id cat :
  versionsInRange array_id cat -> 0 <= lastVersionOf array_id cat < MAX_VERSIONID.
Proof.
  intros Hwf. unfold lastVersionOf.
  destruct (sqlMax _) as [m|] eqn:E; simpl; [|unfold MAX_VERSIONID; lia].
  apply sqlMax_spec in E as [Hin _]. apply in_map_iff in Hin as (r & <- & Hr). auto.
Qed.

Lemma lastVersionOf_upper array_id cat r :
  In r (versionsOf array_id cat) ->
  array_version.version_id r <= lastVersionOf array_id cat.
Proof.
  intros Hr. unfold lastVersionOf.
  assert (Hin : In (array_version.version_id r)
                   (map array_version.version_id (versionsOf array_id cat)))
    by now apply in_map.
  destruct (sqlMax _) as [m|] eqn:E; simpl.
  - apply sqlMax_spec in E as [_ Hall]. auto.
  - apply sqlMax_none in E. rewrite E in Hin. destruct Hin.
Qed.

(** What [_createNewVersion] does on a store that answers. *)
Lemma createNewVersion_run timestamp array_id version_array_id cat :
  versionsInRange array_id cat ->
  _createNewVersion timestamp array_id version_array_id None cat
  = inl (lastVersionOf array_id cat + 1,
         withVersion (array_version.mk array_id version_array_id
                                       (lastVersionOf array_id cat + 1) timestamp) cat).
Proof.
  intros Hwf. pose proof (lastVersionOf_range array_id cat Hwf) as Hr.
  unfold _createNewVersion, tx_bind, execSql, tx_convert, tx_ret, as_uint64.
  fold (versionsOf array_id cat). fold (lastVersionOf array_id cat).
  destruct (Z.ltb_spec (lastVersionOf array_id cat) 0); [lia|].
  rewrite Z.mod_small by (unfold MAX_VERSIONID in Hr; lia). reflexivity.
Qed.

Lemma createNewVersion_fault timestamp array_id version_array_id f cat :
  _createNewVersion timestamp array_id version_array_id (Some f) cat
  = inr (RaisedPqxx (raised f)).
Proof. reflexivity. Qed.

Lemma lastVersionOf_next timestamp array_id version_array_id cat :
  versionsInRange array_id cat ->
  lastVersionOf array_id
    (withVersion (array_version.mk array_id version_array_id
                                   (lastVersionOf array_id cat + 1) timestamp) cat)
  = lastVersionOf array_id cat + 1.
Proof.
  intros Hwf. set (v := lastVersionOf array_id cat + 1).
  unfold lastVersionOf at 1. rewrite versionsOf_withVersion. simpl.
  rewrite Z.eqb_refl, map_app. simpl.
  destruct (sqlMax _) as [m|] eqn:E; simpl.
  - apply sqlMax_spec in E as [Hin Hall].
    assert (Hv : v <= m) by (apply Hall, in_or_app; right; now left).
    apply in_app_or in Hin as [Hin|[<-|[]]]; [|reflexivity].
    apply in_map_iff in Hin as (r & <- & Hr).
    pose proof (lastVersionOf_upper array_id cat r Hr). unfold v in *. lia.
  - apply sqlMax_none in E. now destruct (map _ _).
Qed.

Lemma createVersions_from timestamp array_id vas : forall cat k,
  (forall r, In r (versionsOf array_id cat) -> 0 <= array_version.version_id r) ->
  lastVersionOf array_id cat = k ->
  k + Z.of_nat (List.length vas) <= MAX_VERSIONID ->
  exists cat',
    createVersions timestamp array_id vas cat
    = Some (map (fun i => k + Z.of_nat i) (seq 1 (List.length vas)), cat')
    /\ lastVersionOf array_id cat' = k + Z.of_nat (List.length vas).
Proof.
  induction vas as [|va rest IH]; intros cat k Hpos Hlast Hk.
  - exists cat. simpl. split; [reflexivity|lia].
  - assert (Hwf : versionsInRange array_id cat).
    { intros r Hr. split; [auto|].
      pose proof (lastVersionOf_upper array_id cat r Hr). simpl List.length in Hk. lia. }
    simpl createVersions. rewrite (createNewVersion_run _ _ _ _ Hwf), Hlast.
    set (cat1 := withVersion _ cat).
    destruct (IH cat1 (k + 1)) as (cat' & Hrun & Hlast').
    + intros r Hr. unfold cat1 in Hr. rewrite versionsOf_withVersion in Hr. simpl in Hr.
      rewrite Z.eqb_refl in Hr. apply in_app_or in Hr as [Hr|[<-|[]]]; [auto|].
      simpl. pose proof (lastVersionOf_range array_id cat Hwf). lia.
    + unfold cat1. rewrite <- Hlast. now apply lastVersionOf_next.
    + simpl List.length in Hk. lia.
    + exists cat'. rewrite Hrun. split.
      * simpl. rewrite <- (seq_shift (List.length rest) 1), map_map.
        do 3 f_equal. apply map_ext. intros i. lia.
      * rewrite Hlast'. simpl List.length. lia.
Qed.

Lemma forEach_attributes arrId l : forall cat,
  forEach (fun '(i, attr) =>
             execSql (insertAttribute
                        (array_attribute.mk arrId i
                           (AttributeDesc.getName attr) (AttributeDesc.getType attr)
                           (AttributeDesc.getFlags attr)
                           (AttributeDesc.getDefaultCompressionMethod attr)
                           (AttributeDesc.getReserve attr)
                           (AttributeDesc.getDefaultMissingReason attr)
                           (AttributeDesc.getDefaultValueExpr attr)))) l None cat
  = inl (tt, mkCatalog (tbl_array cat)
                       (tbl_array_attribute cat ++ map (attributeRow arrId) l)
                       (tbl_array_dimension cat) (tbl_array_version cat)).
Proof.
  induction l as [|[i attr] rest IH]; intros cat; simpl.
  - unfold tx_ret. rewrite app_nil_r. now destruct cat.
  - unfold tx_bind, execSql, insertAttribute. rewrite IH. simpl.
    now rewrite <- app_assoc.
Qed.

Lemma forEach_dimensions arrId l : forall cat,
  forEach (fun '(i, dim) =>
             execSql (insertDimension
                        (array_dimension.mk arrId i
                           (DimensionDesc.getBaseName dim) (DimensionDesc.getStartMin dim)
                           (DimensionDesc.getCurrStart dim) (DimensionDesc.getCurrEnd dim)
                           (DimensionDesc.getEndMax dim)
                           (DimensionDesc.getChunkInterval dim)
                           (DimensionDesc.getChunkOverlap dim)))) l None cat
  = inl (tt, mkCatalog (tbl_array cat) (tbl_array_attribute cat)
                       (tbl_array_dimension cat ++ map (dimensionRow arrId) l)
                       (tbl_array_version cat)).
Proof.
  induction l as [|[i dim] rest IH]; intros cat; simpl.
  - unfold tx_ret. rewrite app_nil_r. now destruct cat.
  - unfold tx_bind, execSql, insertDimension. rewrite IH. simpl.
    now rewrite <- app_assoc.
Qed.

Section AddArrayFacts.
Variable psUndefined : Z.
Variable isNameUnversioned : string -> bool.
Variable getVersionFromName : string -> Z.
Variable findNamespaceTr : NamespaceDesc.t -> bool.

(** A descriptor [_addArray] accepts is written as its array row, its
    attribute rows and its dimension rows, on a store that answers. *)
Lemma addArray_inl ns desc fault cat u cat' :
  _addArray psUndefined isNameUnversioned getVersionFromName findNamespaceTr
            ns desc fault cat = inl (u, cat') ->
  fault = None /\ cat' = withArray desc cat.
Proof.
  unfold _addArray. intros H.
  apply tx_bind_inl in H as (? & c1 & H1 & H). apply ASSERT_EXCEPTION_inl in H1 as [_ ->].
  apply tx_bind_inl in H as (? & c2 & H2 & H). apply ASSERT_EXCEPTION_inl in H2 as [_ ->].
  apply tx_bind_inl in H as (? & c3 & H3 & H). apply ASSERT_EXCEPTION_inl in H3 as [_ ->].
  apply tx_bind_inl in H as (? & c4 & H4 & H).
  assert (c4 = cat) as ->.
  { destruct (existsb _ _); [discriminate|]. unfold tx_ret in H4. congruence. }
  apply tx_bind_inl in H as (? & c5 & H5 & H). apply execUnique_inl in H5 as [-> H5].
  split; [reflexivity|].
  unfold insertArray in H5. destruct (nameTaken _ cat); [discriminate|].
  injection H5 as <-.
  apply tx_bind_inl in H as (? & c6 & H6 & H). rewrite forEach_attributes in H6.
  injection H6 as _ <-.
  apply tx_bind_inl in H as (? & c7 & H7 & H). rewrite forEach_dimensions in H7.
  injection H7 as _ <-. simpl in *.
  apply tx_bind_inl in H as (? & c8 & H8 & H). unfold tx_ret in H. injection H as _ <-.
  destruct (NamespaceDesc.getId ns =? -1).
  - apply tx_bind_inl in H8 as (found & c9 & H9 & H8).
    apply execSql_inl in H9 as [_ H9]. injection H9 as _ <-.
    destruct found; [now injection H8 as _ <-|].
    destruct (String.eqb _ _); [now injection H8 as _ <-|discriminate].
  - now injection H8 as _ <-.
Qed.
End AddArrayFacts.

Lemma versionsOf_withArray array_id desc cat :
  versionsOf array_id (withArray desc cat) = versionsOf array_id cat.
Proof. reflexivity. Qed.

Lemma sqlMax_in l m : sqlMax l = Some m -> In m l.
Proof. intros H. now apply sqlMax_spec in H. Qed.

(** C7: on a base array whose version ids are in range, creating a version
    reads the greatest version id of the base array (0 when it has none),
    assigns exactly that plus one and inserts the row (base array id, new
    version array id, version id, timestamp): versions created one after the
    other on a base array without versions get 1, 2, 3, ... with no gap; and
    addArrayVersion inserts the row of the new versioned array and the
    version row in one transaction: either both are committed or the
    catalog is as it was. *)
Theorem createNewVersion_increment_atomic
        (psUndefined : Z) (isNameUnversioned : string -> bool)
        (getVersionFromName : string -> Z) (findNamespaceTr : NamespaceDesc.t -> bool)
        (timestamp array_id : Z) (cat : Catalog) :
  versionsInRange array_id cat ->
  let last := lastVersionOf array_id cat in
  (versionsOf array_id cat = [] -> last = 0)
  /\ (forall r, In r (versionsOf array_id cat) -> array_version.version_id r <= last)
  /\ (versionsOf array_id cat <> [] ->
      exists r, In r (versionsOf array_id cat) /\ array_version.version_id r = last)
  /\ (forall version_array_id,
        _createNewVersion timestamp array_id version_array_id None cat
        = inl (last + 1,
               withVersion (array_version.mk array_id version_array_id (last + 1)
                                             timestamp) cat))
  /\ (forall version_array_ids,
        versionsOf array_id cat = [] ->
        Z.of_nat (List.length version_array_ids) <= MAX_VERSIONID ->
        exists cat',
          createVersions timestamp array_id version_array_ids cat
          = Some (map Z.of_nat (seq 1 (List.length version_array_ids)), cat'))
  /\ (forall namespaceDesc unversionedDesc versionedDesc fault,
        ArrayDesc.getUAId versionedDesc = array_id ->
        let res := _addArrayVersion psUndefined isNameUnversioned getVersionFromName
                                    findNamespaceTr timestamp namespaceDesc
                                    unversionedDesc versionedDesc fault cat in
        (fst res = Return tt
         /\ In (arrayRowOf versionedDesc) (tbl_array (snd res))
         /\ tbl_array_version (snd res)
            = tbl_array_version cat
              ++ [array_version.mk array_id (ArrayDesc.getId versionedDesc)
                                   (last + 1) timestamp])
        \/ (exists e, fst res = Throw e /\ snd res = cat)).
Proof.
  intros Hwf last. split; [|split; [|split; [|split; [|split]]]].
  - intros E. unfold last, lastVersionOf. now rewrite E.
  - intros r Hr. now apply lastVersionOf_upper.
  - intros Hne. unfold last, lastVersionOf.
    destruct (sqlMax _) as [m|] eqn:E; simpl.
    + apply sqlMax_in, in_map_iff in E as (r & <- & Hr). eauto.
    + apply sqlMax_none in E. destruct (versionsOf array_id cat); [congruence|discriminate].
  - intros va. now apply createNewVersion_run.
  - intros vas Hnone Hlen.
    destruct (createVersions_from timestamp array_id vas cat 0) as (cat' & Hrun & _).
    + intros r Hr. rewrite Hnone in Hr. destruct Hr.
    + unfold lastVersionOf. now rewrite Hnone.
    + lia.
    + exists cat'. rewrite Hrun. do 2 f_equal.
  - intros ns unv ver fault Hua res. subst res.
    unfold _addArrayVersion, transaction.
    match goal with |- context [match ?b fault cat with _ => _ end] =>
      destruct (b fault cat) as [[u cat']|[e|e]] eqn:Hbody end;
      [|right; simpl; eauto|right; simpl; eauto].
    left. destruct u. simpl.
    apply tx_bind_inl in Hbody as (? & c1 & H1 & Hbody).
    apply tx_bind_inl in Hbody as (? & c2 & H2 & Hbody).
    apply tx_bind_inl in Hbody as (v & c3 & H3 & Hbody).
    unfold tx_ret in Hbody. injection Hbody as <-.
    apply addArray_inl in H2 as [-> ->].
    assert (Hc1 : versionsOf array_id c1 = versionsOf array_id cat
                  /\ tbl_array_version c1 = tbl_array_version cat).
    { destruct unv as [desc|].
      - apply addArray_inl in H1 as [_ ->]. auto.
      - unfold tx_ret in H1. injection H1 as _ <-. auto. }
    destruct Hc1 as [Hv1 Ht1].
    assert (Hwf2 : versionsInRange array_id (withArray ver c1)).
    { intros r Hr. rewrite versionsOf_withArray, Hv1 in Hr. auto. }
    rewrite Hua, (createNewVersion_run _ _ _ _ Hwf2) in H3. injection H3 as <- <-.
    split; [reflexivity|]. split.
    + simpl. apply in_or_app. right. now left.
    + simpl. rewrite Ht1. unfold last, lastVersionOf.
      now rewrite versionsOf_withArray, Hv1.
Qed.

Lemma createNewVersion_increment_atomic_witness :
  versionsInRange 100 Versions.catalog
  /\ forall version_array_id,
       _createNewVersion 1040 100 version_array_id None Versions.catalog
       = inl (lastVersionOf 100 Versions.catalog + 1,
              withVersion (array_version.mk 100 version_array_id
                             (lastVersionOf 100 Versions.catalog + 1) 1040)
                          Versions.catalog).
Proof.
  assert (H : versionsInRange 100 Versions.catalog).
  { intros r Hr. simpl in Hr.
    repeat (destruct Hr as [<-|Hr]; [simpl; unfold MAX_VERSIONID; lia|]). destruct Hr. }
  split; [exact H|].
  exact (proj1 (proj2 (proj2 (proj2
           (createNewVersion_increment_atomic
              NewVersion.psUndefined NewVersion.isNameUnversioned
              NewVersion.getVersionFromName NewVersion.findNamespaceTr
              1040 100 Versions.catalog H))))).
Defined.

(** The base array and its first version are committed together, with
    version id 1. *)
Example addArrayVersion_commits :
  NewVersion._addArrayVersion 1000 NewVersion.public (Some NewVersion.A) NewVersion.A_1
                              None NewVersion.empty
  = (Return tt,
     mkCatalog [array.mk 100 "A" 1 0; array.mk 101 "A@1" 1 0]
               [array_attribute.mk 100 0 "val" "double" 0 0 0 0 "";
                array_attribute.mk 101 0 "val" "double" 0 0 0 0 ""]
               [array_dimension.mk 100 0 "i" 0 0 9 99 10 0;
                array_dimension.mk 101 0 "i" 0 0 9 99 10 0]
               [array_version.mk 100 101 1 1000]).
Proof. reflexivity. Qed.

(** A namespace that is not found fails the call after the rows of the
    descriptor were written: nothing of them is left. *)
Example addArrayVersion_rolls_back :
  NewVersion._addArrayVersion 1000 NewVersion.private (Some NewVersion.A) NewVersion.A_1
                              None NewVersion.empty
  = (Throw (SystemException SCIDB_SE_SYSCAT SCIDB_LE_PLUGIN_FUNCTION_ACCESS),
     NewVersion.empty).
Proof. reflexivity. Qed.

(** The serializable call has both retry policies around it: a conflict is
    retried within the budget of serialized tries and surfaces beyond it. *)
Example addArrayVersion_retries_conflict :
  fst (NewVersion.addArrayVersion 1 3 1000 NewVersion.public (Some NewVersion.A)
         NewVersion.A_1 ([NewVersion.conflict; NewVersion.conflict], NewVersion.empty))
  = Return tt
  /\ fst (NewVersion.addArrayVersion 1 2 1000 NewVersion.public (Some NewVersion.A)
            NewVersion.A_1 ([NewVersion.conflict; NewVersion.conflict], NewVersion.empty))
     = Throw TxnIsolationConflict
  /\ fst (NewVersion.addArrayVersion 2 1 1000 NewVersion.public (Some NewVersion.A)
            NewVersion.A_1 ([Some connection_lost], NewVersion.empty))
     = Return tt.
Proof. repeat split. Qed.

Example createVersions_three :
  option_map fst (createVersions 1000 100 [101; 102; 103] NewVersion.empty)
  = Some [1; 2; 3].
Proof. reflexivity. Qed.

(** ** Boundaries *)

Lemma forEach_boundaries array_id high low : forall cat,
  forEach (fun '(i, low_i) =>
             execSql (updateDimensions (updateLowBoundary low_i array_id i)) ;;;
             execSql (updateDimensions
                        (updateHighBoundary (nth (Z.to_nat i) high 0) array_id i)))
          low None cat
  = inl (tt, mkCatalog (tbl_array cat) (tbl_array_attribute cat)
                       (map (boundaryLoop array_id high low) (tbl_array_dimension cat))
                       (tbl_array_version cat)).
Proof.
  induction low as [|[i low_i] rest IH]; intros cat; simpl.
  - unfold tx_ret, boundaryLoop. simpl. rewrite map_id. now destruct cat.
  - unfold tx_bind at 1. unfold tx_bind at 1. unfold execSql at 1 2.
    unfold updateDimensions. simpl. rewrite IH. simpl. now rewrite !map_map.
Qed.

Lemma updateLowBoundary_same p1 p2 p3 r : sameDimension r (updateLowBoundary p1 p2 p3 r).
Proof.
  unfold updateLowBoundary, sameDimension.
  destruct (_ && _); simpl; repeat split; reflexivity.
Qed.

Lemma updateHighBoundary_same p1 p2 p3 r : sameDimension r (updateHighBoundary p1 p2 p3 r).
Proof.
  unfold updateHighBoundary, sameDimension.
  destruct (_ && _); simpl; repeat split; reflexivity.
Qed.

Lemma sameDimension_refl r : sameDimension r r.
Proof. unfold sameDimension. repeat split; reflexivity. Qed.

Lemma sameDimension_trans r1 r2 r3 :
  sameDimension r1 r2 -> sameDimension r2 r3 -> sameDimension r1 r3.
Proof. unfold sameDimension. intuition congruence. Qed.

(** One turn of the loop on a row: the row of that array and index gets
    the smaller low and the greater high, any other row is left alone. *)
Lemma boundary_step low_i high_i array_id i r :
  let r' := updateHighBoundary high_i array_id i (updateLowBoundary low_i array_id i r) in
  sameDimension r r'
  /\ (array_dimension.array_id r = array_id -> array_dimension.id r = i ->
      array_dimension.currStart r'
      = (if low_i <? array_dimension.currStart r
         then low_i else array_dimension.currStart r)
      /\ array_dimension.currEnd r'
         = (if array_dimension.currEnd r <? high_i
            then high_i else array_dimension.currEnd r))
  /\ (~ (array_dimension.array_id r = array_id /\ array_dimension.id r = i) -> r' = r).
Proof.
  intros r'. split; [|split].
  - eapply sameDimension_trans;
      [apply updateLowBoundary_same|apply updateHighBoundary_same].
  - intros Ha Hi. subst r'. unfold updateHighBoundary, updateLowBoundary.
    rewrite Ha, Hi, !Z.eqb_refl. simpl. rewrite Z.gtb_ltb.
    destruct (low_i <? array_dimension.currStart r); simpl;
      rewrite ?Ha, ?Hi, !Z.eqb_refl; simpl;
      destruct (array_dimension.currEnd r <? high_i); simpl; auto.
  - intros Hno. subst r'. unfold updateHighBoundary, updateLowBoundary.
    destruct (Z.eqb_spec (array_dimension.array_id r) array_id) as [Ha|Ha];
      destruct (Z.eqb_spec (array_dimension.id r) i) as [Hi|Hi]; simpl;
      try (exfalso; now apply Hno);
      try rewrite (proj2 (Z.eqb_neq _ _) Ha); try rewrite (proj2 (Z.eqb_neq _ _) Hi);
      simpl; rewrite ?andb_false_r; reflexivity.
Qed.

Lemma boundaryLoop_cons array_id high i low_i rest r :
  boundaryLoop array_id high ((i, low_i) :: rest) r
  = boundaryLoop array_id high rest
      (updateHighBoundary (nth (Z.to_nat i) high 0) array_id i
                          (updateLowBoundary low_i array_id i r)).
Proof. reflexivity. Qed.

(** The loop over the indexed low coordinates, on one row: the row of the
    array with the index of a coordinate gets its turn, no other turn
    touches it. *)
Lemma boundaryLoop_from array_id high low : forall s r,
  let r' := boundaryLoop array_id high
              (combine (map Z.of_nat (seq s (List.length low))) low) r in
  sameDimension r r'
  /\ (forall i, array_dimension.array_id r = array_id ->
                array_dimension.id r = Z.of_nat (s + i) ->
                (i < List.length low)%nat ->
        array_dimension.currStart r'
        = (if nth i low 0 <? array_dimension.currStart r
           then nth i low 0 else array_dimension.currStart r)
        /\ array_dimension.currEnd r'
           = (if array_dimension.currEnd r <? nth (s + i) high 0
              then nth (s + i) high 0 else array_dimension.currEnd r))
  /\ (~ (array_dimension.array_id r = array_id
         /\ Z.of_nat s <= array_dimension.id r < Z.of_nat (s + List.length low)) ->
      r' = r).
Proof.
  induction low as [|lo rest IH]; intros s r; cbv zeta.
  - simpl. split; [apply sameDimension_refl|].
    split; [intros i _ _ Hi; lia|reflexivity].
  - cbn [List.length seq map combine]. rewrite boundaryLoop_cons.
    set (r1 := updateHighBoundary _ array_id (Z.of_nat s)
                                  (updateLowBoundary lo array_id (Z.of_nat s) r)).
    destruct (boundary_step lo (nth (Z.to_nat (Z.of_nat s)) high 0) array_id
                            (Z.of_nat s) r) as (Hsame1 & Hhit1 & Hmiss1).
    fold r1 in Hsame1, Hhit1, Hmiss1.
    destruct (IH (S s) r1) as (Hsame & Hhit & Hmiss).
    rewrite Nat2Z.id in *.
    split; [|split].
    + eapply sameDimension_trans; eassumption.
    + intros i Ha Hid Hi. destruct i as [|i].
      * rewrite Nat.add_0_r in *. destruct (Hhit1 Ha Hid) as [Hlo Hhi].
        rewrite Hmiss; [now split|].
        destruct Hsame1 as (_ & Hid1 & _). rewrite Hid1, Hid. lia.
      * rewrite Hmiss1 in * by (rewrite Hid; lia).
        replace (s + S i)%nat with (S s + i)%nat in * by lia.
        apply Hhit; auto. lia.
    + intros Hno. rewrite Hmiss.
      * apply Hmiss1. intros [Ha Hid]. apply Hno. split; [assumption|lia].
      * destruct Hsame1 as (Ha1 & Hid1 & _). rewrite Ha1, Hid1.
        intros [Ha Hid]. apply Hno. split; [assumption|lia].
Qed.

Lemma dimension_row_eq r r' :
  sameDimension r r' ->
  array_dimension.currStart r' = array_dimension.currStart r ->
  array_dimension.currEnd r' = array_dimension.currEnd r ->
  r' = r.
Proof.
  destruct r, r'. unfold sameDimension. simpl.
  intros (-> & -> & -> & -> & -> & -> & ->) -> ->. reflexivity.
Qed.

(** One run of the loop on a row, bound by bound. *)
Lemma boundaryLoop_row array_id low high r :
  let r' := boundaryLoop array_id high (indexed low) r in
  sameDimension r r'
  /\ (forall i, array_dimension.array_id r = array_id ->
                array_dimension.id r = Z.of_nat i -> (i < List.length low)%nat ->
        array_dimension.currStart r'
        = (if nth i low 0 <? array_dimension.currStart r
           then nth i low 0 else array_dimension.currStart r)
        /\ array_dimension.currEnd r'
           = (if array_dimension.currEnd r <? nth i high 0
              then nth i high 0 else array_dimension.currEnd r))
  /\ (~ (array_dimension.array_id r = array_id
         /\ 0 <= array_dimension.id r < Z.of_nat (List.length low)) -> r' = r)
  /\ array_dimension.currStart r' <= array_dimension.currStart r
  /\ array_dimension.currEnd r <= array_dimension.currEnd r'
  /\ boundaryLoop array_id high (indexed low) r' = r'.
Proof.
  intros r'. unfold indexed in *.
  destruct (boundaryLoop_from array_id high low 0 r) as (Hsame & Hhit & Hmiss).
  fold r' in Hsame, Hhit, Hmiss. simpl in Hhit, Hmiss.
  destruct (boundaryLoop_from array_id high low 0 r') as (Hsame' & Hhit' & Hmiss').
  simpl in Hhit', Hmiss'.
  assert (Hcases : (array_dimension.array_id r = array_id
                    /\ exists i, array_dimension.id r = Z.of_nat i
                                 /\ (i < List.length low)%nat)
                   \/ ~ (array_dimension.array_id r = array_id
                         /\ 0 <= array_dimension.id r < Z.of_nat (List.length low))).
  { destruct (Z.eq_dec (array_dimension.array_id r) array_id) as [Ha|Ha];
      [|right; tauto].
    destruct (Z_le_dec 0 (array_dimension.id r)) as [H0|H0]; [|right; tauto].
    destruct (Z_lt_dec (array_dimension.id r) (Z.of_nat (List.length low))) as [Hn|Hn];
      [|right; tauto].
    left. split; [assumption|]. exists (Z.to_nat (array_dimension.id r)). lia. }
  split; [assumption|]. split; [assumption|]. split; [assumption|].
  destruct Hsame as (Ha1 & Hid1 & Hrest).
  destruct Hcases as [(Ha & i & Hid & Hi)|Hno].
  - destruct (Hhit i Ha Hid Hi) as [Hlo Hhi].
    destruct (Hhit' i) as [Hlo' Hhi']; [congruence|congruence|assumption|].
    rewrite Hlo, Hhi.
    destruct (Z.ltb_spec (nth i low 0) (array_dimension.currStart r));
      destruct (Z.ltb_spec (array_dimension.currEnd r) (nth i high 0));
      (split; [lia|split; [lia|]]);
      (apply dimension_row_eq; [assumption| |]);
      rewrite ?Hlo', ?Hhi', ?Hlo, ?Hhi;
      repeat match goal with
             | |- context [?a <? ?b] => destruct (Z.ltb_spec a b); try lia
             end.
  - rewrite (Hmiss Hno) in *. split; [lia|split; [lia|]]. now apply Hmiss'.
Qed.

(** C9: for every array and dimension, updateArrayBoundaries writes the
    stored low bound only when the new low (the bounds trimmed to the
    dimensions) is strictly smaller than the stored one, and the stored high
    bound only when the new high is strictly larger; the other rows and
    columns are left alone, so bounds only move outward, and a second
    identical call leaves the catalog as the first one left it. *)
Theorem updateArrayBoundaries_outward_idempotent
        (trimToDims : PhysicalBoundaries.t -> list DimensionDesc.t -> PhysicalBoundaries.t)
        (desc : ArrayDesc.t) (bounds : PhysicalBoundaries.t) (cat : Catalog) :
  let trimmed := trimToDims bounds (ArrayDesc.getDimensions desc) in
  let low := PhysicalBoundaries.getStartCoords trimmed in
  let high := PhysicalBoundaries.getEndCoords trimmed in
  List.length low = List.length high ->
  exists cat',
    _updateArrayBoundaries trimToDims desc bounds None cat = (Return tt, cat')
    /\ tbl_array cat' = tbl_array cat
    /\ tbl_array_attribute cat' = tbl_array_attribute cat
    /\ tbl_array_version cat' = tbl_array_version cat
    /\ Forall2
         (fun r r' =>
            sameDimension r r'
            /\ (forall i, array_dimension.array_id r = ArrayDesc.getId desc ->
                          array_dimension.id r = Z.of_nat i ->
                          (i < List.length low)%nat ->
                  array_dimension.currStart r'
                  = (if nth i low 0 <? array_dimension.currStart r
                     then nth i low 0 else array_dimension.currStart r)
                  /\ array_dimension.currEnd r'
                     = (if array_dimension.currEnd r <? nth i high 0
                        then nth i high 0 else array_dimension.currEnd r))
            /\ (~ (array_dimension.array_id r = ArrayDesc.getId desc
                   /\ 0 <= array_dimension.id r < Z.of_nat (List.length low)) ->
                r' = r)
            /\ array_dimension.currStart r' <= array_dimension.currStart r
            /\ array_dimension.currEnd r <= array_dimension.currEnd r')
         (tbl_array_dimension cat) (tbl_array_dimension cat')
    /\ _updateArrayBoundaries trimToDims desc bounds None cat' = (Return tt, cat').
Proof.
  intros trimmed low high Hlen.
  assert (Hrun : forall c,
            _updateArrayBoundaries trimToDims desc bounds None c
            = (Return tt,
               mkCatalog (tbl_array c) (tbl_array_attribute c)
                         (map (boundaryLoop (ArrayDesc.getId desc) high (indexed low))
                              (tbl_array_dimension c))
                         (tbl_array_version c))).
  { intros c. unfold _updateArrayBoundaries, transaction.
    fold trimmed. fold low. fold high. now rewrite forEach_boundaries. }
  eexists. split; [apply Hrun|]. simpl. repeat (split; [reflexivity|]). split.
  - induction (tbl_array_dimension cat) as [|r rest IH]; simpl; constructor; [|exact IH].
    destruct (boundaryLoop_row (ArrayDesc.getId desc) low high r)
      as (H1 & H2 & H3 & H4 & H5 & _). auto.
  - rewrite Hrun. simpl. f_equal. f_equal. rewrite map_map. apply map_ext.
    intros r. now destruct (boundaryLoop_row (ArrayDesc.getId desc) low high r)
      as (_ & _ & _ & _ & _ & H).
Qed.

Example updateArrayBoundaries_example :
  _updateArrayBoundaries Bounds.trimToDims Bounds.M Bounds.bounds None Bounds.catalog
  = (Return tt,
     mkCatalog [] []
       [ array_dimension.mk 101 0 "x" 0 3 9 99 10 0;
         array_dimension.mk 101 1 "y" 0 0 30 99 10 0;
         array_dimension.mk 102 0 "x" 0 5 9 99 10 0 ]
       []).
Proof. reflexivity. Qed.

Lemma updateArrayBoundaries_outward_idempotent_witness :
  List.length (PhysicalBoundaries.getStartCoords
                 (Bounds.trimToDims Bounds.bounds (ArrayDesc.getDimensions Bounds.M)))
  = List.length (PhysicalBoundaries.getEndCoords
                   (Bounds.trimToDims Bounds.bounds (ArrayDesc.getDimensions Bounds.M)))
  /\ exists cat',
       _updateArrayBoundaries Bounds.trimToDims Bounds.M Bounds.bounds None Bounds.catalog
       = (Return tt, cat')
       /\ _updateArrayBoundaries Bounds.trimToDims Bounds.M Bounds.bounds None cat'
          = (Return tt, cat').
Proof.
  split; [reflexivity|].
  destruct (updateArrayBoundaries_outward_idempotent
              Bounds.trimToDims Bounds.M Bounds.bounds Bounds.catalog eq_refl)
    as (cat' & Hrun & _ & _ & _ & _ & Hagain).
  exists cat'. split; assumption.
Defined.

(** * Properties of the further calls *)

(** ** Reading the lock table *)

Lemma static_cast_InstanceRole_code code :
  roleCode INVALID_ROLE <= code <= roleCode WORKER ->
  roleCode (static_cast_InstanceRole code) = code.
Proof.
  simpl. intros H.
  assert (code = 0 \/ code = 1 \/ code = 2) as [->|[->| ->]] by lia; reflexivity.
Qed.

Lemma static_cast_LockMode_code code :
  modeCode INVALID_MODE <= code <= modeCode RNF ->
  modeCode (static_cast_LockMode code) = code.
Proof.
  simpl. intros H.
  assert (code = 0 \/ code = 1 \/ code = 2 \/ code = 3 \/ code = 4 \/ code = 5 \/ code = 6)
    as [->|[->|[->|[->|[->|[->| ->]]]]]] by lia; reflexivity.
Qed.

Lemma as_uint64_nonneg v : 0 <= v -> as_uint64 v = Some v.
Proof. unfold as_uint64. intros H. now destruct (Z.ltb_spec v 0); [lia|]. Qed.

Lemma readable_spec r :
  readable r = true ->
  0 <= array_id r /\ 0 <= query_id r /\ 0 <= instance_id r
  /\ 0 <= array_version_id r /\ 0 <= array_version r
  /\ roleCode COORD <= instance_role r <= roleCode WORKER
  /\ modeCode INVALID_MODE <= lock_mode r <= modeCode RNF.
Proof.
  unfold readable. rewrite !andb_true_iff, !Z.leb_le. tauto.
Qed.

Lemma readLock_readable i r :
  readable r = true -> instance_id r = i ->
  readLock i r = Some (lockOfRow r)
  /\ rowOf (lockOfRow r) = r
  /\ InstanceRole_eqb (getInstanceRole (lockOfRow r)) COORD
     = (instance_role r =? roleCode COORD).
Proof.
  intros Hr Hi. apply readable_spec in Hr as (Ha & Hq & Hi0 & Hv & Hver & Hrole & Hmode).
  unfold readLock. rewrite !as_uint64_nonneg by assumption.
  destruct r as [name aid q i' avid av role mode]. simpl in *. subst i'.
  unfold rowOf, lockOfRow, InstanceRole_eqb. simpl.
  rewrite static_cast_InstanceRole_code, static_cast_LockMode_code by (simpl; lia).
  auto.
Qed.

Lemma filter_filter_andb (A : Type) (p q : A -> bool) l :
  filter q (filter p l) = filter (fun x => p x && q x) l.
Proof.
  induction l as [|x l IH]; simpl; [reflexivity|].
  destruct (p x); simpl; [|assumption]. destruct (q x); now rewrite IH.
Qed.

Lemma filter_none (A : Type) (p : A -> bool) l :
  (forall x, In x l -> p x = false) -> filter p l = [].
Proof.
  induction l as [|x l IH]; simpl; intros H; [reflexivity|].
  rewrite (H x) by auto. apply IH. intros y Hy. apply H. auto.
Qed.

Lemma filter_length_partition (A : Type) (p : A -> bool) l :
  List.length l
  = (List.length (filter p l) + List.length (filter (fun x => negb (p x)) l))%nat.
Proof.
  induction l as [|x l IH]; simpl; [reflexivity|].
  destruct (p x); simpl; lia.
Qed.

Lemma readLocksLoop_readable i rows :
  (forall r, In r rows -> readable r = true /\ instance_id r = i) ->
  forall cl wl,
    readLocksLoop i rows cl wl
    = (Return tt,
       (cl ++ map lockOfRow (filter (fun r => instance_role r =? roleCode COORD) rows),
        wl ++ map lockOfRow
                  (filter (fun r => negb (instance_role r =? roleCode COORD)) rows))).
Proof.
  induction rows as [|r rest IH]; intros Hrows cl wl.
  - simpl. now rewrite !app_nil_r.
  - destruct (Hrows r (or_introl eq_refl)) as [Hr Hi].
    destruct (readLock_readable i r Hr Hi) as (Hlock & Hrow & Hrole).
    assert (Hrest : forall r', In r' rest -> readable r' = true /\ instance_id r' = i)
      by (intros r' Hr'; apply Hrows; now right).
    cbn [readLocksLoop filter]. rewrite Hlock, Hrole.
    destruct (instance_role r =? roleCode COORD) eqn:E; cbn [negb map];
      rewrite (IH Hrest), <- app_assoc; reflexivity.
Qed.

Lemma readArrayLocks_run i cl wl tbl :
  (forall r, In r tbl -> instance_id r = i -> readable r = true) ->
  _readArrayLocks None i cl wl tbl
  = (Return tt,
     (cl ++ map lockOfRow (filter (fun r => (instance_id r =? i)
                                            && (instance_role r =? roleCode COORD)) tbl),
      wl ++ map lockOfRow (filter (fun r => (instance_id r =? i)
                                            && negb (instance_role r =? roleCode COORD))
                                  tbl))).
Proof.
  intros Hread. unfold _readArrayLocks.
  rewrite readLocksLoop_readable, !filter_filter_andb; [reflexivity|].
  intros r Hr. apply filter_In in Hr as [Hr Hi]. apply Z.eqb_eq in Hi. auto.
Qed.

(** X1: readArrayLocks appends to the caller's two lists the locks of the
    instance, coordinator locks to the first and all others to the second,
    in the order of the table: one descriptor for each row of the instance
    with, respectively without, the coordinator role.  A descriptor written
    back as a row (rowOf) is the row it was read from, and it is neither
    marked locked nor given a catalog id. *)
Theorem readArrayLocks_partition
        (instanceId : Z) (coordLocks workerLocks : list LockDesc) (tbl : LockTable) :
  (forall r, In r tbl -> instance_id r = instanceId -> readable r = true) ->
  _readArrayLocks None instanceId coordLocks workerLocks tbl
  = (Return tt,
     (coordLocks
      ++ map lockOfRow (filter (fun r => (instance_id r =? instanceId)
                                         && (instance_role r =? roleCode COORD)) tbl),
      workerLocks
      ++ map lockOfRow (filter (fun r => (instance_id r =? instanceId)
                                         && negb (instance_role r =? roleCode COORD))
                               tbl)))
  /\ (forall r, In r tbl -> instance_id r = instanceId ->
        rowOf (lockOfRow r) = r
        /\ isLocked (lockOfRow r) = false
        /\ getArrayCatalogId (lockOfRow r) = 0).
Proof.
  intros Hread. split; [now apply readArrayLocks_run|].
  intros r Hr Hi. split; [|split; reflexivity].
  now apply (readLock_readable instanceId r (Hread r Hr Hi) Hi).
Qed.

Lemma readArrayLocks_partition_witness :
  (forall r, In r Locks.held -> instance_id r = 1 -> readable r = true)
  /\ fst (_readArrayLocks None 1 [] [] Locks.held) = Return tt
  /\ List.length (fst (snd (_readArrayLocks None 1 [] [] Locks.held))) = 2%nat
  /\ List.length (snd (snd (_readArrayLocks None 1 [] [] Locks.held))) = 1%nat.
Proof.
  assert (H : forall r, In r Locks.held -> instance_id r = 1 -> readable r = true).
  { intros r [<-|[<-|[<-|[<-|[]]]]] _; reflexivity. }
  split; [exact H|].
  destruct (readArrayLocks_partition 1 [] [] Locks.held H) as [-> _].
  repeat split.
Defined.

(** X2: after deleteArrayLocks for an instance, with no query specified,
    readArrayLocks of that instance reports no lock of the deleted role (no
    lock at all when no role was specified) and the same locks of the other
    role as before; the number returned by the delete is the number of locks
    that are gone, modulo 2^32; what other instances read is unchanged. *)
Theorem readArrayLocks_after_delete
        (INVALID_QUERY_ID instanceId queryId : Z) (role : InstanceRole)
        (tbl : LockTable) :
  (forall r, In r tbl -> instance_id r = instanceId -> readable r = true) ->
  queryId = INVALID_QUERY_ID \/ queryId = 0 ->
  let deleted := _deleteArrayLocks INVALID_QUERY_ID None instanceId queryId role tbl in
  exists cs ws,
    _readArrayLocks None instanceId [] [] tbl = (Return tt, (cs, ws))
    /\ _readArrayLocks None instanceId [] [] (snd deleted)
       = (Return tt,
          match role with
          | INVALID_ROLE => ([], [])
          | COORD => ([], ws)
          | WORKER => (cs, [])
          end)
    /\ fst deleted
       = Return (Z.of_nat match role with
                          | INVALID_ROLE => List.length cs + List.length ws
                          | COORD => List.length cs
                          | WORKER => List.length ws
                          end mod 2 ^ 32)
    /\ (forall other coordLocks workerLocks, other <> instanceId ->
          _readArrayLocks None other coordLocks workerLocks (snd deleted)
          = _readArrayLocks None other coordLocks workerLocks tbl).
Proof.
  intros Hread Hq deleted.
  set (isC := fun r : LockRow => instance_role r =? roleCode COORD).
  assert (HqF : negb (queryId =? INVALID_QUERY_ID) && negb (queryId =? 0) = false).
  { destruct Hq as [-> | ->]; rewrite Z.eqb_refl; simpl; [reflexivity|].
    now rewrite andb_false_r. }
  assert (Hdf : forall r, deleteFilter INVALID_QUERY_ID instanceId queryId role r
                          = (instance_id r =? instanceId)
                            && match role with
                               | INVALID_ROLE => true
                               | _ => instance_role r =? roleCode role
                               end).
  { intros r. unfold deleteFilter. rewrite HqF, andb_true_r.
    destruct role; reflexivity. }
  assert (Hrole : forall r, In r tbl -> instance_id r = instanceId ->
                            instance_role r = 1 \/ instance_role r = 2).
  { intros r Hr Hi. pose proof (readable_spec r (Hread r Hr Hi)) as H. simpl in H. lia. }
  assert (Hread' : forall r, In r (snd deleted) -> instance_id r = instanceId ->
                             readable r = true).
  { intros r Hr. apply filter_In in Hr as [Hr _]. now apply Hread. }
  exists (map lockOfRow (filter (fun r => (instance_id r =? instanceId) && isC r) tbl)),
         (map lockOfRow (filter (fun r => (instance_id r =? instanceId) && negb (isC r))
                                tbl)).
  split; [now rewrite readArrayLocks_run|].
  split; [|split].
  - rewrite readArrayLocks_run by assumption.
    unfold deleted, _deleteArrayLocks. cbn [snd].
    rewrite !filter_filter_andb. fold isC.
    assert (HC : filter (fun r => negb (deleteFilter INVALID_QUERY_ID instanceId queryId
                                                     role r)
                                  && ((instance_id r =? instanceId) && isC r)) tbl
                 = match role with
                   | WORKER => filter (fun r => (instance_id r =? instanceId) && isC r) tbl
                   | _ => []
                   end).
    { destruct role; [apply filter_none|apply filter_none|apply filter_ext_in];
        intros r Hr; rewrite Hdf; unfold isC; simpl;
        destruct (Z.eqb_spec (instance_id r) instanceId) as [Hi|]; try reflexivity;
        destruct (Z.eqb_spec (instance_role r) 1) as [Hr1|]; try rewrite Hr1;
        try reflexivity; destruct (instance_role r =? 2); reflexivity. }
    assert (HW : filter (fun r => negb (deleteFilter INVALID_QUERY_ID instanceId queryId
                                                     role r)
                                  && ((instance_id r =? instanceId) && negb (isC r))) tbl
                 = match role with
                   | COORD => filter (fun r => (instance_id r =? instanceId)
                                               && negb (isC r)) tbl
                   | _ => []
                   end).
    { destruct role; [apply filter_none|apply filter_ext_in|apply filter_none];
        intros r Hr; rewrite Hdf; unfold isC; simpl;
        destruct (Z.eqb_spec (instance_id r) instanceId) as [Hi|]; try reflexivity;
        try (destruct (Hrole r Hr Hi) as [Hr1|Hr1]; rewrite Hr1; reflexivity);
        destruct (Z.eqb_spec (instance_role r) 1) as [Hr1|]; try rewrite Hr1;
        try reflexivity; destruct (instance_role r =? 2); reflexivity. }
    unfold isC in HC, HW. rewrite HC, HW. now destruct role.
  - unfold deleted. simpl. f_equal. f_equal. rewrite !length_map.
    destruct role.
    + rewrite <- length_app, (filter_ext _ (fun r => instance_id r =? instanceId))
        by (intros r; rewrite Hdf; apply andb_true_r).
      rewrite (filter_length_partition _ isC), !filter_filter_andb, length_app.
      reflexivity.
    + do 2 f_equal. apply filter_ext. intros r. now rewrite Hdf.
    + do 2 f_equal. apply filter_ext_in. intros r Hr. rewrite Hdf. unfold isC. simpl.
      destruct (Z.eqb_spec (instance_id r) instanceId) as [Hi|]; [|reflexivity].
      destruct (Hrole r Hr Hi) as [Hr1|Hr1]; rewrite Hr1; reflexivity.
  - intros other cl wl Hne. unfold _readArrayLocks, deleted. simpl.
    rewrite filter_filter_andb. f_equal. apply filter_ext. intros r. rewrite Hdf.
    destruct (Z.eqb_spec (instance_id r) other) as [->|];
      [|now rewrite andb_false_r].
    destruct (Z.eqb_spec other instanceId); [contradiction|reflexivity].
Qed.

Lemma readArrayLocks_after_delete_witness :
  (forall r, In r Locks.held -> instance_id r = 1 -> readable r = true)
  /\ (Scenario.INVALID_QUERY_ID = Scenario.INVALID_QUERY_ID
      \/ Scenario.INVALID_QUERY_ID = 0)
  /\ fst (_deleteArrayLocks Scenario.INVALID_QUERY_ID None 1
                            Scenario.INVALID_QUERY_ID COORD Locks.held)
     = Return 2.
Proof.
  assert (H : forall r, In r Locks.held -> instance_id r = 1 -> readable r = true).
  { intros r [<-|[<-|[<-|[<-|[]]]]] _; reflexivity. }
  split; [exact H|]. split; [now left|].
  destruct (readArrayLocks_after_delete Scenario.INVALID_QUERY_ID 1
              Scenario.INVALID_QUERY_ID COORD Locks.held H (or_introl eq_refl))
    as (cs & ws & Hbefore & _ & Hcount & _).
  rewrite Hcount. injection Hbefore as <- _. reflexivity.
Defined.

(** ** Coordinator requests *)

Lemma insertResult_fresh r tbl :
  existsb (sameKey r) tbl = false -> insertResult [r] tbl = PgOk [] 1 (tbl ++ [r]).
Proof. intros H. unfold insertResult. now rewrite insertRows_fresh. Qed.

Lemma insertResult_nil tbl : insertResult [] tbl = PgOk [] 0 tbl.
Proof. reflexivity. Qed.

Lemma coordinator_run ld ec tbl sql :
  getInstanceRole ld = COORD ->
  getLockInsertSql ld = Return sql ->
  (forall r, In r tbl -> keyOf ld r = false) ->
  _lockArray None ld ec tbl
  = if existsb (blocking ld) tbl
    then mkLockArrayResult (busy ec) ld tbl (committed sql)
    else mkLockArrayResult (Return true) (setLocked true ld) (tbl ++ [rowOf ld])
                           (committed sql).
Proof.
  intros Hrole Hsql Hfresh. pose proof (fresh_key ld tbl Hfresh) as Hk.
  unfold _lockArray. rewrite Hsql.
  destruct ld as [name aid q i avid acid av role mode locked].
  simpl in Hrole. subst role.
  unfold getLockInsertSql in Hsql. unfold rowOf in Hk.
  destruct mode; simpl in Hsql, Hk; try discriminate; injection Hsql as <-;
    unfold lockArrayStatements, execInsert, exec, blocking, committed, rowOf;
    cbn [getLockMode getInstanceRole getArrayName getQueryId getInstanceId getArrayId
         getArrayVersionId getArrayVersion app execLockInsert roleCode modeCode];
    match goal with
    | |- context [existsb ?p tbl] =>
        match p with
        | sameKey _ => fail 1
        | _ => destruct (existsb p tbl)
        end
    end;
    rewrite ?insertResult_nil, ?(insertResult_fresh _ _ Hk); reflexivity.
Qed.

Lemma getLockInsertSql_coordinator ld :
  getInstanceRole ld = COORD ->
  getLockInsertSql ld
  = match getLockMode ld with
    | INVALID_MODE => Throw invalidLockRequested
    | RD => Return COORD_RD_insert
    | WR | CRT => Return COORD_WR_insert
    | XCL | RM | RNF => Return COORD_XCL_insert
    end.
Proof. unfold getLockInsertSql. intros ->. now destruct (getLockMode ld). Qed.

(** X3: a coordinator's WR or CRT request whose key is not yet in the lock
    table is granted exactly when every row of the array that belongs to
    another query has mode RD or below: readers of other queries and any
    lock of the same query do not stand in its way.  Granted, the row of the
    request is appended and the descriptor marked locked; one row of another
    query above RD makes the call busy and leaves table and descriptor as
    they were. *)
Theorem coordinator_write_predicate
        (lockDesc : LockDesc) (errorChecker : ErrorChecker) (tbl : LockTable) :
  getInstanceRole lockDesc = COORD ->
  getLockMode lockDesc = WR \/ getLockMode lockDesc = CRT ->
  (forall r, In r tbl -> keyOf lockDesc r = false) ->
  let unblocked :=
    forall r, In r tbl -> array_name r = getArrayName lockDesc ->
              query_id r <> getQueryId lockDesc -> lock_mode r <= modeCode RD in
  (unblocked ->
   _lockArray None lockDesc errorChecker tbl
   = mkLockArrayResult (Return true) (setLocked true lockDesc)
                       (tbl ++ [rowOf lockDesc]) (committed COORD_WR_insert))
  /\ (forall r, In r tbl -> array_name r = getArrayName lockDesc ->
                query_id r <> getQueryId lockDesc -> modeCode RD < lock_mode r ->
      _lockArray None lockDesc errorChecker tbl
      = mkLockArrayResult (busy errorChecker) lockDesc tbl (committed COORD_WR_insert))
  /\ (la_outcome (_lockArray None lockDesc errorChecker tbl) = Return true
      <-> unblocked).
Proof.
  intros Hrole Hmode Hfresh unblocked.
  assert (Hsql : getLockInsertSql lockDesc = Return COORD_WR_insert)
    by (rewrite getLockInsertSql_coordinator by assumption;
        destruct Hmode as [-> | ->]; reflexivity).
  rewrite (coordinator_run lockDesc errorChecker tbl _ Hrole Hsql Hfresh).
  assert (Hb : forall r, blocking lockDesc r
                         = String.eqb (array_name r) (getArrayName lockDesc)
                           && negb (query_id r =? getQueryId lockDesc)
                           && (lock_mode r >? modeCode RD))
    by (intros r; unfold blocking; destruct Hmode as [-> | ->]; reflexivity).
  assert (Hguard : existsb (blocking lockDesc) tbl = false <-> unblocked).
  { unfold unblocked. split.
    - intros G r Hr Hn Hq. apply (existsb_false_forall _ _ _ G) in Hr.
      rewrite Hb in Hr. apply String.eqb_eq in Hn. apply Z.eqb_neq in Hq.
      rewrite Hn, Hq in Hr. simpl in Hr. rewrite Z.gtb_ltb in Hr.
      apply Z.ltb_ge in Hr. exact Hr.
    - intros U. destruct (existsb _ tbl) eqn:E; [|reflexivity].
      apply existsb_exists in E as (r & Hr & Hp). rewrite Hb in Hp.
      apply andb_prop in Hp as [Hp Hm]. apply andb_prop in Hp as [Hn Hq].
      apply String.eqb_eq in Hn. apply negb_true_iff, Z.eqb_neq in Hq.
      specialize (U r Hr Hn Hq). rewrite Z.gtb_ltb in Hm. apply Z.ltb_lt in Hm. lia. }
  split; [|split].
  - intros U. apply Hguard in U. now rewrite U.
  - intros r Hr Hn Hq Hm.
    assert (E : existsb (blocking lockDesc) tbl = true).
    { apply existsb_exists. exists r. split; [assumption|]. rewrite Hb.
      apply String.eqb_eq in Hn. apply Z.eqb_neq in Hq. rewrite Hn, Hq. simpl.
      rewrite Z.gtb_ltb. now apply Z.ltb_lt. }
    now rewrite E.
  - rewrite <- Hguard. destruct (existsb _ tbl); simpl; [|tauto].
    split; [|discriminate]. destruct errorChecker as [[]|]; discriminate.
Qed.

Lemma coordinator_write_predicate_witness :
  getInstanceRole (Scenario.coord 3 2 WR) = COORD
  /\ (getLockMode (Scenario.coord 3 2 WR) = WR \/ getLockMode (Scenario.coord 3 2 WR) = CRT)
  /\ (forall r, In r Readers.reading -> keyOf (Scenario.coord 3 2 WR) r = false)
  /\ (la_outcome (_lockArray None (Scenario.coord 3 2 WR) None Readers.reading)
      = Return true
      <-> forall r, In r Readers.reading ->
                    array_name r = getArrayName (Scenario.coord 3 2 WR) ->
                    query_id r <> getQueryId (Scenario.coord 3 2 WR) ->
                    lock_mode r <= modeCode RD).
Proof.
  assert (Hfresh : forall r, In r Readers.reading ->
                             keyOf (Scenario.coord 3 2 WR) r = false).
  { intros r [<-|[]]. reflexivity. }
  split; [reflexivity|]. split; [now left|]. split; [exact Hfresh|].
  apply (coordinator_write_predicate (Scenario.coord 3 2 WR) None Readers.reading
                                     eq_refl (or_introl eq_refl) Hfresh).
Defined.

(** X4: a coordinator's XCL, RM or RNF request whose key is not yet in the
    lock table is granted exactly when every row of the array belongs to the
    requesting query: any lock of another query, a reader's included, makes
    the call busy and leaves table and descriptor as they were. *)
Theorem coordinator_exclusive_predicate
        (lockDesc : LockDesc) (errorChecker : ErrorChecker) (tbl : LockTable) :
  getInstanceRole lockDesc = COORD ->
  getLockMode lockDesc = XCL \/ getLockMode lockDesc = RM \/ getLockMode lockDesc = RNF ->
  (forall r, In r tbl -> keyOf lockDesc r = false) ->
  let unblocked :=
    forall r, In r tbl -> array_name r = getArrayName lockDesc ->
              query_id r = getQueryId lockDesc in
  (unblocked ->
   _lockArray None lockDesc errorChecker tbl
   = mkLockArrayResult (Return true) (setLocked true lockDesc)
                       (tbl ++ [rowOf lockDesc]) (committed COORD_XCL_insert))
  /\ (forall r, In r tbl -> array_name r = getArrayName lockDesc ->
                query_id r <> getQueryId lockDesc ->
      _lockArray None lockDesc errorChecker tbl
      = mkLockArrayResult (busy errorChecker) lockDesc tbl (committed COORD_XCL_insert))
  /\ (la_outcome (_lockArray None lockDesc errorChecker tbl) = Return true
      <-> unblocked).
Proof.
  intros Hrole Hmode Hfresh unblocked.
  assert (Hsql : getLockInsertSql lockDesc = Return COORD_XCL_insert)
    by (rewrite getLockInsertSql_coordinator by assumption;
        destruct Hmode as [-> |[-> | ->]]; reflexivity).
  rewrite (coordinator_run lockDesc errorChecker tbl _ Hrole Hsql Hfresh).
  assert (Hb : forall r, blocking lockDesc r
                         = String.eqb (array_name r) (getArrayName lockDesc)
                           && negb (query_id r =? getQueryId lockDesc))
    by (intros r; unfold blocking; destruct Hmode as [-> |[-> | ->]]; reflexivity).
  assert (Hguard : existsb (blocking lockDesc) tbl = false <-> unblocked).
  { unfold unblocked. split.
    - intros G r Hr Hn. apply (existsb_false_forall _ _ _ G) in Hr.
      rewrite Hb in Hr. apply String.eqb_eq in Hn. rewrite Hn in Hr. simpl in Hr.
      apply negb_false_iff, Z.eqb_eq in Hr. exact Hr.
    - intros U. destruct (existsb _ tbl) eqn:E; [|reflexivity].
      apply existsb_exists in E as (r & Hr & Hp). rewrite Hb in Hp.
      apply andb_prop in Hp as [Hn Hq].
      apply String.eqb_eq in Hn. apply negb_true_iff, Z.eqb_neq in Hq.
      now specialize (U r Hr Hn). }
  split; [|split].
  - intros U. apply Hguard in U. now rewrite U.
  - intros r Hr Hn Hq.
    assert (E : existsb (blocking lockDesc) tbl = true).
    { apply existsb_exists. exists r. split; [assumption|]. rewrite Hb.
      apply String.eqb_eq in Hn. apply Z.eqb_neq in Hq. now rewrite Hn, Hq. }
    now rewrite E.
  - rewrite <- Hguard. destruct (existsb _ tbl); simpl; [|tauto].
    split; [|discriminate]. destruct errorChecker as [[]|]; discriminate.
Qed.

Lemma coordinator_exclusive_predicate_witness :
  getInstanceRole (Scenario.coord 3 2 RM) = COORD
  /\ (getLockMode (Scenario.coord 3 2 RM) = XCL
      \/ getLockMode (Scenario.coord 3 2 RM) = RM
      \/ getLockMode (Scenario.coord 3 2 RM) = RNF)
  /\ (forall r, In r Readers.reading -> keyOf (Scenario.coord 3 2 RM) r = false)
  /\ _lockArray None (Scenario.coord 3 2 RM) None Readers.reading
     = mkLockArrayResult (busy None) (Scenario.coord 3 2 RM) Readers.reading
                         (committed COORD_XCL_insert).
Proof.
  assert (Hfresh : forall r, In r Readers.reading ->
                             keyOf (Scenario.coord 3 2 RM) r = false).
  { intros r [<-|[]]. reflexivity. }
  split; [reflexivity|]. split; [right; now left|]. split; [exact Hfresh|].
  apply (coordinator_exclusive_predicate (Scenario.coord 3 2 RM) None Readers.reading
           eq_refl (or_intror (or_introl eq_refl)) Hfresh)
    with (r := mkLockRow Scenario.A 0 2 1 0 0 (roleCode COORD) (modeCode RD)).
  - now left.
  - reflexivity.
  - discriminate.
Defined.

(** X5: the compatibility of two coordinators' locks on one array.  On an
    empty lock table the first valid request is granted; the request of the
    coordinator of another query for the same array is then granted exactly
    when [compatible] says so: RD after anything up to CRT, WR and CRT after
    RD only, XCL, RM and RNF after nothing.  A refused request is busy and
    leaves the table with the first lock alone. *)
Theorem coordinator_compatibility
        (first second : LockDesc) (ec1 ec2 : ErrorChecker) :
  getInstanceRole first = COORD -> getInstanceRole second = COORD ->
  validRequest first = true -> validRequest second = true ->
  getArrayName first = getArrayName second ->
  getQueryId first <> getQueryId second ->
  let r1 := _lockArray None first ec1 [] in
  let r2 := _lockArray None second ec2 (la_table r1) in
  la_outcome r1 = Return true
  /\ la_table r1 = [rowOf first]
  /\ (la_outcome r2 = Return true
      <-> compatible (getLockMode first) (getLockMode second) = true)
  /\ (compatible (getLockMode first) (getLockMode second) = true ->
      la_table r2 = [rowOf first; rowOf second])
  /\ (compatible (getLockMode first) (getLockMode second) = false ->
      la_outcome r2 = busy ec2 /\ la_table r2 = [rowOf first]).
Proof.
  intros Hr1 Hr2 Hv1 Hv2 Hname Hq r1 r2.
  assert (Hsql : forall ld, getInstanceRole ld = COORD -> validRequest ld = true ->
                            exists sql, getLockInsertSql ld = Return sql).
  { intros ld Hr Hv. rewrite getLockInsertSql_coordinator by assumption.
    unfold validRequest in Hv. rewrite Hr in Hv.
    destruct (getLockMode ld); try discriminate; eauto. }
  destruct (Hsql first Hr1 Hv1) as [sql1 Hsql1].
  destruct (Hsql second Hr2 Hv2) as [sql2 Hsql2].
  assert (E1 : r1 = mkLockArrayResult (Return true) (setLocked true first)
                                      [rowOf first] (committed sql1)).
  { unfold r1. rewrite (coordinator_run first ec1 [] sql1 Hr1 Hsql1); [reflexivity|].
    intros r []. }
  assert (Hfresh : forall r, In r (la_table r1) -> keyOf second r = false).
  { rewrite E1. intros r [<-|[]]. unfold keyOf, rowOf. simpl.
    apply Z.eqb_neq in Hq. now rewrite Hq, andb_false_r. }
  assert (E2 : r2 = if blocking second (rowOf first)
                    then mkLockArrayResult (busy ec2) second [rowOf first]
                                           (committed sql2)
                    else mkLockArrayResult (Return true) (setLocked true second)
                                           [rowOf first; rowOf second] (committed sql2)).
  { unfold r2. rewrite (coordinator_run second ec2 _ sql2 Hr2 Hsql2 Hfresh), E1.
    simpl. now rewrite orb_false_r. }
  assert (Hb : blocking second (rowOf first)
               = negb (compatible (getLockMode first) (getLockMode second))).
  { unfold blocking, rowOf, validRequest in *. simpl.
    rewrite Hr1, Hr2 in *. rewrite Hname, String.eqb_refl.
    apply Z.eqb_neq in Hq. rewrite Hq.
    destruct (getLockMode first), (getLockMode second); try discriminate; reflexivity. }
  rewrite E2, Hb, E1. simpl.
  destruct (compatible (getLockMode first) (getLockMode second)); simpl;
    repeat split; try reflexivity; try discriminate; try tauto.
  destruct ec2 as [[]|]; discriminate.
Qed.

Lemma coordinator_compatibility_witness :
  getInstanceRole (Scenario.coord 1 0 RD) = COORD
  /\ getInstanceRole (Scenario.coord 2 1 WR) = COORD
  /\ validRequest (Scenario.coord 1 0 RD) = true
  /\ validRequest (Scenario.coord 2 1 WR) = true
  /\ getArrayName (Scenario.coord 1 0 RD) = getArrayName (Scenario.coord 2 1 WR)
  /\ getQueryId (Scenario.coord 1 0 RD) <> getQueryId (Scenario.coord 2 1 WR)
  /\ la_table (_lockArray None (Scenario.coord 2 1 WR) None
                          (la_table (_lockArray None (Scenario.coord 1 0 RD) None [])))
     = [rowOf (Scenario.coord 1 0 RD); rowOf (Scenario.coord 2 1 WR)].
Proof.
  assert (Hq : getQueryId (Scenario.coord 1 0 RD) <> getQueryId (Scenario.coord 2 1 WR))
    by discriminate.
  repeat (split; [reflexivity || exact Hq|]).
  apply (coordinator_compatibility (Scenario.coord 1 0 RD) (Scenario.coord 2 1 WR)
           None None eq_refl eq_refl eq_refl eq_refl eq_refl Hq).
  reflexivity.
Defined.

(** ** What a lock request writes *)

Lemma insertResult_rows rows tbl out n tbl' :
  insertResult rows tbl = PgOk out n tbl' ->
  insertRows rows tbl = Some tbl' /\ n = Z.of_nat (List.length rows).
Proof.
  unfold insertResult. destruct (insertRows rows tbl); [|discriminate].
  intros H. injection H as _ <- <-. auto.
Qed.

Lemma stamp_key ld c :
  String.eqb (array_name c) (getArrayName ld) = true ->
  (query_id c =? getQueryId ld) = true ->
  keyOf ld (stamp (getInstanceId ld) (roleCode WORKER) c) = true.
Proof.
  intros Hn Hq. unfold keyOf, stamp. simpl. now rewrite Hn, Hq, Z.eqb_refl.
Qed.

Lemma stamped_keyed ld (sel : LockRow -> bool) tbl :
  (forall c, sel c = true ->
     String.eqb (array_name c) (getArrayName ld) = true
     /\ (query_id c =? getQueryId ld) = true) ->
  forall r, In r (map (stamp (getInstanceId ld) (roleCode WORKER)) (filter sel tbl)) ->
            keyOf ld r = true.
Proof.
  intros Hsel r Hr. apply in_map_iff in Hr as (c & <- & Hc).
  apply filter_In in Hc as [_ Hc]. destruct (Hsel c Hc). now apply stamp_key.
Qed.

Lemma filter_all (A : Type) (p : A -> bool) l :
  (forall x, In x l -> p x = true) -> filter p l = l.
Proof.
  induction l as [|x l IH]; simpl; intros H; [reflexivity|].
  rewrite (H x) by auto. f_equal. apply IH. intros y Hy. apply H. auto.
Qed.

Lemma readBack_fresh ld tbl rows :
  (forall r, In r tbl -> keyOf ld r = false) ->
  (forall r, In r rows -> keyOf ld r = true) ->
  lockReadSql (getArrayName ld) (getQueryId ld) (getInstanceId ld) (tbl ++ rows) = rows.
Proof.
  intros Hfresh Hkeyed. unfold lockReadSql. rewrite filter_app.
  change (filter (keyOf ld) tbl ++ filter (keyOf ld) rows = rows).
  rewrite (filter_none _ _ tbl Hfresh), (filter_all _ _ rows Hkeyed). reflexivity.
Qed.

Lemma statements_rows f sql ld tbl n ld' tbl' ev :
  getLockInsertSql ld = Return sql ->
  lockArrayStatements f sql ld tbl = Executed n ld' tbl' ev ->
  exists rows,
    insertRows rows tbl = Some tbl'
    /\ (forall r, In r rows -> keyOf ld r = true)
    /\ (forall r, keyOf ld' r = keyOf ld r)
    /\ ((forall r, In r tbl -> keyOf ld r = false) -> n = Z.of_nat (List.length rows)).
Proof.
  intros Hsql Hst.
  destruct f as [f|]; [rewrite (statements_fault f sql ld tbl Hsql) in Hst; discriminate|].
  unfold getLockInsertSql in Hsql. unfold lockArrayStatements, execInsert, exec in Hst.
  destruct (getInstanceRole ld) eqn:Hrole, (getLockMode ld) eqn:Hmode;
    simpl in Hsql; try discriminate; injection Hsql as <-; simpl in Hst.
  all: match type of Hst with
       | context [if ?g then insertResult _ _ else _] => destruct g eqn:G
       | _ => idtac
       end.
  all: match type of Hst with
       | context [insertResult ?rows ?t] =>
           destruct (insertResult rows t) as [out aff t'|e] eqn:IR; try discriminate;
           apply insertResult_rows in IR as [IR Haff]; exists rows
       end.
  all: try solve [ injection Hst; intros; subst;
                   split; [assumption|];
                   split; [intros r Hr; simpl in Hr; destruct Hr as [<-|[]] || destruct Hr;
                           unfold keyOf; simpl;
                           now rewrite String.eqb_refl, !Z.eqb_refl|];
                   split; [reflexivity|intros _; reflexivity] ].
  - assert (Hex : tbl' = t' /\ (forall r, keyOf ld' r = keyOf ld r) /\ n = aff).
    { destruct (aff =? 1); [destruct (lockReadSql _ _ _ t') as [|r0 more]|].
      - injection Hst as <- <- <- _. auto.
      - apply stampRead_Executed in Hst as (_ & -> & -> & -> & _).
        repeat split; intros; now destruct ld.
      - injection Hst as <- <- <- _. auto. }
    destruct Hex as (-> & Hkey & ->).
    split; [assumption|]. split; [|split; [exact Hkey|intros _; exact Haff]].
    apply (stamped_keyed ld). intros c Hc.
    apply andb_prop in Hc as [Hc _]. apply andb_prop in Hc as [Hc _].
    now apply andb_prop in Hc.
  - assert (Hkeyed : forall r, In r (map (stamp (getInstanceId ld) 2)
                       (filter (fun AVL : LockRow =>
                          String.eqb (array_name AVL) (getArrayName ld)
                          && (query_id AVL =? getQueryId ld) && (instance_role AVL =? 1)
                          && (lock_mode AVL =? 4)
                          && negb (existsb (fun AVL2 : LockRow =>
                                      String.eqb (array_name AVL2) (getArrayName ld)
                                      && (query_id AVL2 =? getQueryId ld)
                                      && (instance_id AVL2 =? getInstanceId ld)) tbl))
                          tbl)) -> keyOf ld r = true).
    { apply (stamped_keyed ld). intros c Hc.
      apply andb_prop in Hc as [Hc _]. apply andb_prop in Hc as [Hc _].
      apply andb_prop in Hc as [Hc _]. now apply andb_prop in Hc. }
    destruct ((aff =? 1) || (aff =? 0)); [|discriminate].
    assert (Hex : tbl' = t' /\ (forall r, keyOf ld' r = keyOf ld r)
                  /\ n = Z.of_nat (List.length
                                     (lockReadSql (getArrayName ld) (getQueryId ld)
                                                  (getInstanceId ld) t'))).
    { destruct (lockReadSql _ _ _ t') as [|r [|r' rest]]; try discriminate.
      - injection Hst as <- <- <- _. auto.
      - apply stampRead_Executed in Hst as (_ & -> & -> & -> & _).
        repeat split; intros; now destruct ld. }
    destruct Hex as (-> & Hkey & ->).
    split; [assumption|]. split; [exact Hkeyed|]. split; [exact Hkey|].
    intros Hfresh. pose proof (insertRows_app _ _ _ IR) as Ht'. subst t'.
    now rewrite (readBack_fresh ld tbl _ Hfresh Hkeyed).
Qed.

Lemma keyOf_sameKey ld r x : keyOf ld r = true -> sameKey r x = keyOf ld x.
Proof.
  unfold keyOf, sameKey. intros H.
  apply andb_prop in H as [H Hi]. apply andb_prop in H as [Hn Hq].
  apply String.eqb_eq in Hn. apply Z.eqb_eq in Hq, Hi. rewrite Hn, Hq, Hi.
  now rewrite String.eqb_sym, (Z.eqb_sym (getQueryId ld)), (Z.eqb_sym (getInstanceId ld)).
Qed.

(** Rows that share one key go into the table one at most, and only when
    the key is not there yet. *)
Lemma insertRows_keyed ld rows tbl tbl' :
  insertRows rows tbl = Some tbl' ->
  (forall r, In r rows -> keyOf ld r = true) ->
  rows = []
  \/ exists row, rows = [row] /\ forall x, In x tbl -> keyOf ld x = false.
Proof.
  destruct rows as [|r [|r' rest]]; simpl; intros H Hk; [now left| |].
  - right. exists r. split; [reflexivity|].
    destruct (existsb (sameKey r) tbl) eqn:E; [discriminate|].
    intros x Hx. rewrite <- (keyOf_sameKey ld r x) by auto.
    now apply (existsb_false_forall _ _ _ E).
  - destruct (existsb (sameKey r) tbl); [discriminate|].
    rewrite existsb_app in H. simpl in H.
    rewrite (keyOf_sameKey ld r' r), (Hk r) in H by auto.
    rewrite orb_true_r in H. discriminate.
Qed.

Lemma stampFromRow_failed_key r ld ld' :
  stampFromRow r ld = StampFailed ld' -> forall x, keyOf ld' x = keyOf ld x.
Proof.
  unfold stampFromRow.
  destruct (as_uint64 (array_version r)); [|now intros [= <-]].
  destruct (as_uint64 (array_id r)); [|intros [= <-]; now destruct ld].
  destruct (as_uint64 (array_version_id r)); [discriminate|].
  intros [= <-]. now destruct ld.
Qed.

(** A conversion that fails leaves the key of the descriptor as it was. *)
Lemma statements_conversion_failed f sql ld tbl ld' ev :
  lockArrayStatements f sql ld tbl = ConversionFailed ld' ev ->
  forall x, keyOf ld' x = keyOf ld x.
Proof.
  unfold lockArrayStatements, execInsert, exec, stampRead.
  destruct (getLockMode ld), (getInstanceRole ld), f as [f|]; try discriminate;
    repeat match goal with
           | |- match ?x with _ => _ end = _ -> _ =>
               match x with
               | stampFromRow _ _ => fail 1
               | _ => destruct x; try discriminate
               end
           | |- (if ?c then _ else _) = _ -> _ => destruct c; try discriminate
           end;
    match goal with
    | |- context [stampFromRow ?r ?l] =>
        destruct (stampFromRow r l) as [y|y] eqn:E; [discriminate|];
        intros [= <- _]; now apply (stampFromRow_failed_key r)
    end.
Qed.

Lemma lockArray_rows f ld ec tbl :
  exists rows,
    insertRows rows tbl = Some (la_table (_lockArray f ld ec tbl))
    /\ (forall r, In r rows -> keyOf ld r = true)
    /\ (forall x, keyOf (la_lockDesc (_lockArray f ld ec tbl)) x = keyOf ld x)
    /\ ((forall x, In x tbl -> keyOf ld x = false) ->
        (la_outcome (_lockArray f ld ec tbl) = Return true
         <-> List.length rows = 1%nat)).
Proof.
  assert (Hnil : forall o, o <> Return true ->
            exists rows,
              insertRows rows tbl = Some tbl
              /\ (forall r, In r rows -> keyOf ld r = true)
              /\ (forall x, keyOf ld x = keyOf ld x)
              /\ ((forall x, In x tbl -> keyOf ld x = false) ->
                  (o = Return true <-> List.length rows = 1%nat))).
  { intros o Ho. exists []. repeat split; try contradiction; try discriminate. }
  unfold _lockArray. destruct (getLockInsertSql ld) as [sql|e] eqn:Hsql;
    [|apply Hnil; discriminate].
  destruct (lockArrayStatements f sql ld tbl) as [n ld' tbl' ev|e ev|ld' ev|e ev] eqn:Hst.
  - destruct (statements_rows f sql ld tbl n ld' tbl' ev Hsql Hst)
      as (rows & Hins & Hkeyed & Hkey & Hn).
    exists rows.
    destruct (Z.eqb_spec n 1) as [->|Hne]; simpl.
    + split; [assumption|]. split; [assumption|]. split; [assumption|].
      intros Hfresh. apply Hn in Hfresh. split; [lia|reflexivity].
    + assert (Hno : forall o : Outcome bool, o <> Return true ->
                (forall x, In x tbl -> keyOf ld x = false) ->
                (o = Return true <-> List.length rows = 1%nat)).
      { intros o Ho Hfresh. apply Hn in Hfresh. split; [contradiction|lia]. }
      destruct (InstanceRole_eqb (getInstanceRole ld') WORKER); simpl;
        (split; [assumption|]; split; [assumption|]; split; [assumption|]);
        apply Hno; try discriminate.
      destruct ec as [[]|]; discriminate.
  - destruct e; simpl; try (apply Hnil; discriminate).
    destruct (isLocked ld) eqn:Hlocked; simpl; [|apply Hnil; discriminate].
    destruct (getInstanceRole ld) eqn:Hrole; simpl; try (apply Hnil; discriminate).
    exists []. split; [reflexivity|]. split; [contradiction|]. split; [reflexivity|].
    intros Hfresh. exfalso.
    destruct f as [f|].
    { rewrite (statements_fault f sql ld tbl Hsql) in Hst. now destruct f. }
    pose proof (coordinator_run ld ec tbl sql Hrole Hsql Hfresh) as Hrun.
    unfold _lockArray in Hrun. rewrite Hsql, Hst in Hrun.
    assert (Hev : ev ++ [TxAbort] = [ExecLockInsert sql] ++ [TxCommit]).
    { destruct (existsb (blocking ld) tbl); apply (f_equal la_events) in Hrun;
        simpl in Hrun; now injection Hrun. }
    apply app_inj_tail in Hev as [_ Hev]. discriminate.
  - simpl. exists []. split; [reflexivity|]. split; [contradiction|].
    split; [exact (statements_conversion_failed f sql ld tbl ld' ev Hst)|].
    intros _. split; discriminate.
  - simpl. apply Hnil. discriminate.
Qed.

(** X6: what lockArray writes.  One attempt never changes or removes a row
    of the lock table and never changes the key of the caller's descriptor;
    it either leaves the table as it was or appends exactly one row, which
    carries the key of the request, and it appends only when that key was
    not in the table and the call returns true.  A call that raises or
    returns false has written nothing. *)
Theorem lockArray_writes_one_row
        (fault : Fault) (lockDesc : LockDesc) (errorChecker : ErrorChecker)
        (tbl : LockTable) :
  let r := _lockArray fault lockDesc errorChecker tbl in
  (forall x, keyOf (la_lockDesc r) x = keyOf lockDesc x)
  /\ (la_table r = tbl
      \/ exists row,
           la_table r = tbl ++ [row]
           /\ keyOf lockDesc row = true
           /\ (forall x, In x tbl -> keyOf lockDesc x = false)
           /\ la_outcome r = Return true)
  /\ (la_outcome r <> Return true -> la_table r = tbl).
Proof.
  intros r. unfold r.
  destruct (lockArray_rows fault lockDesc errorChecker tbl)
    as (rows & Hins & Hkeyed & Hkey & Hout).
  pose proof (insertRows_app _ _ _ Hins) as Htbl.
  destruct (insertRows_keyed lockDesc rows tbl _ Hins Hkeyed)
    as [->|(row & -> & Hfresh)].
  - rewrite app_nil_r in Htbl. auto.
  - split; [assumption|]. split.
    + right. exists row. split; [assumption|]. split; [apply Hkeyed; now left|].
      split; [assumption|]. now apply (Hout Hfresh).
    + intros Hno. exfalso. apply Hno. now apply (Hout Hfresh).
Qed.

(** X7: unlockArray undoes lockArray.  When the key of a request is not in
    the lock table and lockArray returns true, unlockArray with the
    descriptor lockArray leaves returns true and the lock table is again
    what it was before the lock; a second unlockArray returns false and
    changes nothing. *)
Theorem unlockArray_after_lockArray
        (lockDesc : LockDesc) (errorChecker : ErrorChecker) (tbl : LockTable) :
  (forall x, In x tbl -> keyOf lockDesc x = false) ->
  let r := _lockArray None lockDesc errorChecker tbl in
  la_outcome r = Return true ->
  _unlockArray None (la_lockDesc r) (la_table r) = (Return true, tbl)
  /\ _unlockArray None (la_lockDesc r) tbl = (Return false, tbl).
Proof.
  intros Hfresh r Htrue. unfold r in *.
  destruct (lockArray_rows None lockDesc errorChecker tbl)
    as (rows & Hins & Hkeyed & Hkey & Hout).
  apply (Hout Hfresh) in Htrue.
  apply insertRows_app in Hins. rewrite Hins.
  set (ld' := la_lockDesc (_lockArray None lockDesc errorChecker tbl)) in *.
  assert (Hk1 : forall l, filter (keyOf ld') l = filter (keyOf lockDesc) l)
    by (intros l; apply filter_ext; exact Hkey).
  assert (Hk2 : forall l, filter (fun x => negb (keyOf ld' x)) l
                          = filter (fun x => negb (keyOf lockDesc x)) l)
    by (intros l; apply filter_ext; intros x; now rewrite Hkey).
  assert (Hnone : filter (keyOf lockDesc) tbl = []) by now apply filter_none.
  assert (Hall : filter (fun x => negb (keyOf lockDesc x)) tbl = tbl).
  { apply filter_all. intros x Hx. now rewrite Hfresh. }
  unfold _unlockArray. rewrite !Hk1, !Hk2, !filter_app, Hnone, Hall.
  rewrite (filter_all _ _ rows Hkeyed), (filter_none _ (fun x => negb (keyOf lockDesc x)) rows)
    by (intros x Hx; now rewrite Hkeyed).
  simpl. rewrite Htrue, app_nil_r. split; reflexivity.
Qed.

Lemma unlockArray_after_lockArray_witness :
  (forall x, In x Readers.reading -> keyOf (Scenario.coord 3 2 WR) x = false)
  /\ la_outcome (_lockArray None (Scenario.coord 3 2 WR) None Readers.reading)
     = Return true
  /\ _unlockArray None
       (la_lockDesc (_lockArray None (Scenario.coord 3 2 WR) None Readers.reading))
       (la_table (_lockArray None (Scenario.coord 3 2 WR) None Readers.reading))
     = (Return true, Readers.reading).
Proof.
  assert (Hfresh : forall x, In x Readers.reading ->
                             keyOf (Scenario.coord 3 2 WR) x = false).
  { intros x [<-|[]]. reflexivity. }
  split; [exact Hfresh|]. split; [reflexivity|].
  apply (unlockArray_after_lockArray (Scenario.coord 3 2 WR) None Readers.reading
                                     Hfresh eq_refl).
Defined.

(** ** Keys of the lock table *)

Lemma sameKey_sym r1 r2 : sameKey r1 r2 = sameKey r2 r1.
Proof.
  unfold sameKey.
  now rewrite String.eqb_sym, (Z.eqb_sym (query_id r1)), (Z.eqb_sym (instance_id r1)).
Qed.

Lemma uniqueKeys_snoc tbl r :
  uniqueKeys tbl -> existsb (sameKey r) tbl = false -> uniqueKeys (tbl ++ [r]).
Proof.
  induction tbl as [|x rest IH]; simpl; intros H Hr; [auto|].
  destruct H as [Hx Hrest]. apply orb_false_iff in Hr as [Hrx Hr].
  split; [|now apply IH].
  rewrite existsb_app, Hx. simpl. now rewrite sameKey_sym, Hrx.
Qed.

Lemma insertRows_uniqueKeys rows : forall tbl tbl',
  insertRows rows tbl = Some tbl' -> uniqueKeys tbl -> uniqueKeys tbl'.
Proof.
  induction rows as [|r rest IH]; simpl; intros tbl tbl' H Hu.
  - now injection H as <-.
  - destruct (existsb (sameKey r) tbl) eqn:E; [discriminate|].
    apply (IH _ _ H). now apply uniqueKeys_snoc.
Qed.

Lemma existsb_filter_false (A : Type) (p q : A -> bool) l :
  existsb p l = false -> existsb p (filter q l) = false.
Proof.
  induction l as [|x l IH]; simpl; [auto|]. intros H.
  apply orb_false_iff in H as [Hx Hl]. destruct (q x); simpl; [|auto].
  now rewrite Hx, IH.
Qed.

Lemma filter_uniqueKeys p tbl : uniqueKeys tbl -> uniqueKeys (filter p tbl).
Proof.
  induction tbl as [|x rest IH]; simpl; [auto|]. intros [Hx Hrest].
  destruct (p x); simpl; [|auto]. split; [|auto]. now apply existsb_filter_false.
Qed.

Lemma sameKey_updateRow ld a b :
  sameKey (updateRow ld a) (updateRow ld b) = sameKey a b.
Proof.
  unfold sameKey.
  destruct (updateRow_fields ld a) as (-> & -> & -> & _).
  destruct (updateRow_fields ld b) as (-> & -> & -> & _). reflexivity.
Qed.

Lemma update_uniqueKeys ld tbl :
  uniqueKeys tbl -> uniqueKeys (map (updateRow ld) tbl).
Proof.
  induction tbl as [|x rest IH]; simpl; [auto|]. intros [Hx Hrest].
  split; [|auto]. rewrite <- Hx. clear.
  induction rest as [|y rest IH]; simpl; [reflexivity|].
  now rewrite sameKey_updateRow, IH.
Qed.

Lemma applyOp_uniqueKeys iq op tbl :
  uniqueKeys tbl -> uniqueKeys (applyOp iq op tbl).
Proof.
  intros Hu. destruct op as [tries fs ld ec|tries fs ld|tries fs ld|tries fs i q role];
    simpl.
  - unfold sessionTable, lockArray.
    apply (runRestartableWork_invariant _ _
             (fun s : LockSession => uniqueKeys (snd (fst s)))); [|assumption].
    intros [fs' [[ld' tbl'] log]] H. simpl in *.
    destruct (lockArray_rows (hd None fs') ld' ec tbl') as (rows & Hins & _).
    now apply (insertRows_uniqueKeys _ _ _ Hins).
  - unfold unlockArray, tableWork.
    apply (runRestartableWork_invariant _ _ uniqueKeys); [|assumption].
    intros env H. rewrite attempt_snd. unfold _unlockArray.
    destruct (hd None (fst env)); simpl; [assumption|]. now apply filter_uniqueKeys.
  - unfold updateArrayLock, tableWork.
    apply (runRestartableWork_invariant _ _ uniqueKeys); [|assumption].
    intros env H. rewrite attempt_snd. unfold _updateArrayLock.
    destruct (hd None (fst env)); simpl; [assumption|]. now apply update_uniqueKeys.
  - unfold deleteArrayLocks, tableWork.
    apply (runRestartableWork_invariant _ _ uniqueKeys); [|assumption].
    intros env H. rewrite attempt_snd. unfold _deleteArrayLocks.
    destruct (hd None (fst env)); simpl; [assumption|]. now apply filter_uniqueKeys.
Qed.

Lemma run_uniqueKeys iq ops : forall tbl,
  uniqueKeys tbl -> uniqueKeys (run iq ops tbl).
Proof.
  induction ops as [|op rest IH]; simpl; intros tbl Hu; [assumption|].
  apply IH. now apply applyOp_uniqueKeys.
Qed.

Lemma uniqueKeys_filter_key ld tbl :
  uniqueKeys tbl ->
  filter (keyOf ld) tbl = [] \/ exists r, filter (keyOf ld) tbl = [r].
Proof.
  induction tbl as [|x rest IH]; simpl; [auto|]. intros [Hx Hrest].
  destruct (keyOf ld x) eqn:E; [|auto].
  right. exists x. f_equal. apply filter_none. intros y Hy.
  rewrite <- (keyOf_sameKey ld x y E). now apply (existsb_false_forall _ _ _ Hx).
Qed.

(** X8: whatever sequence of lockArray, unlockArray, updateArrayLock and
    deleteArrayLocks calls ran on an empty lock table, with whatever retries
    and store faults, no two rows of the table share the key (array_name,
    query_id, instance_id); so unlockArray and updateArrayLock return true
    exactly when the table holds a row with the key of their descriptor. *)
Theorem lock_keys_unique (INVALID_QUERY_ID : Z) (ops : list LockOp) :
  let tbl := run INVALID_QUERY_ID ops [] in
  uniqueKeys tbl
  /\ (forall lockDesc,
        fst (_unlockArray None lockDesc tbl) = Return true
        <-> exists r, In r tbl /\ keyOf lockDesc r = true)
  /\ (forall lockDesc,
        fst (_updateArrayLock None lockDesc tbl) = Return true
        <-> exists r, In r tbl /\ keyOf lockDesc r = true).
Proof.
  intros tbl.
  assert (Hu : uniqueKeys tbl) by (apply run_uniqueKeys; exact I).
  assert (H : forall ld,
            (Z.of_nat (List.length (filter (keyOf ld) tbl)) =? 1) = true
            <-> exists r, In r tbl /\ keyOf ld r = true).
  { intros ld. destruct (uniqueKeys_filter_key ld tbl Hu) as [E|[r E]]; rewrite E; simpl.
    - split; [discriminate|]. intros (r & Hr & Hk).
      assert (Hin : In r (filter (keyOf ld) tbl)) by (apply filter_In; auto).
      rewrite E in Hin. contradiction.
    - split; [|reflexivity]. intros _. exists r. apply filter_In. rewrite E. now left. }
  split; [assumption|].
  split; intros ld; simpl; rewrite <- H; split; intros Heq;
    (injection Heq as Heq; exact Heq) || (now rewrite Heq).
Qed.

(** ** checkForCoordinatorLock *)

Lemma coordinator_granted ld ec tbl :
  getInstanceRole ld = COORD ->
  (forall r, In r tbl -> keyOf ld r = false) ->
  la_outcome (_lockArray None ld ec tbl) = Return true ->
  la_table (_lockArray None ld ec tbl) = tbl ++ [rowOf ld]
  /\ la_lockDesc (_lockArray None ld ec tbl) = setLocked true ld.
Proof.
  intros Hrole Hfresh Htrue.
  destruct (getLockInsertSql ld) as [sql|e] eqn:Hsql.
  - rewrite (coordinator_run ld ec tbl sql Hrole Hsql Hfresh) in *.
    destruct (existsb (blocking ld) tbl); [|auto].
    simpl in Htrue. destruct ec as [[]|]; discriminate.
  - unfold _lockArray in Htrue. rewrite Hsql in Htrue. discriminate.
Qed.

Lemma static_cast_LockMode_modeCode mode :
  static_cast_LockMode (modeCode mode) = mode.
Proof. now destruct mode. Qed.

Lemma checkForCoordinatorLock_first name q tbl row rest :
  coordinatorRows name q tbl = row :: rest ->
  0 <= instance_id row -> 0 <= array_version row ->
  0 <= array_id row -> 0 <= array_version_id row ->
  _checkForCoordinatorLock None name q tbl
  = Return (Some (mkLockDesc name (array_id row) q (instance_id row)
                             (array_version_id row) 0 (array_version row) COORD
                             (static_cast_LockMode (lock_mode row)) false)).
Proof.
  intros Hrows Hi Hv Ha Havid. unfold _checkForCoordinatorLock.
  unfold coordinatorRows in Hrows. rewrite Hrows.
  now rewrite !as_uint64_nonneg by assumption.
Qed.

Lemma coordinatorRows_none name q tbl :
  coordinatorRows name q tbl = []
  <-> forall r, In r tbl ->
        ~ (array_name r = name /\ query_id r = q /\ instance_role r = roleCode COORD).
Proof.
  unfold coordinatorRows. split.
  - intros E r Hr (Hn & Hq & Hc).
    assert (Hin : In r (filter (fun r => String.eqb (array_name r) name
                                         && (query_id r =? q)
                                         && (instance_role r =? roleCode COORD)) tbl)).
    { apply filter_In. split; [assumption|].
      apply String.eqb_eq in Hn. apply Z.eqb_eq in Hq, Hc. now rewrite Hn, Hq, Hc. }
    rewrite E in Hin. contradiction.
  - intros H. apply filter_none. intros r Hr.
    destruct (String.eqb_spec (array_name r) name) as [Hn|]; [|reflexivity].
    destruct (Z.eqb_spec (query_id r) q) as [Hq|]; [|reflexivity].
    destruct (Z.eqb_spec (instance_role r) (roleCode COORD)) as [Hc|]; [|reflexivity].
    exfalso. apply (H r Hr). auto.
Qed.

(** X9: checkForCoordinatorLock finds the lock a coordinator took.  It
    answers the null pointer exactly when the table has no row of the array
    and query with the coordinator role.  After a coordinator's lockArray
    returned true on a table that had no coordinator row of its array and
    query, it answers a descriptor with the coordinator's instance, array id,
    version id, version and mode, not marked locked; after the matching
    unlockArray it answers the null pointer again. *)
Theorem checkForCoordinatorLock_after_lockArray
        (lockDesc : LockDesc) (errorChecker : ErrorChecker) (tbl : LockTable) :
  getInstanceRole lockDesc = COORD ->
  (forall r, In r tbl -> keyOf lockDesc r = false) ->
  (forall r, In r tbl ->
     ~ (array_name r = getArrayName lockDesc /\ query_id r = getQueryId lockDesc
        /\ instance_role r = roleCode COORD)) ->
  0 <= getArrayId lockDesc -> 0 <= getInstanceId lockDesc ->
  0 <= getArrayVersionId lockDesc -> 0 <= getArrayVersion lockDesc ->
  let r := _lockArray None lockDesc errorChecker tbl in
  la_outcome r = Return true ->
  _checkForCoordinatorLock None (getArrayName lockDesc) (getQueryId lockDesc) tbl
  = Return None
  /\ _checkForCoordinatorLock None (getArrayName lockDesc) (getQueryId lockDesc)
                              (la_table r)
     = Return (Some (mkLockDesc (getArrayName lockDesc) (getArrayId lockDesc)
                                (getQueryId lockDesc) (getInstanceId lockDesc)
                                (getArrayVersionId lockDesc) 0
                                (getArrayVersion lockDesc) COORD
                                (getLockMode lockDesc) false))
  /\ _checkForCoordinatorLock None (getArrayName lockDesc) (getQueryId lockDesc)
       (snd (_unlockArray None (la_lockDesc r) (la_table r)))
     = Return None.
Proof.
  intros Hrole Hfresh Hnone Ha Hi Havid Hav r Htrue. unfold r in *.
  destruct (coordinator_granted lockDesc errorChecker tbl Hrole Hfresh Htrue)
    as [Htbl Hld].
  apply coordinatorRows_none in Hnone.
  assert (Hcheck : _checkForCoordinatorLock None (getArrayName lockDesc)
                     (getQueryId lockDesc) tbl = Return None).
  { unfold _checkForCoordinatorLock. unfold coordinatorRows in Hnone.
    now rewrite Hnone. }
  split; [exact Hcheck|]. split.
  - rewrite Htbl.
    rewrite (checkForCoordinatorLock_first _ _ _ (rowOf lockDesc) []); simpl;
      try assumption.
    + now rewrite static_cast_LockMode_modeCode.
    + unfold coordinatorRows in *. rewrite filter_app, Hnone. simpl.
      now rewrite String.eqb_refl, Z.eqb_refl, Hrole.
  - rewrite Htbl, Hld. unfold _unlockArray. cbn [snd].
    rewrite (filter_ext _ (fun x => negb (keyOf lockDesc x))) by reflexivity.
    rewrite filter_app, (filter_all _ _ tbl)
      by (intros x Hx; now rewrite (Hfresh x Hx)).
    assert (Hk : keyOf lockDesc (rowOf lockDesc) = true)
      by (unfold keyOf, rowOf; simpl; now rewrite String.eqb_refl, !Z.eqb_refl).
    simpl. rewrite Hk. simpl. rewrite app_nil_r. exact Hcheck.
Qed.

Lemma checkForCoordinatorLock_after_lockArray_witness :
  getInstanceRole (Scenario.coord 3 2 WR) = COORD
  /\ (forall r, In r Readers.reading -> keyOf (Scenario.coord 3 2 WR) r = false)
  /\ la_outcome (_lockArray None (Scenario.coord 3 2 WR) None Readers.reading)
     = Return true
  /\ _checkForCoordinatorLock None Scenario.A 3
       (la_table (_lockArray None (Scenario.coord 3 2 WR) None Readers.reading))
     = Return (Some (Scenario.coord 3 2 WR)).
Proof.
  assert (Hfresh : forall r, In r Readers.reading ->
                             keyOf (Scenario.coord 3 2 WR) r = false).
  { intros r [<-|[]]. reflexivity. }
  split; [reflexivity|]. split; [exact Hfresh|]. split; [reflexivity|].
  apply (checkForCoordinatorLock_after_lockArray (Scenario.coord 3 2 WR) None
           Readers.reading eq_refl Hfresh).
  - intros r [<-|[]] (_ & Hq & _). discriminate.
  - simpl. lia.
  - simpl. lia.
  - simpl. lia.
  - simpl. lia.
  - reflexivity.
Defined.

Lemma filter_map_comm (A B : Type) (f : A -> B) (p : B -> bool) l :
  filter p (map f l) = map f (filter (fun x => p (f x)) l).
Proof.
  induction l as [|x l IH]; simpl; [reflexivity|].
  destruct (p (f x)); simpl; now rewrite IH.
Qed.

(** X10: updateArrayLock is read back by checkForCoordinatorLock.  When the
    only coordinator row of an array and query is the row with the key of
    the descriptor, updateArrayLock returns true and checkForCoordinatorLock
    then answers the array id, version id, version and mode of the
    descriptor; rows with another key are neither changed, added nor
    removed. *)
Theorem updateArrayLock_read_back
        (lockDesc : LockDesc) (tbl : LockTable) (row : LockRow) :
  uniqueKeys tbl ->
  coordinatorRows (getArrayName lockDesc) (getQueryId lockDesc) tbl = [row] ->
  instance_id row = getInstanceId lockDesc ->
  0 <= getArrayId lockDesc -> 0 <= getInstanceId lockDesc ->
  0 <= getArrayVersionId lockDesc -> 0 <= getArrayVersion lockDesc ->
  let u := _updateArrayLock None lockDesc tbl in
  fst u = Return true
  /\ _checkForCoordinatorLock None (getArrayName lockDesc) (getQueryId lockDesc) (snd u)
     = Return (Some (mkLockDesc (getArrayName lockDesc) (getArrayId lockDesc)
                                (getQueryId lockDesc) (getInstanceId lockDesc)
                                (getArrayVersionId lockDesc) 0
                                (getArrayVersion lockDesc) COORD
                                (getLockMode lockDesc) false))
  /\ (forall r, keyOf lockDesc r = false -> (In r (snd u) <-> In r tbl)).
Proof.
  intros Hu Hrows Hinst Ha Hi Havid Hav u. unfold u, _updateArrayLock. cbn [fst snd].
  assert (Hrow : In row tbl /\ array_name row = getArrayName lockDesc
                 /\ query_id row = getQueryId lockDesc
                 /\ instance_role row = roleCode COORD).
  { assert (Hin : In row (coordinatorRows (getArrayName lockDesc) (getQueryId lockDesc)
                                          tbl)) by (rewrite Hrows; now left).
    apply filter_In in Hin as [Hin Hp]. apply andb_prop in Hp as [Hp Hc].
    apply andb_prop in Hp as [Hn Hq]. apply String.eqb_eq in Hn.
    apply Z.eqb_eq in Hq, Hc. auto. }
  destruct Hrow as (Hin & Hn & Hq & Hc).
  assert (Hk : keyOf lockDesc row = true)
    by (unfold keyOf; now rewrite Hn, Hq, Hinst, String.eqb_refl, !Z.eqb_refl).
  split; [|split].
  - destruct (uniqueKeys_filter_key lockDesc tbl Hu) as [E|[r E]]; rewrite E.
    + assert (Hf : In row (filter (keyOf lockDesc) tbl)) by (apply filter_In; auto).
      rewrite E in Hf. contradiction.
    + reflexivity.
  - rewrite (checkForCoordinatorLock_first _ _ _ (updateRow lockDesc row) []).
    + unfold updateRow. rewrite Hk. simpl.
      now rewrite Hinst, static_cast_LockMode_modeCode.
    + unfold coordinatorRows in *. rewrite filter_map_comm.
      rewrite (filter_ext _ (fun r => String.eqb (array_name r) (getArrayName lockDesc)
                                      && (query_id r =? getQueryId lockDesc)
                                      && (instance_role r =? roleCode COORD))).
      * now rewrite Hrows.
      * intros r. now destruct (updateRow_fields lockDesc r) as (-> & -> & _ & ->).
    + destruct (updateRow_fields lockDesc row) as (_ & _ & -> & _). lia.
    + unfold updateRow. rewrite Hk. simpl. lia.
    + unfold updateRow. rewrite Hk. simpl. lia.
    + unfold updateRow. rewrite Hk. simpl. lia.
  - intros r Hr. rewrite in_map_iff. split.
    + intros (x & Hx & Hxin). unfold updateRow in Hx.
      destruct (keyOf lockDesc x) eqn:E; [|now subst].
      exfalso. subst r. unfold keyOf in Hr, E. simpl in Hr. congruence.
    + intros Hrin. exists r. split; [|assumption]. unfold updateRow. now rewrite Hr.
Qed.

Lemma updateArrayLock_read_back_witness :
  uniqueKeys Locks.held
  /\ coordinatorRows Scenario.A 1 Locks.held
     = [mkLockRow Scenario.A 100 1 1 101 1 (roleCode COORD) (modeCode WR)]
  /\ _checkForCoordinatorLock None Scenario.A 1
       (snd (_updateArrayLock None Locks.newVersion Locks.held))
     = Return (Some (mkLockDesc Scenario.A 100 1 1 102 0 2 COORD WR false)).
Proof.
  assert (Hu : uniqueKeys Locks.held) by (simpl; repeat split).
  split; [exact Hu|]. split; [reflexivity|].
  apply (updateArrayLock_read_back Locks.newVersion Locks.held
           (mkLockRow Scenario.A 100 1 1 101 1 (roleCode COORD) (modeCode WR))
           Hu eq_refl eq_refl); simpl; lia.
Defined.

(** ** Workers *)

(** X11: a worker's WR request copies the coordinator's lock.  With the
    worker's key not in the table: when the array and query have exactly one
    coordinator row, its mode is WR or CRT and its array id, version id and
    version are unsigned, lockArray returns true, appends that row with the
    worker's instance id and role, and gives the worker's descriptor the
    coordinator's array id, version id and version; when one of the three is
    negative, its conversion fails, lockArray raises UNKNOWN_ERROR and the
    row is rolled back; when no coordinator row of the array and query has
    mode WR or CRT, it returns false without writing anything, whatever the
    errorChecker. *)
Theorem worker_WR_copies_coordinator
        (lockDesc : LockDesc) (errorChecker : ErrorChecker) (tbl : LockTable) :
  getInstanceRole lockDesc = WORKER ->
  getLockMode lockDesc = WR ->
  (forall r, In r tbl -> keyOf lockDesc r = false) ->
  let rows := coordinatorRows (getArrayName lockDesc) (getQueryId lockDesc) tbl in
  (forall c, rows = [c] ->
     lock_mode c = modeCode WR \/ lock_mode c = modeCode CRT ->
     unsignedIds c = true ->
     _lockArray None lockDesc errorChecker tbl
     = mkLockArrayResult (Return true) (setLocked true (withRowIds c lockDesc))
         (tbl ++ [stamp (getInstanceId lockDesc) (roleCode WORKER) c])
         [TxBegin read_committed; ExecLockTable; ExecLockInsert WORKER_WR_insert;
          ExecLockRead; TxCommit])
  /\ (forall c, rows = [c] ->
        lock_mode c = modeCode WR \/ lock_mode c = modeCode CRT ->
        unsignedIds c = false ->
        la_outcome (_lockArray None lockDesc errorChecker tbl)
        = Throw (SystemException SCIDB_SE_SYSCAT SCIDB_LE_UNKNOWN_ERROR)
        /\ la_table (_lockArray None lockDesc errorChecker tbl) = tbl)
  /\ ((forall c, In c rows -> lock_mode c <> modeCode WR /\ lock_mode c <> modeCode CRT) ->
      _lockArray None lockDesc errorChecker tbl
      = mkLockArrayResult (Return false) lockDesc tbl
          [TxBegin read_committed; ExecLockTable; ExecLockInsert WORKER_WR_insert;
           TxCommit]).
Proof.
  intros Hrole Hmode Hfresh rows.
  assert (Hsel : filter (fun AVL => String.eqb (array_name AVL) (getArrayName lockDesc)
                                    && (query_id AVL =? getQueryId lockDesc)
                                    && (instance_role AVL =? 1)
                                    && ((lock_mode AVL =? 2) || (lock_mode AVL =? 3))) tbl
                 = filter (fun AVL => (lock_mode AVL =? 2) || (lock_mode AVL =? 3)) rows).
  { unfold rows, coordinatorRows. now rewrite filter_filter_andb. }
  assert (Hrun : _lockArray None lockDesc errorChecker tbl
                 = match exec None WORKER_WR_insert
                               [VStr (getArrayName lockDesc); VInt (getQueryId lockDesc);
                                VInt (getInstanceId lockDesc); VInt (roleCode WORKER);
                                VInt (modeCode WR); VInt (modeCode CRT)] tbl with
                   | PgOk _ 1 tbl' =>
                       match lockReadSql (getArrayName lockDesc) (getQueryId lockDesc)
                                         (getInstanceId lockDesc) tbl' with
                       | r :: _ =>
                           match stampFromRow r lockDesc with
                           | Stamp ld' =>
                               mkLockArrayResult (Return true) (setLocked true ld') tbl'
                                 [TxBegin read_committed; ExecLockTable;
                                  ExecLockInsert WORKER_WR_insert; ExecLockRead; TxCommit]
                           | StampFailed ld' =>
                               mkLockArrayResult
                                 (Throw (SystemException SCIDB_SE_SYSCAT
                                                         SCIDB_LE_UNKNOWN_ERROR))
                                 ld' tbl
                                 [TxBegin read_committed; ExecLockTable;
                                  ExecLockInsert WORKER_WR_insert; ExecLockRead; TxAbort]
                           end
                       | [] =>
                           mkLockArrayResult (Return true) (setLocked true lockDesc) tbl'
                             [TxBegin read_committed; ExecLockTable;
                              ExecLockInsert WORKER_WR_insert; ExecLockRead; TxCommit]
                       end
                   | PgOk _ _ tbl' =>
                       mkLockArrayResult (Return false) lockDesc tbl'
                         [TxBegin read_committed; ExecLockTable;
                          ExecLockInsert WORKER_WR_insert; TxCommit]
                   | PgThrow e => _lockArray None lockDesc errorChecker tbl
                   end).
  { unfold _lockArray, getLockInsertSql, lockArrayStatements. rewrite Hrole, Hmode.
    cbn [LockMode_eqb modeCode Z.eqb Pos.eqb].
    destruct (exec None WORKER_WR_insert _ tbl) as [out aff tbl'|e]; [|reflexivity].
    destruct (Z.eqb_spec aff 1) as [->|Hne].
    - simpl. destruct (lockReadSql _ _ _ tbl') as [|r more]; [reflexivity|].
      unfold stampRead. destruct (stampFromRow r lockDesc); reflexivity.
    - assert (E : (aff =? 1) = false) by now apply Z.eqb_neq.
      rewrite E, Hrole. simpl.
      destruct aff as [|[]|]; try reflexivity; contradiction. }
  rewrite Hrun. unfold exec, execLockInsert. cbn [roleCode modeCode]. rewrite Hsel.
  assert (Hcopy : forall c, rows = [c] ->
            lock_mode c = modeCode WR \/ lock_mode c = modeCode CRT ->
            insertResult
              (map (stamp (getInstanceId lockDesc) 2)
                   (filter (fun AVL => (lock_mode AVL =? 2) || (lock_mode AVL =? 3)) rows))
              tbl
            = PgOk [] 1 (tbl ++ [stamp (getInstanceId lockDesc) 2 c])
            /\ lockReadSql (getArrayName lockDesc) (getQueryId lockDesc)
                           (getInstanceId lockDesc)
                           (tbl ++ [stamp (getInstanceId lockDesc) 2 c])
               = [stamp (getInstanceId lockDesc) 2 c]).
  { intros c Hc Hm. rewrite Hc. cbn [filter].
    assert (E : (lock_mode c =? 2) || (lock_mode c =? 3) = true).
    { destruct Hm as [-> | ->]; reflexivity. }
    rewrite E. cbn [map].
    assert (Hin : In c rows) by (rewrite Hc; now left).
    apply filter_In in Hin as [_ Hp]. apply andb_prop in Hp as [Hp _].
    apply andb_prop in Hp as [Hn Hq].
    pose proof (stamp_key lockDesc c Hn Hq) as Hk.
    split.
    - rewrite insertResult_fresh; [reflexivity|].
      destruct (existsb _ tbl) eqn:Ex; [|reflexivity].
      apply existsb_exists in Ex as (x & Hx & Hs).
      rewrite (keyOf_sameKey lockDesc (stamp (getInstanceId lockDesc) 2 c) x Hk),
        (Hfresh x Hx) in Hs. discriminate.
    - apply (readBack_fresh lockDesc tbl [_] Hfresh).
      intros r [<-|[]]. exact Hk. }
  split; [|split].
  - intros c Hc Hm Hu. destruct (Hcopy c Hc Hm) as [-> ->].
    now rewrite (stampFromRow_unsigned (stamp (getInstanceId lockDesc) 2 c) lockDesc Hu).
  - intros c Hc Hm Hu. destruct (Hcopy c Hc Hm) as [-> ->].
    destruct (stampFromRow_signed (stamp (getInstanceId lockDesc) 2 c) lockDesc Hu)
      as [ld' ->].
    split; reflexivity.
  - intros Hno. rewrite filter_none; [reflexivity|].
    intros c Hc. destruct (Hno c Hc) as [H2 H3]. simpl in H2, H3.
    apply Z.eqb_neq in H2, H3. now rewrite H2, H3.
Qed.

Lemma worker_WR_copies_coordinator_witness :
  getInstanceRole Locks.joining = WORKER
  /\ getLockMode Locks.joining = WR
  /\ (forall r, In r Locks.held -> keyOf Locks.joining r = false)
  /\ coordinatorRows (getArrayName Locks.joining) (getQueryId Locks.joining) Locks.held
     = [mkLockRow Scenario.A 100 1 1 101 1 (roleCode COORD) (modeCode WR)]
  /\ unsignedIds (mkLockRow Scenario.A 100 1 1 101 1 (roleCode COORD) (modeCode WR)) = true
  /\ la_lockDesc (_lockArray None Locks.joining None Locks.held)
     = mkLockDesc Scenario.A 100 1 3 101 0 1 WORKER WR true.
Proof.
  assert (Hfresh : forall r, In r Locks.held -> keyOf Locks.joining r = false).
  { intros r [<-|[<-|[<-|[<-|[]]]]]; reflexivity. }
  split; [reflexivity|]. split; [reflexivity|]. split; [exact Hfresh|].
  split; [reflexivity|]. split; [reflexivity|].
  destruct (worker_WR_copies_coordinator Locks.joining None Locks.held
              eq_refl eq_refl Hfresh) as [Hgrant _].
  rewrite (Hgrant (mkLockRow Scenario.A 100 1 1 101 1 (roleCode COORD) (modeCode WR))
                  eq_refl (or_introl eq_refl) eq_refl).
  reflexivity.
Defined.

Lemma statements_worker sql ld tbl f :
  getInstanceRole ld = WORKER ->
  getLockInsertSql ld = Return sql ->
  match lockArrayStatements f sql ld tbl with
  | Executed _ ld' _ _ => getInstanceRole ld' = WORKER
  | PqxxThrown _ _ | ConversionFailed _ _ => True
  | Thrown e _ => e <> LockBusyException
  end.
Proof.
  intros Hrole Hsql. unfold getLockInsertSql in Hsql.
  assert (Hstamp : forall n r t e,
            match stampRead n r ld t e with
            | Executed _ ld' _ _ => getInstanceRole ld' = WORKER
            | PqxxThrown _ _ | ConversionFailed _ _ => True
            | Thrown e _ => e <> LockBusyException
            end).
  { intros n r t e. unfold stampRead.
    destruct (stampFromRow r ld) as [x|x] eqn:E; [|exact I].
    apply stampFromRow_Stamp in E as [_ ->]. now destruct ld. }
  unfold lockArrayStatements, execInsert. rewrite Hrole in *.
  destruct (getLockMode ld); simpl in Hsql; try discriminate;
    match goal with
    | |- context [exec ?f ?s ?p ?t] => destruct (exec f s p t) as [out aff t'|e]
    end; try exact I.
  - destruct (aff =? 1); [destruct (lockReadSql _ _ _ t')|];
      try exact Hrole; apply Hstamp.
  - destruct ((aff =? 1) || (aff =? 0)); [|discriminate].
    destruct (lockReadSql _ _ _ t') as [|r [|r' rest]];
      try exact Hrole; try apply Hstamp; discriminate.
Qed.

(** X12: workers error out immediately.  A worker's lockArray never raises
    LockBusyException and never consults the errorChecker: the whole result
    (outcome, descriptor, table, statements sent) is the same whatever the
    errorChecker is. *)
Theorem worker_never_busy
        (fault : Fault) (lockDesc : LockDesc) (errorChecker errorChecker' : ErrorChecker)
        (tbl : LockTable) :
  getInstanceRole lockDesc = WORKER ->
  _lockArray fault lockDesc errorChecker tbl = _lockArray fault lockDesc errorChecker' tbl
  /\ la_outcome (_lockArray fault lockDesc errorChecker tbl) <> Throw LockBusyException.
Proof.
  intros Hrole. unfold _lockArray.
  destruct (getLockInsertSql lockDesc) as [sql|e] eqn:Hsql.
  - pose proof (statements_worker sql lockDesc tbl fault Hrole Hsql) as Hw.
    destruct (lockArrayStatements fault sql lockDesc tbl)
      as [n ld' tbl' ev|e ev|ld' ev|e ev].
    + rewrite Hw. simpl. destruct (n =? 1); split; try reflexivity; discriminate.
    + split; [reflexivity|]. destruct e; simpl; try discriminate.
      rewrite Hrole. simpl. destruct (isLocked lockDesc); discriminate.
    + split; [reflexivity|]. discriminate.
    + split; [reflexivity|]. simpl. congruence.
  - split; [reflexivity|]. simpl. unfold getLockInsertSql in Hsql. rewrite Hrole in Hsql.
    destruct (getLockMode lockDesc); simpl in Hsql; try discriminate;
      injection Hsql as <-; discriminate.
Qed.

Lemma worker_never_busy_witness :
  getInstanceRole Locks.joining = WORKER
  /\ _lockArray None Locks.joining (Some true) Readers.reading
     = _lockArray None Locks.joining None Readers.reading
  /\ la_outcome (_lockArray None Locks.joining (Some true) Readers.reading)
     = Return false.
Proof.
  split; [reflexivity|]. split; [|reflexivity].
  apply (worker_never_busy None Locks.joining (Some true) None Readers.reading eq_refl).
Defined.

(** X13: which requests reach the store.  lockArray has a statement for a
    coordinator in every mode but INVALID_MODE and for a worker in the modes
    WR and XCL only.  Any other request raises before a transaction is
    opened: nothing is sent to the store, and the table and the descriptor
    are left as they were, whatever the store would have answered; a valid
    request always opens a read-committed transaction and takes the table
    lock first. *)
Theorem invalid_request_sends_nothing
        (fault : Fault) (lockDesc : LockDesc) (errorChecker : ErrorChecker)
        (tbl : LockTable) :
  let r := _lockArray fault lockDesc errorChecker tbl in
  (validRequest lockDesc = false ->
   r = mkLockArrayResult
         (Throw (match getInstanceRole lockDesc with
                 | INVALID_ROLE => AssertException "Invalid lock role requested: "
                 | _ => invalidLockRequested
                 end)) lockDesc tbl [])
  /\ (validRequest lockDesc = true ->
      exists sql rest,
        getLockInsertSql lockDesc = Return sql
        /\ la_events r
           = TxBegin read_committed :: ExecLockTable :: ExecLockInsert sql :: rest).
Proof.
  intros r. unfold r, validRequest. split.
  - intros Hv. unfold _lockArray, getLockInsertSql.
    destruct (getInstanceRole lockDesc), (getLockMode lockDesc);
      try discriminate; reflexivity.
  - intros Hv.
    assert (Hsql : exists sql, getLockInsertSql lockDesc = Return sql).
    { unfold getLockInsertSql.
      destruct (getInstanceRole lockDesc), (getLockMode lockDesc);
        try discriminate; simpl; eauto. }
    destruct Hsql as [sql Hsql]. exists sql.
    destruct (lockArray_events fault lockDesc errorChecker tbl)
      as [E|(sql' & ending & Hsql' & _ & E)].
    + exfalso. unfold _lockArray in E. rewrite Hsql in E.
      destruct (lockArrayStatements fault sql lockDesc tbl)
        as [n ld' tbl' ev|e ev|ld' ev|e ev];
        [destruct (n =? 1); [|destruct (InstanceRole_eqb _ _)]|destruct e| |];
        discriminate.
    + rewrite Hsql in Hsql'. injection Hsql' as <-. rewrite E.
      destruct (statements_events fault sql lockDesc tbl) as [E0|[E1|E1]];
        [|rewrite E1; simpl; eauto..].
      exfalso. revert E0. unfold getLockInsertSql in Hsql.
      unfold lockArrayStatements, execInsert, stampRead.
      destruct (getInstanceRole lockDesc), (getLockMode lockDesc);
        simpl in Hsql; try discriminate;
        repeat match goal with
               | |- context [exec ?f ?s ?p ?t] => destruct (exec f s p t)
               | |- context [if ?c then _ else _] => destruct c
               | |- context [match ?l with [] => _ | _ => _ end] => destruct l
               | |- context [stampFromRow ?r ?l] => destruct (stampFromRow r l)
               end; discriminate.
Qed.

Lemma invalid_request_sends_nothing_witness :
  validRequest (Scenario.worker 1 2 RD) = false
  /\ _lockArray None (Scenario.worker 1 2 RD) None Readers.reading
     = mkLockArrayResult (Throw invalidLockRequested) (Scenario.worker 1 2 RD)
                         Readers.reading [].
Proof.
  split; [reflexivity|].
  apply (invalid_request_sends_nothing None (Scenario.worker 1 2 RD) None Readers.reading).
  reflexivity.
Defined.

(** ** ORDER BY *)

Lemma insertBy_perm (A : Type) (key : A -> Z) x l : Permutation (x :: l) (insertBy key x l).
Proof.
  induction l as [|y rest IH]; simpl; [reflexivity|].
  destruct (key x <=? key y); [reflexivity|].
  rewrite perm_swap. now constructor.
Qed.

Lemma orderBy_perm (A : Type) (key : A -> Z) l : Permutation l (orderBy key l).
Proof.
  induction l as [|x rest IH]; simpl; [constructor|].
  rewrite <- insertBy_perm. now constructor.
Qed.

Lemma insertBy_ascending (A : Type) (key : A -> Z) x l :
  ascending (map key l) -> ascending (map key (insertBy key x l)).
Proof.
  induction l as [|y rest IH]; simpl; intros H.
  - split; [intros ? []|exact I].
  - destruct H as [Hy Hrest]. destruct (Z.leb_spec (key x) (key y)); simpl.
    + split; [|split; assumption].
      intros z [<-|Hz]; [assumption|]. specialize (Hy z Hz). lia.
    + split; [|now apply IH].
      intros z Hz. apply in_map_iff in Hz as (w & <- & Hw).
      apply (Permutation_in _ (Permutation_sym (insertBy_perm _ key x rest))) in Hw.
      destruct Hw as [<-|Hw]; [lia|]. apply Hy. now apply in_map.
Qed.

Lemma orderBy_ascending (A : Type) (key : A -> Z) l : ascending (map key (orderBy key l)).
Proof.
  induction l as [|x rest IH]; simpl; [exact I|]. now apply insertBy_ascending.
Qed.

(** Rows that are already in order are left in order. *)
Lemma orderBy_sorted (A : Type) (key : A -> Z) l :
  ascending (map key l) -> orderBy key l = l.
Proof.
  induction l as [|x rest IH]; simpl; [reflexivity|]. intros [Hx Hrest].
  rewrite (IH Hrest). destruct rest as [|y rest']; [reflexivity|]. simpl.
  destruct (Z.leb_spec (key x) (key y)); [reflexivity|].
  specialize (Hx (key y) (or_introl eq_refl)). lia.
Qed.

Lemma orderBy_length (A : Type) (key : A -> Z) l :
  List.length (orderBy key l) = List.length l.
Proof. symmetry. apply Permutation_length, orderBy_perm. Qed.

(** ** Version reads *)

Lemma read_uint64 (q : Catalog -> Z) cat :
  0 <= q cat ->
  transaction catchReadCommitted
    (vid <- execSql (fun cat => (q cat, cat)) ;; tx_convert (as_uint64 vid)) None cat
  = (Return (q cat), cat).
Proof.
  intros H. unfold transaction, tx_bind, execSql, tx_convert.
  now rewrite as_uint64_nonneg.
Qed.

Lemma COALESCE_sqlMax_nonneg l : (forall x, In x l -> 0 <= x) -> 0 <= COALESCE (sqlMax l) 0.
Proof.
  intros H. destruct (sqlMax l) as [m|] eqn:E; simpl; [|lia].
  apply sqlMax_in in E. auto.
Qed.

Lemma COALESCE_sqlMax_upper l x : In x l -> x <= COALESCE (sqlMax l) 0.
Proof.
  intros Hx. destruct (sqlMax l) as [m|] eqn:E; simpl.
  - apply sqlMax_spec in E as [_ Hall]. auto.
  - apply sqlMax_none in E. subst l. destruct Hx.
Qed.

Lemma sqlMax_filter_mono (A : Type) (f : A -> Z) (p q : A -> bool) l :
  (forall r, In r l -> p r = true -> q r = true) ->
  (forall r, In r l -> 0 <= f r) ->
  COALESCE (sqlMax (map f (filter p l))) 0 <= COALESCE (sqlMax (map f (filter q l))) 0.
Proof.
  intros Hpq Hpos.
  destruct (sqlMax (map f (filter p l))) as [m|] eqn:E; simpl.
  - apply sqlMax_in, in_map_iff in E as (r & <- & Hr). apply filter_In in Hr as [Hr Hp].
    apply COALESCE_sqlMax_upper, in_map, filter_In. auto.
  - apply COALESCE_sqlMax_nonneg. intros x Hx. apply in_map_iff in Hx as (r & <- & Hr).
    apply filter_In in Hr as [Hr _]. auto.
Qed.

Lemma getLastVersion_run array_id catalogVersion cat :
  (forall r, In r (tbl_array_version cat) -> 0 <= array_version.version_id r) ->
  _getLastVersion None array_id catalogVersion cat
  = (Return (COALESCE (sqlMax (map array_version.version_id
                                   (filter (visibleb array_id catalogVersion)
                                           (tbl_array_version cat)))) 0), cat).
Proof.
  intros Hpos. unfold _getLastVersion.
  apply (read_uint64 (fun cat => COALESCE (sqlMax (map array_version.version_id
                                   (filter (visibleb array_id catalogVersion)
                                           (tbl_array_version cat)))) 0)).
  apply COALESCE_sqlMax_nonneg. intros x Hx. apply in_map_iff in Hx as (r & <- & Hr).
  apply filter_In in Hr as [Hr _]. auto.
Qed.

Lemma lookupVersionByTimestamp_run array_id timestamp cat :
  (forall r, In r (tbl_array_version cat) -> 0 <= array_version.version_id r) ->
  _lookupVersionByTimestamp None array_id timestamp cat
  = (Return (COALESCE (sqlMax (map array_version.version_id
               (filter (fun r => (array_version.array_id r =? array_id)
                                 && (array_version.time_stamp r <=? timestamp))
                       (tbl_array_version cat)))) 0), cat).
Proof.
  intros Hpos. unfold _lookupVersionByTimestamp.
  apply (read_uint64 (fun cat => COALESCE (sqlMax (map array_version.version_id
               (filter (fun r => (array_version.array_id r =? array_id)
                                 && (array_version.time_stamp r <=? timestamp))
                       (tbl_array_version cat)))) 0)).
  apply COALESCE_sqlMax_nonneg. intros x Hx. apply in_map_iff in Hx as (r & <- & Hr).
  apply filter_In in Hr as [Hr _]. auto.
Qed.

(** X14: version lookups are monotone.  On a catalog whose version ids are
    not negative, getLastVersion answers no smaller version for a later
    catalog horizon and lookupVersionByTimestamp no smaller version for a
    later timestamp, and neither ever answers more than the latest version
    of the array; the catalog is left as it was. *)
Theorem version_lookups_monotone (array_id : Z) (cat : Catalog) :
  (forall r, In r (tbl_array_version cat) -> 0 <= array_version.version_id r) ->
  exists byHorizon byTime : Z -> Z,
    (forall h, _getLastVersion None array_id h cat = (Return (byHorizon h), cat))
    /\ (forall t, _lookupVersionByTimestamp None array_id t cat = (Return (byTime t), cat))
    /\ (forall h1 h2, h1 <= h2 -> byHorizon h1 <= byHorizon h2)
    /\ (forall t1 t2, t1 <= t2 -> byTime t1 <= byTime t2)
    /\ (forall h, 0 <= byHorizon h <= lastVersionOf array_id cat)
    /\ (forall t, 0 <= byTime t <= lastVersionOf array_id cat).
Proof.
  intros Hpos.
  exists (fun h => COALESCE (sqlMax (map array_version.version_id
                      (filter (visibleb array_id h) (tbl_array_version cat)))) 0),
         (fun t => COALESCE (sqlMax (map array_version.version_id
                      (filter (fun r => (array_version.array_id r =? array_id)
                                        && (array_version.time_stamp r <=? t))
                              (tbl_array_version cat)))) 0).
  assert (Hnn : forall p : array_version.row -> bool,
            0 <= COALESCE (sqlMax (map array_version.version_id
                                       (filter p (tbl_array_version cat)))) 0).
  { intros p. apply COALESCE_sqlMax_nonneg. intros x Hx.
    apply in_map_iff in Hx as (r & <- & Hr). apply filter_In in Hr as [Hr _]. auto. }
  split; [intros h; now apply getLastVersion_run|].
  split; [intros t; now apply lookupVersionByTimestamp_run|].
  split; [|split; [|split]].
  - intros h1 h2 Hh. apply sqlMax_filter_mono; [|assumption].
    intros r _ Hr. apply visibleb_spec in Hr as [Ha Hv]. apply visibleb_spec. split; [auto|lia].
  - intros t1 t2 Ht. apply sqlMax_filter_mono; [|assumption].
    intros r _ Hr. apply andb_prop in Hr as [Ha Hv]. apply Z.leb_le in Hv.
    rewrite Ha. simpl. apply Z.leb_le. lia.
  - intros h. split; [apply Hnn|]. unfold lastVersionOf, versionsOf.
    apply sqlMax_filter_mono; [|assumption].
    intros r _ Hr. now apply andb_prop in Hr.
  - intros t. split; [apply Hnn|]. unfold lastVersionOf, versionsOf.
    apply sqlMax_filter_mono; [|assumption].
    intros r _ Hr. now apply andb_prop in Hr.
Qed.

Lemma version_lookups_monotone_witness :
  (forall r, In r (tbl_array_version Versions.catalog) -> 0 <= array_version.version_id r)
  /\ exists v1 v2,
       _getLastVersion None 100 104 Versions.catalog = (Return v1, Versions.catalog)
       /\ _getLastVersion None 100 107 Versions.catalog = (Return v2, Versions.catalog)
       /\ v1 <= v2 <= lastVersionOf 100 Versions.catalog.
Proof.
  assert (H : forall r, In r (tbl_array_version Versions.catalog) ->
                        0 <= array_version.version_id r).
  { intros r [<-|[<-|[<-|[<-|[]]]]]; simpl; lia. }
  split; [exact H|].
  destruct (version_lookups_monotone 100 Versions.catalog H)
    as (byHorizon & byTime & Hh & _ & Hmono & _ & Hle & _).
  exists (byHorizon 104), (byHorizon 107).
  split; [apply Hh|]. split; [apply Hh|].
  split; [apply Hmono; lia|apply Hle].
Defined.

Lemma sqlMax_snoc l v : (forall x, In x l -> x <= v) -> sqlMax (l ++ [v]) = Some v.
Proof.
  intros H. destruct (sqlMax (l ++ [v])) as [m|] eqn:E.
  - apply sqlMax_spec in E as [Hin Hall]. f_equal.
    assert (v <= m) by (apply Hall, in_or_app; right; now left).
    apply in_app_or in Hin as [Hin|[<-|[]]]; [|reflexivity]. specialize (H m Hin). lia.
  - apply sqlMax_none in E. now destruct l.
Qed.

(** X15: a new version and the snapshot reads.  On a base array whose
    version ids are in range, the version createNewVersion issues becomes
    the answer of getLastVersion for every catalog horizon from the id of
    its array row on, and of lookupVersionByTimestamp for every time from
    its timestamp on; below that horizon getLastVersion answers what it
    answered before, and for other base arrays nothing changes. *)
Theorem new_version_visibility
        (timestamp array_id version_array_id : Z) (cat : Catalog) :
  versionsInRange array_id cat ->
  (forall r, In r (tbl_array_version cat) -> 0 <= array_version.version_id r) ->
  exists version_id cat',
    _createNewVersion timestamp array_id version_array_id None cat
    = inl (version_id, cat')
    /\ (forall h, version_array_id <= h ->
          _getLastVersion None array_id h cat' = (Return version_id, cat'))
    /\ (forall h, h < version_array_id ->
          fst (_getLastVersion None array_id h cat')
          = fst (_getLastVersion None array_id h cat))
    /\ (forall t, timestamp <= t ->
          _lookupVersionByTimestamp None array_id t cat' = (Return version_id, cat'))
    /\ (forall other h, other <> array_id ->
          fst (_getLastVersion None other h cat')
          = fst (_getLastVersion None other h cat)).
Proof.
  intros Hwf Hpos.
  set (v := lastVersionOf array_id cat + 1).
  set (row := array_version.mk array_id version_array_id v timestamp).
  exists v, (withVersion row cat).
  pose proof (lastVersionOf_range array_id cat Hwf) as Hrange.
  assert (Hpos' : forall r, In r (tbl_array_version (withVersion row cat)) ->
                            0 <= array_version.version_id r).
  { intros r Hr. simpl in Hr. apply in_app_or in Hr as [Hr|[<-|[]]]; [auto|].
    unfold v. simpl. lia. }
  assert (Hbelow : forall p x,
            In x (map array_version.version_id
                      (filter (fun r => (array_version.array_id r =? array_id) && p r)
                              (tbl_array_version cat))) -> x <= v).
  { intros p x Hx. apply in_map_iff in Hx as (r & <- & Hr).
    apply filter_In in Hr as [Hr Hp]. apply andb_prop in Hp as [Ha _].
    assert (Hin : In r (versionsOf array_id cat)) by (apply filter_In; auto).
    pose proof (lastVersionOf_upper array_id cat r Hin). unfold v. lia. }
  split; [now apply createNewVersion_run|].
  split; [|split; [|split]].
  - intros h Hh. rewrite (getLastVersion_run _ _ _ Hpos'). do 2 f_equal.
    simpl. rewrite filter_app, map_app. simpl.
    unfold visibleb at 2. simpl. rewrite Z.eqb_refl, (proj2 (Z.leb_le _ _) Hh). simpl.
    rewrite sqlMax_snoc; [reflexivity|]. apply Hbelow.
  - intros h Hh. rewrite (getLastVersion_run _ _ _ Hpos'), (getLastVersion_run _ _ _ Hpos).
    simpl. rewrite filter_app. simpl. unfold visibleb at 2. simpl.
    rewrite (proj2 (Z.leb_gt _ _) Hh), andb_false_r, app_nil_r. reflexivity.
  - intros t Ht. rewrite (lookupVersionByTimestamp_run _ _ _ Hpos'). do 2 f_equal.
    simpl. rewrite filter_app, map_app. simpl.
    rewrite Z.eqb_refl, (proj2 (Z.leb_le _ _) Ht). simpl.
    rewrite sqlMax_snoc; [reflexivity|]. apply Hbelow.
  - intros other h Hne.
    rewrite (getLastVersion_run _ _ _ Hpos'), (getLastVersion_run _ _ _ Hpos).
    simpl. rewrite filter_app. simpl. unfold visibleb at 2. simpl.
    rewrite (proj2 (Z.eqb_neq array_id other)) by auto. simpl.
    now rewrite app_nil_r.
Qed.

Lemma new_version_visibility_witness :
  versionsInRange 100 Versions.catalog
  /\ (forall r, In r (tbl_array_version Versions.catalog) ->
                0 <= array_version.version_id r)
  /\ exists version_id cat',
       _createNewVersion 1040 100 120 None Versions.catalog = inl (version_id, cat')
       /\ _getLastVersion None 100 120 cat' = (Return version_id, cat').
Proof.
  assert (Hwf : versionsInRange 100 Versions.catalog).
  { intros r Hr. simpl in Hr. unfold MAX_VERSIONID.
    destruct Hr as [<-|[<-|[<-|[]]]]; simpl; lia. }
  assert (H : forall r, In r (tbl_array_version Versions.catalog) ->
                        0 <= array_version.version_id r).
  { intros r [<-|[<-|[<-|[<-|[]]]]]; simpl; lia. }
  split; [exact Hwf|]. split; [exact H|].
  destruct (new_version_visibility 1040 100 120 Versions.catalog Hwf H)
    as (v & cat' & Hrun & Hvis & _).
  exists v, cat'. split; [exact Hrun|]. apply Hvis. lia.
Defined.

(** ** deleteVersion *)

Lemma deleteVersion_run array_id version_id cat :
  _deleteVersion None array_id version_id cat
  = (Return tt,
     mkCatalog (tbl_array cat) (tbl_array_attribute cat) (tbl_array_dimension cat)
               (filter (fun r => negb ((array_version.array_id r =? array_id)
                                       && (array_version.version_id r =? version_id)))
                       (tbl_array_version cat))).
Proof. reflexivity. Qed.

(** X16: deleteVersion and the version ids.  Deleting the version that
    createNewVersion has just issued restores the catalog exactly, so the
    next createNewVersion issues the same version id again; deleting a
    version other than the latest leaves the next version id as it was; and
    the versions of other base arrays are not touched. *)
Theorem deleteVersion_reissues_latest
        (timestamp array_id version_array_id : Z) (cat : Catalog) :
  versionsInRange array_id cat ->
  exists version_id cat',
    _createNewVersion timestamp array_id version_array_id None cat
    = inl (version_id, cat')
    /\ _deleteVersion None array_id version_id cat' = (Return tt, cat)
    /\ (forall timestamp' version_array_id',
          exists cat'',
            _createNewVersion timestamp' array_id version_array_id' None
              (snd (_deleteVersion None array_id version_id cat'))
            = inl (version_id, cat''))
    /\ (forall older, older <> version_id ->
          lastVersionOf array_id (snd (_deleteVersion None array_id older cat'))
          = version_id)
    /\ (forall other v, other <> array_id ->
          versionsOf other (snd (_deleteVersion None array_id v cat'))
          = versionsOf other cat').
Proof.
  intros Hwf.
  set (v := lastVersionOf array_id cat + 1).
  set (row := array_version.mk array_id version_array_id v timestamp).
  exists v, (withVersion row cat).
  assert (Hdel : _deleteVersion None array_id v (withVersion row cat) = (Return tt, cat)).
  { rewrite deleteVersion_run. simpl. rewrite filter_app. simpl.
    rewrite !Z.eqb_refl. simpl. rewrite app_nil_r, filter_all; [now destruct cat|].
    intros r Hr. destruct (Z.eqb_spec (array_version.array_id r) array_id) as [Ha|];
      [|reflexivity].
    assert (Hin : In r (versionsOf array_id cat))
      by (apply filter_In; split; [assumption|now apply Z.eqb_eq]).
    pose proof (lastVersionOf_upper array_id cat r Hin).
    destruct (Z.eqb_spec (array_version.version_id r) v); [unfold v in *; lia|reflexivity]. }
  split; [now apply createNewVersion_run|]. split; [exact Hdel|].
  split; [|split].
  - intros ts' va'. rewrite Hdel. simpl. eexists. now apply createNewVersion_run.
  - intros older Hne. rewrite deleteVersion_run. unfold lastVersionOf, versionsOf.
    cbn [snd tbl_array_version withVersion].
    rewrite filter_filter_andb, filter_app, map_app.
    simpl. rewrite !Z.eqb_refl. rewrite (proj2 (Z.eqb_neq v older)) by auto. simpl.
    rewrite sqlMax_snoc; [reflexivity|].
    intros x Hx. apply in_map_iff in Hx as (r & <- & Hr). apply filter_In in Hr as [Hr Hp].
    apply andb_prop in Hp as [_ Ha].
    assert (Hin : In r (versionsOf array_id cat)) by (apply filter_In; auto).
    pose proof (lastVersionOf_upper array_id cat r Hin). unfold v. lia.
  - intros other v' Hne. rewrite deleteVersion_run. unfold versionsOf.
    cbn [snd tbl_array_version]. rewrite filter_filter_andb. apply filter_ext. intros r.
    destruct (Z.eqb_spec (array_version.array_id r) other) as [->|];
      [|now rewrite andb_false_r].
    rewrite (proj2 (Z.eqb_neq other array_id)) by auto. reflexivity.
Qed.

Lemma deleteVersion_reissues_latest_witness :
  versionsInRange 100 Versions.catalog
  /\ exists version_id cat',
       _createNewVersion 1040 100 120 None Versions.catalog = inl (version_id, cat')
       /\ _deleteVersion None 100 version_id cat' = (Return tt, Versions.catalog).
Proof.
  assert (Hwf : versionsInRange 100 Versions.catalog).
  { intros r Hr. simpl in Hr. unfold MAX_VERSIONID.
    destruct Hr as [<-|[<-|[<-|[]]]]; simpl; lia. }
  split; [exact Hwf|].
  destruct (deleteVersion_reissues_latest 1040 100 120 Versions.catalog Hwf)
    as (v & cat' & Hrun & Hdel & _).
  exists v, cat'. auto.
Defined.

(** ** getOldestArrayVersion *)

Lemma fold_left_min_spec rest : forall x,
  let m := fold_left Z.min rest x in
  (m = x \/ In m rest) /\ m <= x /\ (forall y, In y rest -> m <= y).
Proof.
  induction rest as [|a rest IH]; simpl; intros x.
  - split; [now left|]. split; [lia|]. intros y [].
  - destruct (IH (Z.min x a)) as (Hm & Hle & Hall).
    split; [|split; [lia|]].
    + destruct Hm as [Hm|Hm]; [|now right; right].
      rewrite Hm. destruct (Z.min_spec x a) as [[_ ->]|[_ ->]]; auto.
    + intros y [<-|Hy]; [lia|auto].
Qed.

Lemma sqlMin_spec l m :
  sqlMin l = Some m -> In m l /\ (forall y, In y l -> m <= y).
Proof.
  destruct l as [|x rest]; simpl; [discriminate|]. intros [= <-].
  destruct (fold_left_min_spec rest x) as (Hin & Hle & Hall). split.
  - destruct Hin as [->|Hin]; auto.
  - intros y [<-|Hy]; auto.
Qed.

Lemma sqlMin_none l : sqlMin l = None <-> l = [].
Proof. destruct l; simpl; split; congruence. Qed.

(** X17: getOldestArrayVersion answers the smallest array id among the
    versions of a base array, which is the id of one of them, and 0 exactly
    when the base array has no version; a catalog horizon below it shows no
    version of the array to getLastVersion. *)
Theorem getOldestArrayVersion_least (id : Z) (cat : Catalog) :
  (forall r, In r (versionsOf id cat) -> 0 < array_version.version_array_id r) ->
  (forall r, In r (tbl_array_version cat) -> 0 <= array_version.version_id r) ->
  exists oldest,
    _getOldestArrayVersion None id cat = (Return oldest, cat)
    /\ (oldest = 0 <-> versionsOf id cat = [])
    /\ (forall r, In r (versionsOf id cat) -> oldest <= array_version.version_array_id r)
    /\ (versionsOf id cat <> [] ->
        exists r, In r (versionsOf id cat) /\ array_version.version_array_id r = oldest)
    /\ (forall h, h < oldest -> _getLastVersion None id h cat = (Return 0, cat)).
Proof.
  intros Hva Hpos.
  set (vaids := map array_version.version_array_id (versionsOf id cat)).
  exists (COALESCE (sqlMin vaids) 0).
  assert (Hin : forall x, In x vaids -> 0 < x).
  { intros x Hx. apply in_map_iff in Hx as (r & <- & Hr). auto. }
  split.
  - unfold _getOldestArrayVersion.
    apply (read_uint64 (fun cat => COALESCE (sqlMin (map array_version.version_array_id
                                                         (versionsOf id cat))) 0)).
    fold vaids. destruct (sqlMin vaids) as [m|] eqn:E; simpl; [|lia].
    apply sqlMin_spec in E as [Hm _]. specialize (Hin m Hm). lia.
  - destruct (sqlMin vaids) as [m|] eqn:E; simpl.
    + apply sqlMin_spec in E as [Hm Hall]. pose proof (Hin m Hm) as Hm0.
      apply in_map_iff in Hm as (r & Hr & Hrin).
      split; [|split; [|split]].
      * split; [lia|]. intros Hnil. rewrite Hnil in Hrin. destruct Hrin.
      * intros r' Hr'. apply Hall. now apply in_map.
      * intros _. eauto.
      * intros h Hh. rewrite (getLastVersion_run _ _ _ Hpos). do 2 f_equal.
        rewrite filter_none; [reflexivity|]. intros r' Hr'.
        destruct (visibleb id h r') eqn:Hv; [|reflexivity].
        apply visibleb_spec in Hv as [Ha Hle].
        assert (Hin' : In r' (versionsOf id cat))
          by (apply filter_In; split; [assumption|now apply Z.eqb_eq]).
        assert (m <= array_version.version_array_id r') by (apply Hall; now apply in_map).
        lia.
    + apply sqlMin_none in E. unfold vaids in E. apply map_eq_nil in E.
      split; [|split; [|split]].
      * tauto.
      * intros r Hr. rewrite E in Hr. destruct Hr.
      * intros Hne. contradiction.
      * intros h Hh. rewrite (getLastVersion_run _ _ _ Hpos). do 2 f_equal.
        rewrite filter_none; [reflexivity|]. intros r' Hr'.
        destruct (visibleb id h r') eqn:Hv; [|reflexivity].
        apply visibleb_spec in Hv as [Ha Hle].
        assert (Hin' : In r' (versionsOf id cat))
          by (apply filter_In; split; [assumption|now apply Z.eqb_eq]).
        rewrite E in Hin'. destruct Hin'.
Qed.

Lemma getOldestArrayVersion_least_witness :
  (forall r, In r (versionsOf 100 Versions.catalog) ->
             0 < array_version.version_array_id r)
  /\ (forall r, In r (tbl_array_version Versions.catalog) ->
                0 <= array_version.version_id r)
  /\ exists oldest,
       _getOldestArrayVersion None 100 Versions.catalog = (Return oldest, Versions.catalog)
       /\ _getLastVersion None 100 (oldest - 1) Versions.catalog
          = (Return 0, Versions.catalog).
Proof.
  assert (Hva : forall r, In r (versionsOf 100 Versions.catalog) ->
                          0 < array_version.version_array_id r).
  { intros r Hr. simpl in Hr. destruct Hr as [<-|[<-|[<-|[]]]]; simpl; lia. }
  assert (H : forall r, In r (tbl_array_version Versions.catalog) ->
                        0 <= array_version.version_id r).
  { intros r [<-|[<-|[<-|[<-|[]]]]]; simpl; lia. }
  split; [exact Hva|]. split; [exact H|].
  destruct (getOldestArrayVersion_least 100 Versions.catalog Hva H)
    as (oldest & Hrun & _ & _ & _ & Hbelow).
  exists oldest. split; [exact Hrun|]. apply Hbelow. lia.
Defined.

(** ** getArrayVersions *)

Lemma collect_versions rows : forall cat,
  (forall r, In r rows -> 0 <= array_version.version_array_id r
                          /\ 0 <= array_version.version_id r) ->
  collect (fun i =>
             version_array_id <- tx_convert (as_uint64 (array_version.version_array_id i)) ;;
             version_id <- tx_convert (as_uint64 (array_version.version_id i)) ;;
             tx_ret (VersionDesc.mk version_array_id version_id
                                    (array_version.time_stamp i)))
          rows None cat
  = inl (map versionDescOf rows, cat).
Proof.
  induction rows as [|r rest IH]; intros cat H; [reflexivity|].
  destruct (H r (or_introl eq_refl)) as [Ha Hv].
  cbn [collect map]. unfold tx_bind at 1. unfold tx_bind at 1. unfold tx_bind at 1.
  unfold tx_convert at 1 2. rewrite !as_uint64_nonneg by assumption.
  unfold tx_ret at 1. unfold tx_bind. rewrite IH by (intros r' Hr'; apply H; now right).
  reflexivity.
Qed.

Lemma getArrayVersions_run array_id cat :
  (forall r, In r (versionsOf array_id cat) ->
     0 <= array_version.version_array_id r /\ 0 <= array_version.version_id r) ->
  _getArrayVersions None array_id cat
  = (Return (map versionDescOf
                 (orderBy array_version.version_id (versionsOf array_id cat))), cat).
Proof.
  intros H. unfold _getArrayVersions, transaction. unfold tx_bind, execSql.
  fold (versionsOf array_id cat). rewrite collect_versions; [reflexivity|].
  intros r Hr. apply H.
  now apply (Permutation_in _ (Permutation_sym (orderBy_perm _ _ _))) in Hr.
Qed.

(** X18: getArrayVersions lists the versions of a base array, one
    descriptor (array id, version id, timestamp) for each of its version
    rows, in ascending order of version id; when the rows are in that order
    in the table, as createNewVersion writes them, the descriptors come in
    table order. *)
Theorem getArrayVersions_ordered (array_id : Z) (cat : Catalog) :
  (forall r, In r (versionsOf array_id cat) ->
     0 <= array_version.version_array_id r /\ 0 <= array_version.version_id r) ->
  exists versions,
    _getArrayVersions None array_id cat = (Return versions, cat)
    /\ Permutation versions (map versionDescOf (versionsOf array_id cat))
    /\ ascending (map VersionDesc.getVersionID versions)
    /\ (ascending (map array_version.version_id (versionsOf array_id cat)) ->
        versions = map versionDescOf (versionsOf array_id cat)).
Proof.
  intros H. eexists. split; [now apply getArrayVersions_run|].
  split; [|split].
  - apply Permutation_map, Permutation_sym, orderBy_perm.
  - rewrite map_map. simpl. apply orderBy_ascending.
  - intros Hasc. now rewrite orderBy_sorted.
Qed.

Lemma getArrayVersions_ordered_witness :
  (forall r, In r (versionsOf 100 Versions.catalog) ->
     0 <= array_version.version_array_id r /\ 0 <= array_version.version_id r)
  /\ exists versions,
       _getArrayVersions None 100 Versions.catalog = (Return versions, Versions.catalog)
       /\ ascending (map VersionDesc.getVersionID versions).
Proof.
  assert (H : forall r, In r (versionsOf 100 Versions.catalog) ->
                0 <= array_version.version_array_id r /\ 0 <= array_version.version_id r).
  { intros r Hr. simpl in Hr. destruct Hr as [<-|[<-|[<-|[]]]]; simpl; lia. }
  split; [exact H|].
  destruct (getArrayVersions_ordered 100 Versions.catalog H)
    as (versions & Hrun & _ & Hasc & _).
  exists versions. auto.
Defined.

Lemma createVersions_rows timestamp array_id vas : forall cat k,
  (forall r, In r (versionsOf array_id cat) -> 0 <= array_version.version_id r) ->
  lastVersionOf array_id cat = k ->
  k + Z.of_nat (List.length vas) <= MAX_VERSIONID ->
  exists cat',
    createVersions timestamp array_id vas cat
    = Some (map (fun i => k + Z.of_nat i) (seq 1 (List.length vas)), cat')
    /\ versionsOf array_id cat'
       = versionsOf array_id cat
         ++ map (fun p => array_version.mk array_id (snd p) (fst p) timestamp)
                (combine (map (fun i => k + Z.of_nat i) (seq 1 (List.length vas))) vas).
Proof.
  induction vas as [|va rest IH]; intros cat k Hpos Hlast Hk.
  - exists cat. simpl. now rewrite app_nil_r.
  - assert (Hwf : versionsInRange array_id cat).
    { intros r Hr. split; [auto|].
      pose proof (lastVersionOf_upper array_id cat r Hr). simpl List.length in Hk. lia. }
    simpl createVersions. rewrite (createNewVersion_run _ _ _ _ Hwf), Hlast.
    set (cat1 := withVersion _ cat).
    destruct (IH cat1 (k + 1)) as (cat' & Hrun & Hrows).
    + intros r Hr. unfold cat1 in Hr. rewrite versionsOf_withVersion in Hr. simpl in Hr.
      rewrite Z.eqb_refl in Hr. apply in_app_or in Hr as [Hr|[<-|[]]]; [auto|].
      simpl. pose proof (lastVersionOf_range array_id cat Hwf). lia.
    + unfold cat1. rewrite <- Hlast. now apply lastVersionOf_next.
    + simpl List.length in Hk. lia.
    + exists cat'. rewrite Hrun.
      assert (Hids : map (fun i => k + 1 + Z.of_nat i) (seq 1 (List.length rest))
                     = map (fun i => k + Z.of_nat i) (seq 2 (List.length rest))).
      { rewrite <- (seq_shift (List.length rest) 1), map_map.
        apply map_ext. intros i. lia. }
      split.
      * simpl. rewrite Hids. replace (k + 1) with (k + Z.of_nat 1) by lia. reflexivity.
      * rewrite Hrows. unfold cat1. rewrite versionsOf_withVersion. simpl.
        rewrite Z.eqb_refl, <- app_assoc, Hids. simpl.
        replace (k + 1) with (k + Z.of_nat 1) by lia. reflexivity.
Qed.

(** X19: versions created one after the other on a base array without
    versions are listed by getArrayVersions in the order of their creation,
    numbered 1, 2, 3, ..., each with the id of the array row it was created
    for and its timestamp. *)
Theorem getArrayVersions_after_createVersions
        (timestamp array_id : Z) (version_array_ids : list Z) (cat : Catalog) :
  versionsOf array_id cat = [] ->
  Z.of_nat (List.length version_array_ids) <= MAX_VERSIONID ->
  (forall va, In va version_array_ids -> 0 <= va) ->
  exists ids cat',
    createVersions timestamp array_id version_array_ids cat = Some (ids, cat')
    /\ ids = map Z.of_nat (seq 1 (List.length version_array_ids))
    /\ _getArrayVersions None array_id cat'
       = (Return (map (fun p => VersionDesc.mk (snd p) (fst p) timestamp)
                      (combine ids version_array_ids)), cat').
Proof.
  intros Hnone Hlen Hva.
  destruct (createVersions_rows timestamp array_id version_array_ids cat 0)
    as (cat' & Hrun & Hrows).
  - intros r Hr. rewrite Hnone in Hr. destruct Hr.
  - unfold lastVersionOf. now rewrite Hnone.
  - lia.
  - rewrite Hnone in Hrows. simpl in Hrows.
    exists (map Z.of_nat (seq 1 (List.length version_array_ids))), cat'.
    split; [exact Hrun|]. split; [reflexivity|].
    assert (Hfst : forall l : list (Z * Z),
              map array_version.version_id
                  (map (fun p => array_version.mk array_id (snd p) (fst p) timestamp) l)
              = map fst l).
    { intros l. rewrite map_map. reflexivity. }
    rewrite getArrayVersions_run.
    + rewrite orderBy_sorted; rewrite Hrows.
      * rewrite map_map. reflexivity.
      * rewrite Hfst.
        assert (Hasc : forall n s (l : list Z),
                  ascending (map fst (combine (map Z.of_nat (seq s n)) l))).
        { induction n as [|n IHn]; intros s l; [exact I|].
          destruct l as [|x l]; [exact I|]. simpl. split; [|apply IHn].
          intros y Hy. apply in_map_iff in Hy as ([a b] & <- & Hab).
          apply in_combine_l, in_map_iff in Hab as (i & <- & Hi).
          apply in_seq in Hi. simpl. lia. }
        apply Hasc.
    + rewrite Hrows. intros r Hr. apply in_map_iff in Hr as ([k va] & <- & Hp). simpl.
      pose proof (in_combine_r _ _ _ _ Hp) as Hin.
      apply in_combine_l, in_map_iff in Hp as (i & <- & Hi).
      split; [auto|lia].
Qed.

Lemma getArrayVersions_after_createVersions_witness :
  versionsOf 300 Versions.catalog = []
  /\ exists cat',
       createVersions 2000 300 [301; 305] Versions.catalog = Some ([1; 2], cat')
       /\ _getArrayVersions None 300 cat'
          = (Return [VersionDesc.mk 301 1 2000; VersionDesc.mk 305 2 2000], cat').
Proof.
  split; [reflexivity|].
  destruct (getArrayVersions_after_createVersions 2000 300 [301; 305] Versions.catalog
              eq_refl) as (ids & cat' & Hrun & -> & Hget).
  - unfold MAX_VERSIONID. simpl. lia.
  - intros va [<-|[<-|[]]]; lia.
  - exists cat'. split; [exact Hrun|exact Hget].
Defined.

(** ** addArray *)

Lemma addArray_run psUndefined isNameUnversioned getVersionFromName findNamespaceTr
      ns desc fault cat :
  _addArray psUndefined isNameUnversioned getVersionFromName findNamespaceTr
            ns desc fault cat
  = if negb (ArrayDesc.getPartitioningSchema desc =? psUndefined)
       && (0 <? ArrayDesc.getId desc)
    then
      if (isNameUnversioned (ArrayDesc.getName desc)
          && (ArrayDesc.getUAId desc =? ArrayDesc.getId desc))
         || ((ArrayDesc.getVersionId desc =? getVersionFromName (ArrayDesc.getName desc))
             && (0 <? ArrayDesc.getUAId desc)
             && (ArrayDesc.getUAId desc <? ArrayDesc.getId desc))
      then
        if existsb (fun a =>
             existsb (fun d => String.eqb (AttributeDesc.getName a)
                                          (DimensionDesc.getBaseName d))
                     (ArrayDesc.getDimensions desc))
             (ArrayDesc.getAttributes desc)
        then inr (RaisedScidb (UserException SCIDB_SE_INFER_SCHEMA
                                             SCIDB_LE_DUPLICATE_ATTRIBUTE_NAME))
        else match fault with
             | Some f => inr (RaisedPqxx (raised f))
             | None =>
                 if nameTaken (ArrayDesc.getName desc) cat
                 then inr (RaisedPqxx unique_violation)
                 else if namespaceFound findNamespaceTr ns
                 then inl (tt, withArray desc cat)
                 else inr (RaisedScidb (SystemException SCIDB_SE_SYSCAT
                                                        SCIDB_LE_PLUGIN_FUNCTION_ACCESS))
             end
      else inr (RaisedScidb (AssertException "Invalid array version descriptor: "))
    else inr (RaisedScidb (AssertException "Invalid array descriptor: ")).
Proof.
  unfold _addArray, namespaceFound.
  unfold tx_bind at 1. unfold ASSERT_EXCEPTION at 1.
  destruct (negb (ArrayDesc.getPartitioningSchema desc =? psUndefined));
    [|reflexivity].
  unfold tx_ret at 1. unfold tx_bind at 1. unfold ASSERT_EXCEPTION at 1.
  destruct (0 <? ArrayDesc.getId desc); [|reflexivity].
  unfold tx_ret at 1. unfold tx_bind at 1. unfold ASSERT_EXCEPTION at 1.
  cbn [andb].
  destruct (_ || _); [|reflexivity].
  unfold tx_ret at 1. unfold tx_bind at 1.
  destruct (existsb _ (ArrayDesc.getAttributes desc)); [reflexivity|].
  unfold tx_ret at 1. unfold tx_bind at 1. unfold execUnique at 1.
  destruct fault as [f|]; [reflexivity|].
  unfold insertArray. cbn [array.name].
  destruct (nameTaken (ArrayDesc.getName desc) cat); [reflexivity|].
  unfold tx_bind at 1. rewrite forEach_attributes.
  unfold tx_bind at 1. rewrite forEach_dimensions.
  unfold tx_bind, execSql, tx_ret, withArray. simpl.
  destruct (NamespaceDesc.getId ns =? -1); simpl; [|reflexivity].
  destruct (findNamespaceTr ns); simpl; [reflexivity|].
  destruct (String.eqb (NamespaceDesc.getName ns) "public"); reflexivity.
Qed.

Lemma addArray_work_run psUndefined isNameUnversioned getVersionFromName findNamespaceTr
      ns desc fault cat :
  _addArray_work psUndefined isNameUnversioned getVersionFromName findNamespaceTr
                 ns desc fault cat
  = if accepted psUndefined isNameUnversioned getVersionFromName desc
    then match fault with
         | Some f => (Throw (catchReadCommitted (raised f)), cat)
         | None =>
             if nameTaken (ArrayDesc.getName desc) cat
             then (Throw (SystemException SCIDB_SE_SYSCAT
                                          SCIDB_LE_PG_QUERY_EXECUTION_FAILED), cat)
             else if namespaceFound findNamespaceTr ns
             then (Return tt, withArray desc cat)
             else (Throw (SystemException SCIDB_SE_SYSCAT SCIDB_LE_PLUGIN_FUNCTION_ACCESS),
                   cat)
         end
    else (Throw (if negb (ArrayDesc.getPartitioningSchema desc =? psUndefined)
                    && (0 <? ArrayDesc.getId desc)
                 then if (isNameUnversioned (ArrayDesc.getName desc)
                          && (ArrayDesc.getUAId desc =? ArrayDesc.getId desc))
                         || ((ArrayDesc.getVersionId desc
                              =? getVersionFromName (ArrayDesc.getName desc))
                             && (0 <? ArrayDesc.getUAId desc)
                             && (ArrayDesc.getUAId desc <? ArrayDesc.getId desc))
                      then UserException SCIDB_SE_INFER_SCHEMA
                                         SCIDB_LE_DUPLICATE_ATTRIBUTE_NAME
                      else AssertException "Invalid array version descriptor: "
                 else AssertException "Invalid array descriptor: "), cat).
Proof.
  unfold _addArray_work, transaction, accepted. rewrite addArray_run.
  destruct (negb (ArrayDesc.getPartitioningSchema desc =? psUndefined)
            && (0 <? ArrayDesc.getId desc)); [|reflexivity].
  cbn [andb]. destruct (_ || _); [|reflexivity]. cbn [andb].
  destruct (existsb _ (ArrayDesc.getAttributes desc)); [reflexivity|]. cbn [negb].
  destruct fault as [f|]; [reflexivity|].
  destruct (nameTaken (ArrayDesc.getName desc) cat); [reflexivity|].
  destruct (namespaceFound findNamespaceTr ns); reflexivity.
Qed.

(** X20: addArray writes a descriptor or nothing.  One attempt returns
    only if the descriptor passes the checks (a partitioning schema, a
    positive id, a name that matches its ids, no attribute named like a
    dimension), the store answers, the array name is not taken and the
    namespace is found; it has then added the array row, the attribute rows
    and the dimension rows of the descriptor.  It does return when these
    hold and the array id is new.  When the name is taken, the insert is
    refused and the call raises PG_QUERY_EXECUTION_FAILED.  In every case
    in which it does not return, the catalog is as it was, also when the
    namespace is refused after the rows were inserted. *)
Theorem addArray_all_or_nothing
        (psUndefined : Z) (isNameUnversioned : string -> bool)
        (getVersionFromName : string -> Z) (findNamespaceTr : NamespaceDesc.t -> bool)
        (namespaceDesc : NamespaceDesc.t) (arrayDesc : ArrayDesc.t)
        (fault : Fault) (cat : Catalog) :
  let work := _addArray_work psUndefined isNameUnversioned getVersionFromName
                             findNamespaceTr namespaceDesc arrayDesc in
  (fst (work fault cat) = Return tt ->
   accepted psUndefined isNameUnversioned getVersionFromName arrayDesc = true
   /\ fault = None
   /\ nameTaken (ArrayDesc.getName arrayDesc) cat = false
   /\ namespaceFound findNamespaceTr namespaceDesc = true
   /\ snd (work fault cat) = withArray arrayDesc cat)
  /\ (accepted psUndefined isNameUnversioned getVersionFromName arrayDesc = true ->
      fault = None ->
      nameTaken (ArrayDesc.getName arrayDesc) cat = false ->
      (forall r, In r (tbl_array cat) -> array.id r <> ArrayDesc.getId arrayDesc) ->
      namespaceFound findNamespaceTr namespaceDesc = true ->
      work fault cat = (Return tt, withArray arrayDesc cat))
  /\ (accepted psUndefined isNameUnversioned getVersionFromName arrayDesc = true ->
      fault = None ->
      nameTaken (ArrayDesc.getName arrayDesc) cat = true ->
      work fault cat
      = (Throw (SystemException SCIDB_SE_SYSCAT SCIDB_LE_PG_QUERY_EXECUTION_FAILED), cat))
  /\ (fst (work fault cat) <> Return tt -> snd (work fault cat) = cat).
Proof.
  intros work. unfold work. rewrite addArray_work_run.
  destruct (accepted psUndefined isNameUnversioned getVersionFromName arrayDesc) eqn:Ha.
  2:{ simpl. split; [discriminate|]. split; [discriminate|]. split; [discriminate|].
      reflexivity. }
  destruct fault as [f|].
  { simpl. split; [discriminate|]. split; [discriminate|]. split; [discriminate|].
    reflexivity. }
  destruct (nameTaken (ArrayDesc.getName arrayDesc) cat) eqn:Ht.
  { simpl. split; [discriminate|]. split; [discriminate|]. split; reflexivity. }
  destruct (namespaceFound findNamespaceTr namespaceDesc) eqn:Hn; simpl.
  - split; [auto 6|]. split; [reflexivity|]. split; [discriminate|].
    intros Hno. now contradiction Hno.
  - split; [discriminate|]. split; [discriminate|]. split; [discriminate|].
    reflexivity.
Qed.

Lemma addArray_all_or_nothing_witness :
  accepted NewVersion.psUndefined NewVersion.isNameUnversioned
           NewVersion.getVersionFromName NewVersion.A_1 = true
  /\ nameTaken (ArrayDesc.getName NewVersion.A_1) Published.catalog = false
  /\ (forall r, In r (tbl_array Published.catalog) ->
                array.id r <> ArrayDesc.getId NewVersion.A_1)
  /\ namespaceFound NewVersion.findNamespaceTr NewVersion.public = true
  /\ _addArray_work NewVersion.psUndefined NewVersion.isNameUnversioned
       NewVersion.getVersionFromName NewVersion.findNamespaceTr NewVersion.public
       NewVersion.A_1 None Published.catalog
     = (Return tt, withArray NewVersion.A_1 Published.catalog).
Proof.
  assert (Hid : forall r, In r (tbl_array Published.catalog) ->
                          array.id r <> ArrayDesc.getId NewVersion.A_1).
  { intros r [<-|[]]. discriminate. }
  split; [reflexivity|]. split; [reflexivity|]. split; [exact Hid|].
  split; [reflexivity|].
  exact (proj1 (proj2
           (addArray_all_or_nothing NewVersion.psUndefined NewVersion.isNameUnversioned
              NewVersion.getVersionFromName NewVersion.findNamespaceTr NewVersion.public
              NewVersion.A_1 None Published.catalog))
         eq_refl eq_refl eq_refl Hid eq_refl).
Defined.

(** ** Arrays by name *)

Lemma addArray_work_returns psUndefined isNameUnversioned getVersionFromName
      findNamespaceTr ns desc fault cat :
  fst (_addArray_work psUndefined isNameUnversioned getVersionFromName findNamespaceTr
                      ns desc fault cat) = Return tt ->
  snd (_addArray_work psUndefined isNameUnversioned getVersionFromName findNamespaceTr
                      ns desc fault cat) = withArray desc cat
  /\ 0 < ArrayDesc.getId desc.
Proof.
  rewrite addArray_work_run.
  destruct (accepted psUndefined isNameUnversioned getVersionFromName desc) eqn:Ha;
    [|discriminate].
  unfold accepted in Ha. apply andb_prop in Ha as [Ha _]. apply andb_prop in Ha as [Ha _].
  apply andb_prop in Ha as [_ Ha]. apply Z.ltb_lt in Ha.
  destruct fault; [discriminate|].
  destruct (nameTaken (ArrayDesc.getName desc) cat); [discriminate|].
  destruct (namespaceFound findNamespaceTr ns); [auto|discriminate].
Qed.

Lemma runRestartableWork_returns (St A : Type) (isRetryable : Exception -> bool)
      (body : Fault -> St -> Outcome A * St) n faults s a s' :
  body None s = (Return a, s') ->
  runRestartableWork isRetryable (S n) (attempt body) (None :: faults, s)
  = (Return a, (faults, s')).
Proof. intros H. simpl. now rewrite H. Qed.

(** X21: an added array is found by its name.  When no array row has the
    name of the descriptor, _findArrayByName answers INVALID_ARRAY_ID for it
    and containsArray false; once addArray has returned for a descriptor with
    an id below 2^64, _findArrayByName answers the id of the descriptor, and
    containsArray true unless that id is INVALID_ARRAY_ID; other names are
    answered as before. *)
Theorem findArrayByName_after_addArray
        (INVALID_ARRAY_ID psUndefined : Z) (isNameUnversioned : string -> bool)
        (getVersionFromName : string -> Z) (findNamespaceTr : NamespaceDesc.t -> bool)
        (namespaceDesc : NamespaceDesc.t) (arrayDesc : ArrayDesc.t) (cat : Catalog) :
  let added := _addArray_work psUndefined isNameUnversioned getVersionFromName
                              findNamespaceTr namespaceDesc arrayDesc None cat in
  let array_name := ArrayDesc.getName arrayDesc in
  arraysNamed array_name cat = [] ->
  ArrayDesc.getId arrayDesc < 2 ^ 64 ->
  fst added = Return tt ->
  _findArrayByName INVALID_ARRAY_ID None array_name cat = (Return INVALID_ARRAY_ID, cat)
  /\ _findArrayByName INVALID_ARRAY_ID None array_name (snd added)
     = (Return (ArrayDesc.getId arrayDesc), snd added)
  /\ (forall n faults,
        fst (containsArray INVALID_ARRAY_ID (S n) array_name (None :: faults, cat))
        = Return false
        /\ fst (containsArray INVALID_ARRAY_ID (S n) array_name (None :: faults, snd added))
           = Return (negb (ArrayDesc.getId arrayDesc =? INVALID_ARRAY_ID)))
  /\ (forall other, other <> array_name ->
        fst (_findArrayByName INVALID_ARRAY_ID None other (snd added))
        = fst (_findArrayByName INVALID_ARRAY_ID None other cat)).
Proof.
  intros added array_name Hnone Hid Hret. unfold added in *.
  destruct (addArray_work_returns _ _ _ _ _ _ _ _ Hret) as [-> Hpos].
  unfold arraysNamed in Hnone.
  assert (Hbefore : _findArrayByName INVALID_ARRAY_ID None array_name cat
                    = (Return INVALID_ARRAY_ID, cat)).
  { unfold _findArrayByName. now rewrite Hnone. }
  assert (Hafter : _findArrayByName INVALID_ARRAY_ID None array_name
                                    (withArray arrayDesc cat)
                   = (Return (ArrayDesc.getId arrayDesc), withArray arrayDesc cat)).
  { unfold _findArrayByName. cbn [withArray tbl_array]. rewrite filter_app, Hnone.
    simpl. unfold array_name. rewrite String.eqb_refl.
    rewrite Z.mod_small by (split; [apply Z.lt_le_incl, Hpos|exact Hid]). reflexivity. }
  split; [exact Hbefore|]. split; [exact Hafter|]. split.
  - intros n faults. unfold containsArray.
    rewrite (runRestartableWork_returns _ _ _ _ n faults _ _ _ Hbefore),
            (runRestartableWork_returns _ _ _ _ n faults _ _ _ Hafter).
    simpl. now rewrite Z.eqb_refl.
  - intros other Hne. unfold array_name in Hne. unfold _findArrayByName.
    cbn [withArray tbl_array]. rewrite filter_app. simpl.
    rewrite (proj2 (String.eqb_neq (ArrayDesc.getName arrayDesc) other)) by auto.
    rewrite app_nil_r.
    destruct (filter (fun r => String.eqb (array.name r) other) (tbl_array cat));
      reflexivity.
Qed.

Lemma findArrayByName_after_addArray_witness :
  arraysNamed (ArrayDesc.getName NewVersion.A) NewVersion.empty = []
  /\ ArrayDesc.getId NewVersion.A < 2 ^ 64
  /\ fst (_addArray_work NewVersion.psUndefined NewVersion.isNameUnversioned
            NewVersion.getVersionFromName NewVersion.findNamespaceTr NewVersion.public
            NewVersion.A None NewVersion.empty) = Return tt
  /\ _findArrayByName (2 ^ 64 - 1) None "A"
       (snd (_addArray_work NewVersion.psUndefined NewVersion.isNameUnversioned
               NewVersion.getVersionFromName NewVersion.findNamespaceTr NewVersion.public
               NewVersion.A None NewVersion.empty))
     = (Return 100,
        snd (_addArray_work NewVersion.psUndefined NewVersion.isNameUnversioned
               NewVersion.getVersionFromName NewVersion.findNamespaceTr NewVersion.public
               NewVersion.A None NewVersion.empty)).
Proof.
  assert (Hid : ArrayDesc.getId NewVersion.A < 2 ^ 64) by reflexivity.
  split; [reflexivity|]. split; [exact Hid|]. split; [reflexivity|].
  apply (findArrayByName_after_addArray (2 ^ 64 - 1) NewVersion.psUndefined
           NewVersion.isNameUnversioned NewVersion.getVersionFromName
           NewVersion.findNamespaceTr NewVersion.public NewVersion.A NewVersion.empty
           eq_refl Hid eq_refl).
Defined.

(** ** Reading the boundaries *)

Lemma ascending_seq n : forall s, ascending (map Z.of_nat (seq s n)).
Proof.
  induction n as [|n IH]; intros s; [exact I|]. simpl. split; [|apply IH].
  intros y Hy. apply in_map_iff in Hy as (i & <- & Hi). apply in_seq in Hi. lia.
Qed.

Lemma map_fst_combine (A B : Type) (l1 : list A) : forall l2 : list B,
  List.length l1 = List.length l2 -> map fst (combine l1 l2) = l1.
Proof.
  induction l1 as [|x l1 IH]; intros [|y l2] H; try discriminate; [reflexivity|].
  simpl. f_equal. apply IH. now injection H.
Qed.

Lemma map_snd_combine (A B : Type) (l1 : list A) : forall l2 : list B,
  List.length l1 = List.length l2 -> map snd (combine l1 l2) = l2.
Proof.
  induction l1 as [|x l1 IH]; intros [|y l2] H; try discriminate; [reflexivity|].
  simpl. f_equal. apply IH. now injection H.
Qed.

Lemma map_fst_indexed (A : Type) (l : list A) :
  map fst (indexed l) = map Z.of_nat (seq 0 (List.length l)).
Proof. unfold indexed. apply map_fst_combine. now rewrite length_map, length_seq. Qed.

Lemma map_snd_indexed (A : Type) (l : list A) : map snd (indexed l) = l.
Proof. unfold indexed. apply map_snd_combine. now rewrite length_map, length_seq. Qed.

(** The dimension rows of an array that [_addArray] has just written. *)
Lemma dimensionsOf_withArray desc cat :
  dimensionsOf (ArrayDesc.getId desc) cat = [] ->
  dimensionsOf (ArrayDesc.getId desc) (withArray desc cat)
  = map (dimensionRow (ArrayDesc.getId desc)) (indexed (ArrayDesc.getDimensions desc)).
Proof.
  unfold dimensionsOf. intros Hnone. cbn [withArray tbl_array_dimension].
  rewrite filter_app, Hnone. simpl. apply filter_all.
  intros r Hr. apply in_map_iff in Hr as (p & <- & _). simpl. apply Z.eqb_refl.
Qed.

Lemma readBoundary_rows column array_id cat :
  ascending (map array_dimension.id (dimensionsOf array_id cat)) ->
  readBoundary column None array_id cat
  = match dimensionsOf array_id cat with
    | [] => ArrayIdDoesntExist array_id
    | _ :: _ => Boundary (map column (dimensionsOf array_id cat))
    end.
Proof.
  intros Hasc. unfold readBoundary. fold (dimensionsOf array_id cat).
  rewrite (orderBy_sorted _ _ _ Hasc). now destruct (dimensionsOf array_id cat).
Qed.

(** X22: the boundaries of an added array.  For an array id without
    dimension rows getLowBoundary and getHighBoundary raise
    ARRAYID_DOESNT_EXIST; once addArray has returned for a descriptor with
    that id they answer the current start, respectively the current end, of
    the dimensions of the descriptor, in the order of the descriptor, and
    still ARRAYID_DOESNT_EXIST when the descriptor has no dimension. *)
Theorem getBoundary_after_addArray
        (psUndefined : Z) (isNameUnversioned : string -> bool)
        (getVersionFromName : string -> Z) (findNamespaceTr : NamespaceDesc.t -> bool)
        (namespaceDesc : NamespaceDesc.t) (arrayDesc : ArrayDesc.t) (cat : Catalog) :
  let added := _addArray_work psUndefined isNameUnversioned getVersionFromName
                              findNamespaceTr namespaceDesc arrayDesc None cat in
  let array_id := ArrayDesc.getId arrayDesc in
  let dims := ArrayDesc.getDimensions arrayDesc in
  dimensionsOf array_id cat = [] ->
  fst added = Return tt ->
  _getLowBoundary None array_id cat = ArrayIdDoesntExist array_id
  /\ _getHighBoundary None array_id cat = ArrayIdDoesntExist array_id
  /\ _getLowBoundary None array_id (snd added)
     = match dims with
       | [] => ArrayIdDoesntExist array_id
       | _ => Boundary (map DimensionDesc.getCurrStart dims)
       end
  /\ _getHighBoundary None array_id (snd added)
     = match dims with
       | [] => ArrayIdDoesntExist array_id
       | _ => Boundary (map DimensionDesc.getCurrEnd dims)
       end.
Proof.
  intros added array_id dims Hnone Hret. unfold added in *.
  destruct (addArray_work_returns _ _ _ _ _ _ _ _ Hret) as [-> _].
  pose proof (dimensionsOf_withArray arrayDesc cat Hnone) as Hrows.
  fold array_id dims in Hrows.
  assert (Hcol : forall (get : DimensionDesc.t -> Z) (column : array_dimension.row -> Z),
            (forall p, column (dimensionRow array_id p) = get (snd p)) ->
            map column (map (dimensionRow array_id) (indexed dims)) = map get dims).
  { intros get column H. rewrite map_map.
    rewrite (map_ext _ (fun p => get (snd p)) H), <- (map_map snd), map_snd_indexed.
    reflexivity. }
  assert (Hasc : ascending (map array_dimension.id
                                (map (dimensionRow array_id) (indexed dims)))).
  { rewrite map_map.
    rewrite (map_ext _ fst) by reflexivity. rewrite map_fst_indexed. apply ascending_seq. }
  unfold _getLowBoundary, _getHighBoundary.
  rewrite !(readBoundary_rows _ array_id cat) by (rewrite Hnone; exact I).
  rewrite !(readBoundary_rows _ array_id (withArray arrayDesc cat))
    by (rewrite Hrows; exact Hasc).
  rewrite Hnone, Hrows.
  rewrite (Hcol DimensionDesc.getCurrStart array_dimension.currStart) by reflexivity.
  rewrite (Hcol DimensionDesc.getCurrEnd array_dimension.currEnd) by reflexivity.
  split; [reflexivity|]. split; [reflexivity|].
  destruct dims; split; reflexivity.
Qed.

Lemma getBoundary_after_addArray_witness :
  dimensionsOf (ArrayDesc.getId Bounds.M) NewVersion.empty = []
  /\ fst (_addArray_work NewVersion.psUndefined NewVersion.isNameUnversioned
            NewVersion.getVersionFromName NewVersion.findNamespaceTr NewVersion.public
            Bounds.M None NewVersion.empty) = Return tt
  /\ _getLowBoundary None 101
       (snd (_addArray_work NewVersion.psUndefined NewVersion.isNameUnversioned
               NewVersion.getVersionFromName NewVersion.findNamespaceTr NewVersion.public
               Bounds.M None NewVersion.empty))
     = Boundary [5; 0].
Proof.
  split; [reflexivity|]. split; [reflexivity|].
  apply (getBoundary_after_addArray NewVersion.psUndefined NewVersion.isNameUnversioned
           NewVersion.getVersionFromName NewVersion.findNamespaceTr NewVersion.public
           Bounds.M NewVersion.empty eq_refl eq_refl).
Defined.

Lemma nth_indexed (A : Type) (l : list A) i d :
  (i < List.length l)%nat -> nth i (indexed l) (0, d) = (Z.of_nat i, nth i l d).
Proof.
  intros Hi. unfold indexed.
  rewrite combine_nth by now rewrite length_map, length_seq.
  f_equal. change 0 with (Z.of_nat 0). rewrite map_nth, seq_nth by assumption.
  reflexivity.
Qed.

Lemma length_indexed (A : Type) (l : list A) : List.length (indexed l) = List.length l.
Proof.
  unfold indexed. rewrite length_combine, length_map, length_seq. apply Nat.min_id.
Qed.

(** X23: the boundaries after updateArrayBoundaries.  For an array that
    addArray has just written, with one trimmed low and high coordinate per
    dimension, updateArrayBoundaries returns and getLowBoundary then answers,
    dimension by dimension, the smaller of the start of the descriptor and
    the trimmed low coordinate, getHighBoundary the greater of the end of
    the descriptor and the trimmed high coordinate. *)
Theorem getBoundary_after_update
        (trimToDims : PhysicalBoundaries.t -> list DimensionDesc.t -> PhysicalBoundaries.t)
        (psUndefined : Z) (isNameUnversioned : string -> bool)
        (getVersionFromName : string -> Z) (findNamespaceTr : NamespaceDesc.t -> bool)
        (namespaceDesc : NamespaceDesc.t) (arrayDesc : ArrayDesc.t)
        (bounds : PhysicalBoundaries.t) (cat : Catalog) :
  let added := _addArray_work psUndefined isNameUnversioned getVersionFromName
                              findNamespaceTr namespaceDesc arrayDesc None cat in
  let updated := _updateArrayBoundaries trimToDims arrayDesc bounds None (snd added) in
  let array_id := ArrayDesc.getId arrayDesc in
  let dims := ArrayDesc.getDimensions arrayDesc in
  let low := PhysicalBoundaries.getStartCoords (trimToDims bounds dims) in
  let high := PhysicalBoundaries.getEndCoords (trimToDims bounds dims) in
  dimensionsOf array_id cat = [] ->
  fst added = Return tt ->
  dims <> [] ->
  List.length low = List.length dims ->
  List.length high = List.length dims ->
  fst updated = Return tt
  /\ exists lowBoundary highBoundary,
       _getLowBoundary None array_id (snd updated) = Boundary lowBoundary
       /\ _getHighBoundary None array_id (snd updated) = Boundary highBoundary
       /\ List.length lowBoundary = List.length dims
       /\ List.length highBoundary = List.length dims
       /\ forall i d, (i < List.length dims)%nat ->
            nth i lowBoundary 0
            = Z.min (nth i low 0) (DimensionDesc.getCurrStart (nth i dims d))
            /\ nth i highBoundary 0
               = Z.max (nth i high 0) (DimensionDesc.getCurrEnd (nth i dims d)).
Proof.
  intros added updated array_id dims low high Hnone Hret Hdims Hlow Hhigh.
  unfold updated, added in *.
  destruct (addArray_work_returns _ _ _ _ _ _ _ _ Hret) as [-> _].
  pose proof (dimensionsOf_withArray arrayDesc cat Hnone) as Hrows.
  fold array_id dims in Hrows.
  set (rows := map (dimensionRow array_id) (indexed dims)) in *.
  set (loop := boundaryLoop array_id high (indexed low)).
  assert (Hrun : _updateArrayBoundaries trimToDims arrayDesc bounds None
                                        (withArray arrayDesc cat)
                 = (Return tt,
                    mkCatalog (tbl_array (withArray arrayDesc cat))
                              (tbl_array_attribute (withArray arrayDesc cat))
                              (map loop (tbl_array_dimension (withArray arrayDesc cat)))
                              (tbl_array_version (withArray arrayDesc cat)))).
  { unfold _updateArrayBoundaries, transaction. now rewrite forEach_boundaries. }
  rewrite Hrun. cbn [fst snd]. split; [reflexivity|].
  assert (Hsame : forall r, sameDimension r (loop r))
    by (intros r; apply (boundaryLoop_row array_id low high r)).
  assert (Hrows' : dimensionsOf array_id
                     (mkCatalog (tbl_array (withArray arrayDesc cat))
                                (tbl_array_attribute (withArray arrayDesc cat))
                                (map loop (tbl_array_dimension (withArray arrayDesc cat)))
                                (tbl_array_version (withArray arrayDesc cat)))
                   = map loop rows).
  { unfold dimensionsOf in *. cbn [tbl_array_dimension] in *.
    rewrite filter_map_comm, <- Hrows. f_equal. apply filter_ext.
    intros r. now destruct (Hsame r) as (-> & _). }
  assert (Hasc : ascending (map array_dimension.id (map loop rows))).
  { rewrite map_map. rewrite (map_ext _ array_dimension.id)
      by (intros r; now destruct (Hsame r) as (_ & -> & _)).
    unfold rows. rewrite map_map, (map_ext _ fst) by reflexivity.
    rewrite map_fst_indexed. apply ascending_seq. }
  assert (Hlen : List.length rows = List.length dims)
    by (unfold rows; now rewrite length_map, length_indexed).
  assert (Hne : map loop rows <> []).
  { intros E. apply (f_equal (@List.length _)) in E. rewrite length_map, Hlen in E.
    destruct dims; [now apply Hdims|discriminate]. }
  exists (map array_dimension.currStart (map loop rows)),
         (map array_dimension.currEnd (map loop rows)).
  unfold _getLowBoundary, _getHighBoundary.
  rewrite !readBoundary_rows by (rewrite Hrows'; exact Hasc).
  rewrite Hrows'.
  split; [destruct (map loop rows); [contradiction|reflexivity]|].
  split; [destruct (map loop rows); [contradiction|reflexivity]|].
  rewrite !length_map. split; [assumption|]. split; [assumption|].
  intros i d Hi.
  set (r := dimensionRow array_id (Z.of_nat i, nth i dims d)).
  assert (Hr : nth i rows r = r).
  { unfold rows.
    rewrite (nth_indep _ r (dimensionRow array_id (0, d)))
      by now rewrite length_map, length_indexed.
    now rewrite map_nth, nth_indexed. }
  assert (Hnth : forall column : array_dimension.row -> Z,
            nth i (map column (map loop rows)) 0 = column (loop r)).
  { intros column.
    rewrite (nth_indep _ 0 (column (loop r))) by now rewrite !length_map, Hlen.
    now rewrite !map_nth, Hr. }
  rewrite !Hnth.
  destruct (boundaryLoop_row array_id low high r) as (_ & Hhit & _).
  destruct (Hhit i eq_refl eq_refl) as [Hlo Hhi]; [lia|].
  fold loop in Hlo, Hhi. rewrite Hlo, Hhi. simpl.
  split.
  - destruct (Z.ltb_spec (nth i low 0) (DimensionDesc.getCurrStart (nth i dims d))); lia.
  - destruct (Z.ltb_spec (DimensionDesc.getCurrEnd (nth i dims d)) (nth i high 0)); lia.
Qed.

Lemma getBoundary_after_update_witness :
  dimensionsOf (ArrayDesc.getId Bounds.M) NewVersion.empty = []
  /\ fst (_addArray_work NewVersion.psUndefined NewVersion.isNameUnversioned
            NewVersion.getVersionFromName NewVersion.findNamespaceTr NewVersion.public
            Bounds.M None NewVersion.empty) = Return tt
  /\ fst (_updateArrayBoundaries Bounds.trimToDims Bounds.M Bounds.bounds None
            (snd (_addArray_work NewVersion.psUndefined NewVersion.isNameUnversioned
                    NewVersion.getVersionFromName NewVersion.findNamespaceTr
                    NewVersion.public Bounds.M None NewVersion.empty)))
     = Return tt.
Proof.
  split; [reflexivity|]. split; [reflexivity|].
  apply (getBoundary_after_update Bounds.trimToDims NewVersion.psUndefined
           NewVersion.isNameUnversioned NewVersion.getVersionFromName
           NewVersion.findNamespaceTr NewVersion.public Bounds.M Bounds.bounds
           NewVersion.empty eq_refl eq_refl); try reflexivity.
  discriminate.
Defined.

(** ** Transient arrays *)

Lemma land_lor_l a b : Z.land (Z.lor a b) a = a.
Proof.
  apply Z.bits_inj'. intros n _. rewrite Z.land_spec, Z.lor_spec.
  destruct (Z.testbit a n), (Z.testbit b n); reflexivity.
Qed.

Lemma land_lor_r a b : Z.land (Z.lor a b) b = b.
Proof.
  apply Z.bits_inj'. intros n _. rewrite Z.land_spec, Z.lor_spec.
  destruct (Z.testbit a n), (Z.testbit b n); reflexivity.
Qed.

Lemma invalidate_twice INVALID TRANSIENT arrayName r :
  invalidate INVALID TRANSIENT arrayName (invalidate INVALID TRANSIENT arrayName r)
  = invalidate INVALID TRANSIENT arrayName r.
Proof.
  unfold invalidate.
  destruct (negb (Z.land (array.flags r) TRANSIENT =? 0)
            && (if String.eqb arrayName EmptyString then true
                else String.eqb (array.name r) arrayName)) eqn:E.
  - cbn [array.flags array.name array.id array.partitioning_schema].
    rewrite <- Z.lor_assoc, Z.lor_diag.
    match goal with |- (if ?c then _ else _) = _ => destruct c end; reflexivity.
  - now rewrite E.
Qed.

(** X24: invalidating transient arrays.  _invalidateTempArray sets the
    INVALID bits in the flags of every array row that has a TRANSIENT bit
    set and, when a name is given, that name; it changes no other row and no
    other column, clears no flag, and a second call changes nothing.  When
    the store fails the statement the catalog is as it was, and a
    serialization failure is raised as TxnIsolationConflict. *)
Theorem invalidateTempArray_sets_flag
        (INVALID TRANSIENT : Z) (arrayName : string) (cat : Catalog) :
  let r := _invalidateTempArray INVALID TRANSIENT arrayName None cat in
  fst r = Return tt
  /\ tbl_array_attribute (snd r) = tbl_array_attribute cat
  /\ tbl_array_dimension (snd r) = tbl_array_dimension cat
  /\ tbl_array_version (snd r) = tbl_array_version cat
  /\ Forall2 (fun row row' =>
                array.id row' = array.id row
                /\ array.name row' = array.name row
                /\ array.partitioning_schema row' = array.partitioning_schema row
                /\ Z.land (array.flags row') (array.flags row) = array.flags row
                /\ (Z.land (array.flags row) TRANSIENT <> 0 ->
                    arrayName = EmptyString \/ array.name row = arrayName ->
                    array.flags row' = Z.lor (array.flags row) INVALID
                    /\ Z.land (array.flags row') INVALID = INVALID)
                /\ (Z.land (array.flags row) TRANSIENT = 0
                    \/ (arrayName <> EmptyString /\ array.name row <> arrayName) ->
                    row' = row))
             (tbl_array cat) (tbl_array (snd r))
  /\ _invalidateTempArray INVALID TRANSIENT arrayName None (snd r) = (Return tt, snd r)
  /\ (forall f,
        _invalidateTempArray INVALID TRANSIENT arrayName (Some f) cat
        = (Throw (catchSerializable (raised f)), cat))
  /\ (forall what,
        isSerializationConflict what = true ->
        fst (_invalidateTempArray INVALID TRANSIENT arrayName
                                  (Some (statement_failed what)) cat)
        = Throw TxnIsolationConflict).
Proof.
  intros r. unfold r, _invalidateTempArray, transaction, execSql. cbn [fst snd].
  split; [reflexivity|]. split; [reflexivity|]. split; [reflexivity|].
  split; [reflexivity|]. split; [|split; [|split]].
  - cbn [tbl_array]. induction (tbl_array cat) as [|row rest IH]; simpl; constructor;
      [|exact IH].
    unfold invalidate.
    destruct (Z.eqb_spec (Z.land (array.flags row) TRANSIENT) 0) as [Ht|Ht]; simpl.
    { do 3 (split; [reflexivity|]). split; [apply Z.land_diag|].
      split; [intros Hc; contradiction|reflexivity]. }
    destruct (String.eqb_spec arrayName EmptyString) as [Hn|Hn];
      [|destruct (String.eqb_spec (array.name row) arrayName) as [He|He]]; simpl.
    + do 3 (split; [reflexivity|]). split; [apply land_lor_l|].
      split; [intros _ _; split; [reflexivity|apply land_lor_r]|].
      intros [Hc|[Hc _]]; contradiction.
    + do 3 (split; [reflexivity|]). split; [apply land_lor_l|].
      split; [intros _ _; split; [reflexivity|apply land_lor_r]|].
      intros [Hc|[_ Hc]]; contradiction.
    + do 3 (split; [reflexivity|]). split; [apply Z.land_diag|].
      split; [intros _ [Hc|Hc]; contradiction|reflexivity].
  - cbn [tbl_array tbl_array_attribute tbl_array_dimension tbl_array_version].
    rewrite map_map. do 2 f_equal. apply map_ext. intros row. apply invalidate_twice.
  - intros f. reflexivity.
  - intros what Hw. simpl. now rewrite Hw.
Qed.

Lemma invalidateTempArray_sets_flag_witness :
  isSerializationConflict "ERROR:  could not serialize access due to concurrent update"
  = true
  /\ fst (_invalidateTempArray 4 2 EmptyString
            (Some (statement_failed
                     "ERROR:  could not serialize access due to concurrent update"))
            NewVersion.empty)
     = Throw TxnIsolationConflict.
Proof.
  split; [reflexivity|].
  apply (invalidateTempArray_sets_flag 4 2 EmptyString NewVersion.empty). reflexivity.
Defined.

(** ** The connection string *)

Lemma substr_append pre s : substr (String.length pre) (String.append pre s) = s.
Proof. induction pre as [|c pre IH]; simpl; [now destruct s|exact IH]. Qed.

Lemma find_first_of_append chars a b :
  find_first_of chars (String.append a b)
  = match find_first_of chars a with
    | Some i => Some i
    | None => option_map (Nat.add (String.length a)) (find_first_of chars b)
    end.
Proof.
  induction a as [|c a IH]; simpl.
  - now destruct (find_first_of chars b).
  - destruct (existsb (Ascii.eqb c) chars); [reflexivity|]. rewrite IH.
    destruct (find_first_of chars a); [reflexivity|].
    now destruct (find_first_of chars b).
Qed.

Lemma substring_prefix v p :
  String.substring 0 (String.length v) (String.append v p) = v.
Proof.
  induction v as [|c v IH]; simpl; [now destruct p|]. now rewrite IH.
Qed.

Lemma append_empty a b : String.append a b = EmptyString -> a = EmptyString /\ b = EmptyString.
Proof. destruct a; simpl; [auto|discriminate]. Qed.

(** X25: what _findCredParam extracts.  In a connection string pre ++ key ++
    value ++ post, where this is the first occurrence of the key, the only
    '=' of the key is its last character, the value has no blank and post is
    empty or starts with a blank (space or tab), _findCredParam answers the
    value; it answers two single quotes instead when the string ends with
    the key. *)
Theorem findCredParam_value (pre key value post : string) :
  let creds := String.append pre (String.append key (String.append value post)) in
  String.index 0 key creds = Some (String.length pre) ->
  (exists eq, find_first_of ["="%char] key = Some eq /\ (eq + 1 = String.length key)%nat) ->
  find_first_of [" "%char; "009"%char] value = None ->
  (post = EmptyString
   \/ exists c rest, post = String c rest /\ (c = " "%char \/ c = "009"%char)) ->
  _findCredParam creds key
  = if String.eqb (String.append value post) EmptyString then "''"%string else value.
Proof.
  intros creds Hfirst (eq & Heq & Hlen) Hvalue Hpost.
  unfold _findCredParam. rewrite Hfirst. unfold creds. rewrite substr_append.
  rewrite find_first_of_append, Heq, Hlen, substr_append.
  destruct (String.eqb_spec (String.append value post) EmptyString) as [E|E];
    [reflexivity|].
  rewrite find_first_of_append, Hvalue.
  destruct Hpost as [->|(c & rest & -> & Hc)].
  - simpl. clear. induction value as [|c v IH]; [reflexivity|]. simpl. now f_equal.
  - assert (Hblank : find_first_of [" "%char; "009"%char] (String c rest) = Some O)
      by (destruct Hc as [-> | ->]; reflexivity).
    rewrite Hblank. simpl option_map. rewrite Nat.add_0_r. apply substring_prefix.
Qed.

Lemma findCredParam_value_witness :
  String.index 0 "port=" Credentials.creds = Some (String.length "host=localhost ")
  /\ _findCredParam Credentials.creds "port=" = "5432"%string.
Proof.
  split; [reflexivity|].
  apply (findCredParam_value "host=localhost " "port=" "5432" " dbname=mydb" eq_refl).
  - exists 4%nat. split; reflexivity.
  - reflexivity.
  - right. exists " "%char, "dbname=mydb"%string. split; [reflexivity|now left].
Defined.

(** ** A new version and the readers *)

Lemma addArrayVersion_returns psUndefined isNameUnversioned getVersionFromName
      findNamespaceTr timestamp ns unv vdesc fault cat :
  versionsInRange (ArrayDesc.getUAId vdesc) cat ->
  fst (_addArrayVersion psUndefined isNameUnversioned getVersionFromName findNamespaceTr
                        timestamp ns unv vdesc fault cat) = Return tt ->
  let cat0 := match unv with Some desc => withArray desc cat | None => cat end in
  snd (_addArrayVersion psUndefined isNameUnversioned getVersionFromName findNamespaceTr
                        timestamp ns unv vdesc fault cat)
  = withVersion (array_version.mk (ArrayDesc.getUAId vdesc) (ArrayDesc.getId vdesc)
                                  (lastVersionOf (ArrayDesc.getUAId vdesc) cat + 1)
                                  timestamp)
                (withArray vdesc cat0)
  /\ 0 < ArrayDesc.getId vdesc.
Proof.
  intros Hwf Hret cat0. unfold _addArrayVersion, transaction in *.
  match goal with |- context [match ?b fault cat with _ => _ end] =>
    destruct (b fault cat) as [[u cat']|[e|e]] eqn:Hbody end;
    simpl in Hret; try discriminate.
  simpl.
  apply tx_bind_inl in Hbody as (? & c1 & H1 & Hbody).
  apply tx_bind_inl in Hbody as (? & c2 & H2 & Hbody).
  apply tx_bind_inl in Hbody as (v & c3 & H3 & Hbody).
  unfold tx_ret in Hbody. injection Hbody as _ <-.
  assert (Hpos : 0 < ArrayDesc.getId vdesc).
  { rewrite addArray_run in H2.
    destruct (negb (ArrayDesc.getPartitioningSchema vdesc =? psUndefined)) ; simpl in H2;
      [|discriminate].
    destruct (Z.ltb_spec 0 (ArrayDesc.getId vdesc)); [assumption|discriminate]. }
  apply addArray_inl in H2 as [Hf ->]. subst fault.
  assert (Hc1 : c1 = cat0).
  { unfold cat0. destruct unv as [desc|].
    - now apply addArray_inl in H1 as [_ ->].
    - unfold tx_ret in H1. now injection H1 as _ <-. }
  subst c1.
  assert (Hv : versionsOf (ArrayDesc.getUAId vdesc) (withArray vdesc cat0)
               = versionsOf (ArrayDesc.getUAId vdesc) cat).
  { rewrite versionsOf_withArray. unfold cat0. destruct unv; reflexivity. }
  assert (Hwf' : versionsInRange (ArrayDesc.getUAId vdesc) (withArray vdesc cat0)).
  { intros r Hr. rewrite Hv in Hr. auto. }
  rewrite (createNewVersion_run _ _ _ _ Hwf') in H3. injection H3 as _ <-.
  split; [|assumption]. unfold lastVersionOf. now rewrite Hv.
Qed.

(** X26: a committed version is seen alike by all readers.  After
    addArrayVersion has returned for a versioned descriptor whose name was
    not in the catalog, the name is found with the id of the descriptor,
    getArrayVersions lists that id last, under the version id issued (the
    latest version so far plus one) and the timestamp of the call, and
    getLastVersion answers that version id for every catalog horizon from
    the id of the descriptor on. *)
Theorem addArrayVersion_seen_by_readers
        (INVALID_ARRAY_ID psUndefined : Z) (isNameUnversioned : string -> bool)
        (getVersionFromName : string -> Z) (findNamespaceTr : NamespaceDesc.t -> bool)
        (timestamp : Z) (namespaceDesc : NamespaceDesc.t)
        (versionedDesc : ArrayDesc.t) (fault : Fault) (cat : Catalog) :
  let added := _addArrayVersion psUndefined isNameUnversioned getVersionFromName
                 findNamespaceTr timestamp namespaceDesc None versionedDesc fault cat in
  let array_id := ArrayDesc.getUAId versionedDesc in
  let version_id := lastVersionOf array_id cat + 1 in
  versionsInRange array_id cat ->
  (forall r, In r (tbl_array_version cat) ->
     0 <= array_version.version_id r /\ 0 <= array_version.version_array_id r) ->
  arraysNamed (ArrayDesc.getName versionedDesc) cat = [] ->
  ArrayDesc.getId versionedDesc < 2 ^ 64 ->
  fst added = Return tt ->
  _findArrayByName INVALID_ARRAY_ID None (ArrayDesc.getName versionedDesc) (snd added)
  = (Return (ArrayDesc.getId versionedDesc), snd added)
  /\ (exists earlier,
        _getArrayVersions None array_id (snd added)
        = (Return (earlier ++ [VersionDesc.mk (ArrayDesc.getId versionedDesc)
                                              version_id timestamp]), snd added)
        /\ Permutation earlier (map versionDescOf (versionsOf array_id cat)))
  /\ (forall h, ArrayDesc.getId versionedDesc <= h ->
        _getLastVersion None array_id h (snd added) = (Return version_id, snd added)).
Proof.
  intros added array_id version_id Hwf Hpos Hname Hid Hret. unfold added in *.
  destruct (addArrayVersion_returns _ _ _ _ _ _ _ _ _ _ Hwf Hret) as [Hcat Hid0].
  rewrite Hcat. fold array_id version_id.
  set (row := array_version.mk array_id (ArrayDesc.getId versionedDesc) version_id
                               timestamp).
  assert (Hlast : forall r, In r (versionsOf array_id cat) ->
                            array_version.version_id r <= version_id).
  { intros r Hr. pose proof (lastVersionOf_upper array_id cat r Hr).
    unfold version_id. lia. }
  assert (Hrows : versionsOf array_id (withVersion row (withArray versionedDesc cat))
                  = versionsOf array_id cat ++ [row]).
  { rewrite versionsOf_withVersion, versionsOf_withArray. simpl.
    now rewrite Z.eqb_refl. }
  split; [|split].
  - unfold _findArrayByName, arraysNamed in *. cbn [withVersion withArray tbl_array].
    rewrite filter_app, Hname. simpl. rewrite String.eqb_refl.
    rewrite Z.mod_small by (split; [apply Z.lt_le_incl, Hid0|exact Hid]). reflexivity.
  - exists (map versionDescOf (orderBy array_version.version_id (versionsOf array_id cat))).
    split.
    + rewrite getArrayVersions_run.
      * rewrite Hrows. do 2 f_equal.
        assert (Hsnoc : forall l,
                  (forall r, In r l -> array_version.version_id r <= version_id) ->
                  orderBy array_version.version_id (l ++ [row])
                  = orderBy array_version.version_id l ++ [row]).
        { intros l Hl.
          assert (Hins : forall x sorted,
                    array_version.version_id x <= version_id ->
                    insertBy array_version.version_id x (sorted ++ [row])
                    = insertBy array_version.version_id x sorted ++ [row]).
          { intros x sorted Hx. induction sorted as [|y rest IH]; simpl.
            - now rewrite (proj2 (Z.leb_le _ _) Hx).
            - destruct (array_version.version_id x <=? array_version.version_id y);
                [reflexivity|]. simpl. now rewrite IH. }
          induction l as [|x rest IH]; [reflexivity|]. simpl.
          rewrite IH by (intros r Hr; apply Hl; now right).
          apply Hins, Hl. now left. }
        rewrite (Hsnoc _ Hlast), map_app. reflexivity.
      * rewrite Hrows. intros r Hr. apply in_app_or in Hr as [Hr|[<-|[]]].
        -- apply filter_In in Hr as [Hr _]. destruct (Hpos r Hr). auto.
        -- simpl. pose proof (lastVersionOf_range array_id cat Hwf).
           unfold version_id. lia.
    + apply Permutation_map, Permutation_sym, orderBy_perm.
  - intros h Hh. rewrite getLastVersion_run.
    + do 2 f_equal. cbn [withVersion withArray tbl_array_version].
      rewrite filter_app, map_app. simpl. unfold visibleb at 2. simpl.
      rewrite Z.eqb_refl, (proj2 (Z.leb_le _ _) Hh). simpl.
      rewrite sqlMax_snoc; [reflexivity|].
      intros x Hx. apply in_map_iff in Hx as (r & <- & Hr).
      apply filter_In in Hr as [Hr Hv]. apply visibleb_spec in Hv as [Ha _].
      apply Hlast, filter_In. split; [assumption|now apply Z.eqb_eq].
    + cbn [withVersion withArray tbl_array_version]. intros r Hr.
      apply in_app_or in Hr as [Hr|[<-|[]]]; [now apply Hpos|].
      simpl. pose proof (lastVersionOf_range array_id cat Hwf). unfold version_id. lia.
Qed.

Lemma addArrayVersion_seen_by_readers_witness :
  versionsInRange 100 Published.catalog
  /\ arraysNamed (ArrayDesc.getName NewVersion.A_1) Published.catalog = []
  /\ ArrayDesc.getId NewVersion.A_1 < 2 ^ 64
  /\ fst Published.added = Return tt
  /\ _getLastVersion None 100 101 (snd Published.added)
     = (Return 1, snd Published.added).
Proof.
  assert (Hwf : versionsInRange 100 Published.catalog) by (intros r []).
  assert (Hid : ArrayDesc.getId NewVersion.A_1 < 2 ^ 64) by reflexivity.
  split; [exact Hwf|]. split; [reflexivity|]. split; [exact Hid|].
  split; [reflexivity|].
  apply (addArrayVersion_seen_by_readers (2 ^ 64 - 1) NewVersion.psUndefined
           NewVersion.isNameUnversioned NewVersion.getVersionFromName
           NewVersion.findNamespaceTr 1000 NewVersion.public NewVersion.A_1 None
           Published.catalog Hwf).
  - intros r [].
  - reflexivity.
  - exact Hid.
  - reflexivity.
  - simpl. lia.
Defined.

(** ** A granted lock and readArrayLocks *)

(** The row a lock request appends is the row of the coordinator's
    descriptor, or a row of the table stamped with the worker's instance id
    and role. *)
Lemma statements_row_shape f sql ld tbl n ld' row ev :
  getLockInsertSql ld = Return sql ->
  lockArrayStatements f sql ld tbl = Executed n ld' (tbl ++ [row]) ev ->
  (getInstanceRole ld = COORD /\ row = rowOf ld)
  \/ (getInstanceRole ld = WORKER
      /\ exists c, In c tbl /\ row = stamp (getInstanceId ld) (roleCode WORKER) c).
Proof.
  intros Hsql Hst.
  destruct f as [f|]; [rewrite (statements_fault f sql ld tbl Hsql) in Hst; discriminate|].
  unfold getLockInsertSql in Hsql. unfold lockArrayStatements, execInsert, exec in Hst.
  assert (Hone : forall rows t', insertRows rows tbl = Some t' -> t' = tbl ++ [row] ->
                                 rows = [row]).
  { intros rows t' Hins Ht. apply insertRows_app in Hins. subst t'.
    now apply app_inv_head in Ht. }
  destruct (getInstanceRole ld) eqn:Hrole, (getLockMode ld) eqn:Hmode;
    simpl in Hsql; try discriminate; injection Hsql as <-; simpl in Hst.
  all: match type of Hst with
       | context [if ?g then insertResult _ _ else _] => destruct g eqn:G
       | _ => idtac
       end.
  all: match type of Hst with
       | context [insertResult ?rows ?t] =>
           destruct (insertResult rows t) as [out aff t'|e] eqn:IR; try discriminate;
           apply insertResult_rows in IR as [IR Haff]
       end.
  all: try solve [ left; split; [reflexivity|];
                   injection Hst as _ _ Ht _; apply (Hone _ _ IR) in Ht;
                   (discriminate Ht || (injection Ht as <-; unfold rowOf;
                                        now rewrite Hrole, Hmode)) ].
  - right. split; [reflexivity|].
    assert (Ht : t' = tbl ++ [row]).
    { destruct (aff =? 1); [destruct (lockReadSql _ _ _ t')|]; try (now injection Hst).
      now apply stampRead_Executed in Hst as (_ & _ & _ & <- & _). }
    apply (Hone _ _ IR) in Ht.
    assert (Hin : In row (map (stamp (getInstanceId ld) 2)
                     (filter (fun AVL : LockRow =>
                        String.eqb (array_name AVL) (getArrayName ld)
                        && (query_id AVL =? getQueryId ld) && (instance_role AVL =? 1)
                        && ((lock_mode AVL =? 2) || (lock_mode AVL =? 3))) tbl)))
      by (rewrite Ht; now left).
    apply in_map_iff in Hin as (c & <- & Hc). apply filter_In in Hc as [Hc _]. eauto.
  - right. split; [reflexivity|].
    assert (Ht : t' = tbl ++ [row]).
    { destruct ((aff =? 1) || (aff =? 0)); [|discriminate].
      destruct (lockReadSql _ _ _ t') as [|r [|r' rest]]; try discriminate;
        try (now injection Hst).
      now apply stampRead_Executed in Hst as (_ & _ & _ & <- & _). }
    apply (Hone _ _ IR) in Ht.
    match type of Ht with ?rows = _ =>
      assert (Hin : In row rows) by (rewrite Ht; now left) end.
    apply in_map_iff in Hin as (c & <- & Hc). apply filter_In in Hc as [Hc _]. eauto.
Qed.

Lemma keyOf_true ld r :
  keyOf ld r = true ->
  array_name r = getArrayName ld /\ query_id r = getQueryId ld
  /\ instance_id r = getInstanceId ld.
Proof.
  unfold keyOf. intros H. apply andb_prop in H as [H Hi]. apply andb_prop in H as [Hn Hq].
  apply String.eqb_eq in Hn. apply Z.eqb_eq in Hq, Hi. auto.
Qed.

(** X27: a granted lock is reported by readArrayLocks.  When the key of a
    request is not in the lock table, the rows of the table are readable,
    the ids of the descriptor are unsigned and lockArray returns true, then
    readArrayLocks of the instance of the request reports, in the list of the
    role of the request, the locks it reported before and one more, and in
    the other list the locks it reported before (the statement has no ORDER
    BY: the lists are compared up to their order).  The new lock has the
    array name, query id, instance id and role of the request and the array
    id, version id and version that lockArray left in the caller's
    descriptor, and it is not marked locked. *)
Theorem readArrayLocks_after_lockArray
        (lockDesc : LockDesc) (errorChecker : ErrorChecker) (tbl : LockTable) :
  (forall x, In x tbl -> keyOf lockDesc x = false) ->
  (forall x, In x tbl -> readable x = true) ->
  0 <= getArrayId lockDesc -> 0 <= getQueryId lockDesc -> 0 <= getInstanceId lockDesc ->
  0 <= getArrayVersionId lockDesc -> 0 <= getArrayVersion lockDesc ->
  let r := _lockArray None lockDesc errorChecker tbl in
  la_outcome r = Return true ->
  exists cs ws cs' ws' lock,
    _readArrayLocks None (getInstanceId lockDesc) [] [] tbl = (Return tt, (cs, ws))
    /\ _readArrayLocks None (getInstanceId lockDesc) [] [] (la_table r)
       = (Return tt, (cs', ws'))
    /\ match getInstanceRole lockDesc with
       | COORD => Permutation cs' (lock :: cs) /\ Permutation ws' ws
       | _ => Permutation cs' cs /\ Permutation ws' (lock :: ws)
       end
    /\ getArrayName lock = getArrayName lockDesc
    /\ getQueryId lock = getQueryId lockDesc
    /\ getInstanceId lock = getInstanceId lockDesc
    /\ getInstanceRole lock = getInstanceRole lockDesc
    /\ getArrayId lock = getArrayId (la_lockDesc r)
    /\ getArrayVersionId lock = getArrayVersionId (la_lockDesc r)
    /\ getArrayVersion lock = getArrayVersion (la_lockDesc r)
    /\ isLocked lock = false.
Proof.
  intros Hfresh Hread Ha Hq Hi Havid Hav r Htrue. unfold r in *.
  set (i := getInstanceId lockDesc) in *.
  destruct (lockArray_rows None lockDesc errorChecker tbl)
    as (rows & Hins & Hkeyed & _ & Hout).
  pose proof (proj1 (Hout Hfresh) Htrue) as Hlen.
  destruct rows as [|row [|row' more]]; try discriminate. clear Hlen Hout.
  apply insertRows_app in Hins.
  assert (Hk : keyOf lockDesc row = true) by (apply Hkeyed; now left).
  destruct (keyOf_true lockDesc row Hk) as (Hn & Hqr & Hir).
  (* the shape of the new row *)
  assert (Hshape : (getInstanceRole lockDesc = COORD /\ row = rowOf lockDesc)
                   \/ (getInstanceRole lockDesc = WORKER
                       /\ exists c, In c tbl /\ row = stamp i (roleCode WORKER) c)).
  { destruct (lockArray_table None lockDesc errorChecker tbl)
      as [E|(sql & n & ld' & ev & Hsql & Hst)].
    - rewrite Hins in E. apply (f_equal (@List.length _)) in E.
      rewrite length_app in E. simpl in E. lia.
    - rewrite Hins in Hst. now apply (statements_row_shape None sql lockDesc tbl n ld' row ev). }
  assert (Hreadable : readable row = true).
  { destruct Hshape as [[Hrole ->]|[Hrole (c & Hc & ->)]].
    - unfold readable, rowOf. simpl. rewrite Hrole.
      rewrite !andb_true_iff, !Z.leb_le. simpl.
      destruct (getLockMode lockDesc); simpl; repeat split; lia.
    - pose proof (readable_spec c (Hread c Hc)) as Hc'.
      unfold readable, stamp. simpl in *.
      rewrite !andb_true_iff, !Z.leb_le. repeat split; lia. }
  assert (Hrole : instance_role row = roleCode (getInstanceRole lockDesc)).
  { destruct Hshape as [[Hrole ->]|[Hrole (c & Hc & ->)]]; rewrite Hrole; simpl;
      now rewrite ?Hrole. }
  assert (Hids : array_id row = getArrayId (la_lockDesc (_lockArray None lockDesc errorChecker tbl))
                 /\ array_version_id row
                    = getArrayVersionId (la_lockDesc (_lockArray None lockDesc errorChecker tbl))
                 /\ array_version row
                    = getArrayVersion (la_lockDesc (_lockArray None lockDesc errorChecker tbl))).
  { destruct Hshape as [[Hr Hrow]|[Hr _]].
    - destruct (coordinator_granted lockDesc errorChecker tbl Hr Hfresh Htrue) as [_ ->].
      rewrite Hrow. now destruct lockDesc.
    - destruct (worker_grant_from_table None lockDesc errorChecker tbl Hr Htrue)
        as (row0 & Hk0 & _ & -> & [(c & _ & _ & _ & _ & _ & Ht)|(_ & Hin0 & _)]).
      + rewrite Hins in Ht. apply app_inv_head in Ht. injection Ht as <-.
        now destruct lockDesc.
      + rewrite (Hfresh row0 Hin0) in Hk0. discriminate. }
  set (cs := map lockOfRow (filter (fun x => (instance_id x =? i)
                                             && (instance_role x =? roleCode COORD)) tbl)).
  set (ws := map lockOfRow (filter (fun x => (instance_id x =? i)
                                             && negb (instance_role x =? roleCode COORD))
                                   tbl)).
  assert (Hafter : _readArrayLocks None i [] []
                     (la_table (_lockArray None lockDesc errorChecker tbl))
                   = (Return tt,
                      match getInstanceRole lockDesc with
                      | COORD => (cs ++ [lockOfRow row], ws)
                      | _ => (cs, ws ++ [lockOfRow row])
                      end)).
  { rewrite Hins, readArrayLocks_run.
    - rewrite !filter_app, !map_app. simpl. rewrite Hir, Z.eqb_refl, Hrole. simpl.
      destruct Hshape as [[Hr _]|[Hr _]]; rewrite Hr; simpl; now rewrite ?app_nil_r.
    - intros x Hx _. apply in_app_or in Hx as [Hx|[<-|[]]]; auto. }
  exists cs, ws,
         (match getInstanceRole lockDesc with COORD => cs ++ [lockOfRow row] | _ => cs end),
         (match getInstanceRole lockDesc with COORD => ws | _ => ws ++ [lockOfRow row] end),
         (lockOfRow row).
  split; [apply readArrayLocks_run; auto|].
  split; [rewrite Hafter; now destruct (getInstanceRole lockDesc)|].
  split.
  { destruct (getInstanceRole lockDesc); split;
      auto using Permutation_refl, Permutation_sym, Permutation_cons_append. }
  destruct Hids as (Hid1 & Hid2 & Hid3).
  unfold lockOfRow. cbn [getArrayName getQueryId getInstanceId getInstanceRole
                         getArrayId getArrayVersionId getArrayVersion isLocked].
  rewrite Hrole.
  repeat split; auto.
  destruct (getInstanceRole lockDesc); reflexivity.
Qed.

Lemma readArrayLocks_after_lockArray_witness :
  (forall x, In x Locks.held -> keyOf Locks.joining x = false)
  /\ (forall x, In x Locks.held -> readable x = true)
  /\ la_outcome (_lockArray None Locks.joining None Locks.held) = Return true
  /\ exists cs ws cs' ws' lock,
       _readArrayLocks None 3 [] [] Locks.held = (Return tt, (cs, ws))
       /\ _readArrayLocks None 3 [] []
                          (la_table (_lockArray None Locks.joining None Locks.held))
          = (Return tt, (cs', ws'))
       /\ Permutation cs' cs /\ Permutation ws' (lock :: ws)
       /\ getArrayId lock = 100.
Proof.
  assert (Hfresh : forall x, In x Locks.held -> keyOf Locks.joining x = false).
  { intros x [<-|[<-|[<-|[<-|[]]]]]; reflexivity. }
  assert (Hread : forall x, In x Locks.held -> readable x = true).
  { intros x [<-|[<-|[<-|[<-|[]]]]]; reflexivity. }
  split; [exact Hfresh|]. split; [exact Hread|]. split; [reflexivity|].
  destruct (readArrayLocks_after_lockArray Locks.joining None Locks.held Hfresh Hread)
    as (cs & ws & cs' & ws' & lock & Hbefore & Hafter & [Hcs Hws] & _ & _ & _ & _ & Hid & _);
    try (simpl; lia); [reflexivity|].
  exists cs, ws, cs', ws', lock. split; [exact Hbefore|]. split; [exact Hafter|].
  split; [exact Hcs|]. split; [exact Hws|]. rewrite Hid. reflexivity.
Defined.
